(** * Symphonia player: playback queue, catalog normalizer and playlist store

    A shallow embedding of the state-changing core of the Symphonia
    front-end (the global [state] object and the functions that read and
    write it), with the properties of its behavioural description settled
    against it. The functions are those of the later of the two revisions
    of the program held in the repository (the one with [MAX_HOME_TRACKS]);
    the two functions of the earlier revision ([app.js]) that differ are in
    [Module AppJs].

    Conventions of the embedding.
    - The global [state] object is the record [State]; every function that
      assigns to it becomes a function returning the new record.
    - Catalog indices are [nat]; [direction] is a [Z].
    - A JavaScript [while] loop is run with fuel: the result is [None] when
      the loop has not left after [fuel] tests of its condition. A function
      that calls [renderUpNext] inherits the fuel.
    - A finite double is the rational it denotes, and a product or
      quotient of doubles is the exact result rounded to the nearest double
      ([Double.round64]); overflow does not arise, the operands being
      array positions and times. [Math.random()] returns a double of the
      half-open unit interval. [generateId()], a base-36 rendering of such
      a value, is an input of the functions that call it.
    - The DOM, the audio element, the media session and notifications are
      not part of the state and their calls are taken not to throw; the page
      is taken to hold every element that [cacheElements] looks up, except
      [upNextList], which the code itself tests for. Two pieces of the
      page are modelled where the code keeps state in them: the body's
      [data-theme] attribute, and the browser's list of frame callbacks
      that the visualizer's loop requests and cancels.
    - Raw records are typed: a field is missing or holds a text. The
      playlist collection in [state] is typed as the program builds it;
      what [loadPlaylistsFromStorage] makes of a stored text of any other
      shape is in [Module Untyped]. Strings are ASCII texts. *)

From Stdlib Require Import QArith Qround Qpower Qabs Lqa.
From stdpp Require Import base list strings sorting pretty.

Open Scope string_scope.
Open Scope list_scope.
Open Scope nat_scope.

(** ** JavaScript values and helpers *)

Module JS.

(** Truthiness of a string: every string but the empty one. *)
Definition truthy (s : string) : bool := negb (String.eqb s "").

(** [a || b] where [a] may be undefined ([None]) or a string. *)
Definition or_else (a : option string) (b : option string) : option string :=
  match a with
  | Some x => if truthy x then Some x else b
  | None => b
  end.

(** [a || d] with a string default on the right. *)
Definition or_default (a : option string) (d : string) : string :=
  match a with
  | Some x => if truthy x then x else d
  | None => d
  end.

(** White space and line terminators of the ASCII range, as
    [String.prototype.trim] strips them: TAB, LF, VT, FF, CR, SP. *)
Definition is_space (c : Ascii.ascii) : bool :=
  let n := Ascii.nat_of_ascii c in
  (n =? 32)%nat || ((9 <=? n)%nat && (n <=? 13)%nat).

Fixpoint trimStart (s : string) : string :=
  match s with
  | EmptyString => EmptyString
  | String c s' => if is_space c then trimStart s' else s
  end.

Fixpoint trimEnd (s : string) : string :=
  match s with
  | EmptyString => EmptyString
  | String c s' =>
      let t := trimEnd s' in
      if is_space c && String.eqb t "" then EmptyString else String c t
  end.

Definition trim (s : string) : string := trimEnd (trimStart s).

(** [arr.includes(x)] on an array of numbers. *)
Definition includes (arr : list nat) (x : nat) : bool := bool_decide (x ∈ arr).

(** [arr.indexOf(x)]: [None] stands for [-1]. *)
Fixpoint indexOf (arr : list nat) (x : nat) : option nat :=
  match arr with
  | [] => None
  | y :: rest => if decide (y = x) then Some 0%nat else S <$> indexOf rest x
  end.

(** [Array.from({ length: n }, (_, i) => i)]. *)
Definition range (n : nat) : list nat := seq 0 n.

(** [[a[i], a[j]] = [a[j], a[i]]]: both reads happen before both writes.
    The indices are inside the array at every use in this program
    ([shuffleArray] draws [j] with [j <= i < a.length]); outside it the
    array is left as it is. *)
Definition swap {A} (a : list A) (i j : nat) : list A :=
  match a !! i, a !! j with
  | Some x, Some y => <[j:=x]> (<[i:=y]> a)
  | _, _ => a
  end.

(** A [while (cond) body] loop over the loop's variables [st], with fuel. *)
Fixpoint while {St} (fuel : nat) (cond : St -> bool) (body : St -> St) (st : St)
  : option St :=
  match fuel with
  | O => None
  | S fuel' => if cond st then while fuel' cond body (body st) else Some st
  end.

End JS.

(** ** Binary64 numbers *)

(** A finite double is given by the rational it denotes; an arithmetic
    operation computes the exact result and rounds it. *)
Module Double.

(** The exponent [e] of the binade of a positive rational:
    [2^e <= x < 2^(e+1)]. *)
Definition binade (x : Q) : Z :=
  let e0 := (Z.log2 (Qnum x) - Z.log2 (Z.pos (Qden x)))%Z in
  if Qle_bool (2 ^ e0) x then e0 else (e0 - 1)%Z.

(** Rounding to the nearest integer, a tie going to the even one. *)
Definition round_half_even (y : Q) : Z :=
  let f := Qfloor y in
  match (y - inject_Z f ?= 1 # 2)%Q with
  | Lt => f
  | Gt => (f + 1)%Z
  | Eq => if Z.even f then f else (f + 1)%Z
  end.

(** The exponent of the last place of the doubles around [x]: 52 binary
    places below the binade, and never below that of the subnormal
    numbers. *)
Definition ulp_exponent (x : Q) : Z := Z.max (binade (Qabs x) - 52) (-1074).

(** The double nearest to [x], a tie going to the even significand: the
    way [*] and [/] round their exact result. The exponent is not bounded
    from above: the results that the program computes (a product below an
    array's length, a quotient of a finite time by 60) do not overflow. *)
Definition round64 (x : Q) : Q :=
  let u := ulp_exponent x in
  inject_Z (round_half_even (x / 2 ^ u)) * 2 ^ u.

End Double.

(** ** The random source *)

(** A value returned by [Math.random()]: a double [q] with [0 <= q < 1],
    that is [significand * 2^exponent] with a significand below [2^53]
    and an exponent from [-1074] (the subnormal numbers) to [-53]. *)
Record unit_sample := mkSample {
  significand : Z;
  exponent : Z;
  sample_ok :
    (-1074 <=? exponent)%Z && (exponent <=? -53)%Z
    && (0 <=? significand)%Z && (significand <? 2 ^ 53)%Z = true
}.

Definition sample_val (r : unit_sample) : Q :=
  inject_Z (significand r) * 2 ^ exponent r.

Coercion sample_val : unit_sample >-> Q.

(** The sample [m * 2^-53] for [0 <= m < 2^53], [0] for another [m]. *)
Definition grid_sample (m : Z) : unit_sample :=
  match Sumbool.sumbool_of_bool ((0 <=? m)%Z && (m <? 2 ^ 53)%Z) with
  | left H => mkSample m (-53) H
  | right _ => mkSample 0 (-53) eq_refl
  end.

(** [Math.floor(Math.random() * (i + 1))] for the value [r] of
    [Math.random()]: the product is rounded to a double before
    [Math.floor] takes its integer part. ([i] is a position in an array,
    so [i + 1] is exact.) *)
Definition floor_scaled (r : unit_sample) (i : nat) : nat :=
  Z.to_nat (Qfloor (Double.round64 (r * inject_Z (Z.of_nat (i + 1))))).

(** [shuffleArray]'s loop [for (let i = a.length - 1; i > 0; i--)]; [rnd k]
    is what the [k]-th call of [Math.random] returns and [k] counts the
    calls made so far. *)
Fixpoint shuffle_loop (rnd : nat -> unit_sample) (k : nat) (i : nat) (a : list nat)
  : list nat :=
  match i with
  | O => a
  | S i' =>
      let j := floor_scaled (rnd k) i in
      shuffle_loop rnd (S k) i' (JS.swap a i j)
  end.

Definition shuffleArray (rnd : nat -> unit_sample) (arr : list nat) : list nat :=
  shuffle_loop rnd 0 (length arr - 1) arr.

(** ** Data model *)

(** A raw catalog record, with the fields [fetchTracks] reads; [None] is a
    missing field. *)
Record RawTrack := mkRaw {
  raw_id : option string;
  raw_title : option string;
  raw_artist : option string;
  raw_cover : option string;
  raw_album : option string;
  raw_url : option string;
  raw_link : option string
}.

(** A normalized track as [fetchTracks] pushes it. *)
Record Track := mkTrack {
  id : string;
  title : string;
  artist : string;
  cover : string;
  album : string;
  src : string;
  url : string;
  link : string
}.

Record Playlist := mkPlaylist {
  pl_id : string;
  pl_name : string;
  trackIds : list nat
}.

Inductive RepeatMode := RepeatOff | RepeatOne.

(** The global [state] object. [playlists] is a JavaScript object used as a
    map: its entries in creation order. *)
Record State := mkState {
  tracks : list Track;
  shuffledOrder : list nat;
  orderIndex : nat;
  currentTrackIndex : option nat;
  isPlaying : bool;
  repeatMode : RepeatMode;
  shuffleEnabled : bool;
  playlists : list (string * Playlist);
  activePlaylistId : option string;
  notificationsPrompted : bool
}.

Definition state0 : State :=
  {| tracks := []; shuffledOrder := []; orderIndex := 0;
     currentTrackIndex := None; isPlaying := false; repeatMode := RepeatOff;
     shuffleEnabled := true; playlists := []; activePlaylistId := None;
     notificationsPrompted := false |}.

Definition set_tracks (v : list Track) (s : State) : State :=
  mkState v (shuffledOrder s) (orderIndex s) (currentTrackIndex s) (isPlaying s)
    (repeatMode s) (shuffleEnabled s) (playlists s) (activePlaylistId s)
    (notificationsPrompted s).

Definition set_order (o : list nat) (oi : nat) (s : State) : State :=
  mkState (tracks s) o oi (currentTrackIndex s) (isPlaying s)
    (repeatMode s) (shuffleEnabled s) (playlists s) (activePlaylistId s)
    (notificationsPrompted s).

Definition set_orderIndex (oi : nat) (s : State) : State :=
  set_order (shuffledOrder s) oi s.

Definition set_currentTrackIndex (c : option nat) (s : State) : State :=
  mkState (tracks s) (shuffledOrder s) (orderIndex s) c (isPlaying s)
    (repeatMode s) (shuffleEnabled s) (playlists s) (activePlaylistId s)
    (notificationsPrompted s).

Definition set_repeatMode (r : RepeatMode) (s : State) : State :=
  mkState (tracks s) (shuffledOrder s) (orderIndex s) (currentTrackIndex s)
    (isPlaying s) r (shuffleEnabled s) (playlists s) (activePlaylistId s)
    (notificationsPrompted s).

Definition set_shuffleEnabled (b : bool) (s : State) : State :=
  mkState (tracks s) (shuffledOrder s) (orderIndex s) (currentTrackIndex s)
    (isPlaying s) (repeatMode s) b (playlists s) (activePlaylistId s)
    (notificationsPrompted s).

Definition set_playlists (p : list (string * Playlist)) (a : option string)
    (s : State) : State :=
  mkState (tracks s) (shuffledOrder s) (orderIndex s) (currentTrackIndex s)
    (isPlaying s) (repeatMode s) (shuffleEnabled s) p a
    (notificationsPrompted s).

(** ** Playback queue engine *)

Definition buildInitialShuffleOrder (rnd : nat -> unit_sample) (s : State) : State :=
  let indices := JS.range (length (tracks s)) in
  set_order (shuffleArray rnd indices) 0 s.

Definition MAX_NEXT : nat := 6.

Section Engine.

(** Whether the page holds the [upNextList] element ([els.upNextList]). *)
Variable upNextList : bool.

(** The loop of [renderUpNext] taken when shuffle is on and the order is not
    empty; its variables are [(list, start)]. *)
Definition shuffled_cond (maxNext : nat) (order : list nat)
    (st : list nat * nat) : bool :=
  (length st.1 <? maxNext) && (0 <? length order).

Definition shuffled_body (order : list nat) (st : list nat * nat)
    : list nat * nat :=
  let '(lst, start) := st in
  match order !! (start mod length order) with
  | Some idx => (if JS.includes lst idx then lst else lst ++ [idx], S start)
  | None => (lst, S start)
  end.

Definition upNextShuffled (maxNext fuel : nat) (s : State) : option (list nat) :=
  fst <$> JS.while fuel
    (shuffled_cond maxNext (shuffledOrder s))
    (shuffled_body (shuffledOrder s))
    ([], orderIndex s + 1).

(** The loop of the other branch; its variables are [(list, idx)]. *)
Definition sequential_cond (maxNext n : nat) (st : list nat * nat) : bool :=
  length st.1 <? Nat.min maxNext (n - 1).

Definition sequential_body (n : nat) (st : list nat * nat) : list nat * nat :=
  let '(lst, idx) := st in
  (if JS.includes lst idx then lst else lst ++ [idx], (idx + 1) mod n).

Definition upNextSequential (maxNext fuel : nat) (s : State) : option (list nat) :=
  let n := length (tracks s) in
  let idx0 :=
    match currentTrackIndex s with
    | None => 0
    | Some c => (c + 1) mod n
    end in
  fst <$> JS.while fuel (sequential_cond maxNext n) (sequential_body n) ([], idx0).

(** The up-next list of [renderUpNext], for a bound [maxNext] in place of
    the constant [MAX_NEXT]. *)
Definition upNextQueue (maxNext fuel : nat) (s : State) : option (list nat) :=
  if shuffleEnabled s && (0 <? length (shuffledOrder s))%nat
  then upNextShuffled maxNext fuel s
  else upNextSequential maxNext fuel s.

(** [renderUpNext] assigns nothing in [state]; what matters to its callers
    is whether it returns ([Some tt]) or is still looping ([None]). *)
Definition renderUpNext (fuel : nat) (s : State) : option unit :=
  if negb upNextList || (length (tracks s) =? 0)%nat then Some tt
  else match upNextQueue MAX_NEXT fuel s with
       | Some _ => Some tt
       | None => None
       end.

(** [loadTrackByIndex(index, autoplay)]; [autoplay] only decides calls on
    the audio element and is left out. *)
Definition loadTrackByIndex (fuel : nat) (index : nat) (s : State) : option State :=
  if (length (tracks s) <=? index)%nat then Some s
  else match tracks s !! index with
       | None => Some s
       | Some track =>
           let source :=
             JS.trim
               (if JS.truthy (src track) then src track
                else if JS.truthy (url track) then url track
                else if JS.truthy (link track) then link track
                else "") in
           if negb (JS.truthy source) || String.eqb source "undefined"
           then Some s
           else
             let s' := set_currentTrackIndex (Some index) s in
             match renderUpNext fuel s' with
             | Some _ => Some s'
             | None => None
             end
       end.

Definition playTrackFromIndex (fuel : nat) (rnd : nat -> unit_sample)
    (index : nat) (s : State) : option State :=
  match tracks s !! index with
  | None => Some s
  | Some _ =>
      let s1 :=
        if JS.includes (shuffledOrder s) index then s
        else buildInitialShuffleOrder rnd s in
      let s2 := set_currentTrackIndex (Some index) s1 in
      let s3 :=
        match JS.indexOf (shuffledOrder s2) index with
        | Some idxInOrder => set_orderIndex idxInOrder s2
        | None => s2
        end in
      loadTrackByIndex fuel index s3
  end.

(** [skipTrack(direction)]. [state.orderIndex += direction] may leave the
    array for a moment; the test that follows puts it back to [0] through
    [buildInitialShuffleOrder], so the field holds a natural number
    whenever the function is left. [shuffledOrder[orderIndex]] that reads
    nothing is [undefined], which [loadTrackByIndex] refuses. *)
Definition skipTrack (fuel : nat) (rnd : nat -> unit_sample) (direction : Z)
    (s : State) : option State :=
  if (length (tracks s) =? 0)%nat then Some s
  else if shuffleEnabled s && (0 <? length (shuffledOrder s))%nat then
    let oi := (Z.of_nat (orderIndex s) + direction)%Z in
    let s1 :=
      if (oi <? 0)%Z || (Z.of_nat (length (shuffledOrder s)) <=? oi)%Z
      then buildInitialShuffleOrder rnd s
      else set_orderIndex (Z.to_nat oi) s in
    match shuffledOrder s1 !! orderIndex s1 with
    | Some idx => loadTrackByIndex fuel idx s1
    | None => Some s1
    end
  else
    let n := Z.of_nat (length (tracks s)) in
    let newIndex := (Z.of_nat (default 0%nat (currentTrackIndex s)) + direction)%Z in
    let newIndex := if (newIndex <? 0)%Z then (n - 1)%Z else newIndex in
    let newIndex := if (n <=? newIndex)%Z then 0%Z else newIndex in
    loadTrackByIndex fuel (Z.to_nat newIndex) s.

Definition toggleShuffle (fuel : nat) (rnd : nat -> unit_sample) (s : State)
    : option State :=
  let s1 := set_shuffleEnabled (negb (shuffleEnabled s)) s in
  let s2 := if shuffleEnabled s1 then buildInitialShuffleOrder rnd s1 else s1 in
  match renderUpNext fuel s2 with
  | Some _ => Some s2
  | None => None
  end.

Definition toggleRepeat (s : State) : State :=
  match repeatMode s with
  | RepeatOff => set_repeatMode RepeatOne s
  | RepeatOne => set_repeatMode RepeatOff s
  end.

Definition handleTrackEnded (fuel : nat) (rnd : nat -> unit_sample) (s : State)
    : option State :=
  match repeatMode s with
  | RepeatOne => Some s
  | RepeatOff => skipTrack fuel rnd 1 s
  end.

End Engine.

(** ** Catalog normalizer *)

(** The body of the [raw.forEach] callback of [fetchTracks]: [None] when the
    record is skipped, the pushed track otherwise. *)
Definition normalizeRecord (t : RawTrack) (idx : nat) : option Track :=
  let u := JS.trim (JS.or_default (JS.or_else (raw_url t) (raw_link t)) "") in
  if negb (JS.truthy u) then None
  else
    let title := JS.or_default (raw_title t) "Untitled" in
    let artist := JS.or_default (raw_artist t) "Unknown artist" in
    let cover := JS.trim (JS.or_default (raw_cover t) "") in
    let album := JS.or_default (raw_album t) "" in
    Some {| id := JS.or_default (raw_id t) ("t" +:+ pretty (idx + 1)%nat);
            title := title; artist := artist;
            cover := JS.or_default (Some cover) "";
            album := album; src := u; url := u; link := u |}.

(** [raw.forEach((t, idx) => ...)] with its two accumulators [normalized]
    and [skipped]. *)
Fixpoint normalize_from (raw : list RawTrack) (idx : nat)
    (normalized : list Track) (skipped : nat) : list Track * nat :=
  match raw with
  | [] => (normalized, skipped)
  | t :: rest =>
      match normalizeRecord t idx with
      | None => normalize_from rest (S idx) normalized (S skipped)
      | Some tr => normalize_from rest (S idx) (normalized ++ [tr]) skipped
      end
  end.

(** The normalization step of [fetchTracks]: the catalog and the number of
    skipped records it logs. *)
Definition normalizeTracks (raw : list RawTrack) : list Track * nat :=
  normalize_from raw 0 [] 0.

(** [fetchTracks] once the response has been read as the array [raw]: the
    catalog is replaced, and unless it is empty the order is built, the
    up-next list rendered and the first track of the order loaded. (A
    failing request is caught before the state is touched.) *)
Definition fetchTracks (upNextList : bool) (fuel : nat) (rnd : nat -> unit_sample)
    (raw : list RawTrack) (s : State) : option State :=
  let s1 := set_tracks (normalizeTracks raw).1 s in
  if (length (tracks s1) =? 0)%nat then Some s1
  else
    let s2 := buildInitialShuffleOrder rnd s1 in
    match renderUpNext upNextList fuel s2 with
    | None => None
    | Some _ =>
        match shuffledOrder s2 !! 0%nat with
        | Some idx => loadTrackByIndex upNextList fuel idx s2
        | None => Some s2
        end
    end.

(** ** JavaScript objects used as maps *)

Module Obj.

Definition digit (c : Ascii.ascii) : option N :=
  let n := Ascii.N_of_ascii c in
  if (48 <=? n)%N && (n <=? 57)%N then Some (n - 48)%N else None.

Fixpoint parse_dec (s : string) (acc : N) : option N :=
  match s with
  | EmptyString => Some acc
  | String c s' =>
      match digit c with
      | Some d => parse_dec s' (10 * acc + d)%N
      | None => None
      end
  end.

(** A property key that is an array index: the canonical decimal text of
    an integer below [2^32 - 1]. *)
Definition array_index (k : string) : option N :=
  match k with
  | EmptyString => None
  | _ =>
      match parse_dec k 0 with
      | Some n =>
          if (n <? 4294967295)%N && String.eqb (pretty n) k then Some n else None
      | None => None
      end
  end.

(** Array-index keys are compared by their numeric value. *)
Definition index_le (a b : N * string) : Prop := (a.1 ≤ b.1)%N.

#[global] Instance index_le_dec (a b : N * string) : Decision (index_le a b) :=
  N.le_dec a.1 b.1.

(** The order of own property keys: array indices in ascending numeric
    order, then the other keys in creation order. *)
Definition key_order (ks : list string) : list string :=
  let indexed := omap (fun k => (fun n => (n, k)) <$> array_index k) ks in
  (snd <$> merge_sort index_le indexed)
  ++ filter (fun k => array_index k = None) ks.

Section WithValues.
Context {V : Type}.

(** [o[k]]: [None] is [undefined]. *)
Fixpoint get (k : string) (o : list (string * V)) : option V :=
  match o with
  | [] => None
  | (k', v) :: rest => if String.eqb k' k then Some v else get k rest
  end.

(** [o[k] = v]: an existing property keeps its place, a new one is
    created last. *)
Fixpoint set (k : string) (v : V) (o : list (string * V)) : list (string * V) :=
  match o with
  | [] => [(k, v)]
  | (k', v') :: rest =>
      if String.eqb k' k then (k, v) :: rest else (k', v') :: set k v rest
  end.

(** [Object.keys(o)]. *)
Definition keys (o : list (string * V)) : list string := key_order (fst <$> o).

(** The object that [JSON.parse(JSON.stringify(o))] builds: the same
    properties, created in the order of [Object.keys(o)]. *)
Definition reparsed (o : list (string * V)) : list (string * V) :=
  omap (fun k => (fun v => (k, v)) <$> get k o) (keys o).

End WithValues.

End Obj.

(** ** Playlist store *)

(** What [JSON.parse] makes of a stored text of the shape that
    [savePlaylistsToStorage] writes: an object whose two fields may be
    missing. *)
Record Payload := mkPayload {
  stored_playlists : option (list (string * Playlist));
  stored_activePlaylistId : option string
}.

(** [localStorage.getItem(PLAYLIST_STORAGE_KEY)] as [loadPlaylistsFromStorage]
    tells its values apart: [NoItem] is [null] or the empty text ([!raw]);
    [Unparseable] is a text on which [JSON.parse] throws; [Parsed p] is a
    text that parses to [p]. A text that parses to a value of another shape
    is not among these: [Untyped.loadPlaylistsFromStorage] below takes
    every stored text, and agrees with the function here on these three
    ([untyped_load_agrees]). *)
Inductive StoredItem :=
| NoItem
| Unparseable
| Parsed (p : Payload).

(** The state and the stored item of the playlist key. *)
Definition World : Type := State * StoredItem.

Definition favorites (favId : string) : Playlist :=
  {| pl_id := favId; pl_name := "Favorites"; trackIds := [] |}.

Section Store.

(** Whether [localStorage.setItem] throws (storage full or denied). *)
Variable setItemThrows : bool.

(** [loadPlaylistsFromStorage]; [newId] is what [generateId()] returns in
    this call, a base-36 rendering of [Math.random()]. The function does
    not write to the storage. *)
Definition loadPlaylistsFromStorage (newId : string) (w : World) : World :=
  let '(s, item) := w in
  match item with
  | NoItem =>
      (set_playlists (Obj.set newId (favorites newId) (playlists s))
         (Some newId) s, item)
  | Unparseable => (s, item)
  | Parsed p =>
      let pls := default [] (stored_playlists p) in
      (set_playlists pls
         (JS.or_else (stored_activePlaylistId p) (head (Obj.keys pls))) s,
       item)
  end.

Definition savePlaylistsToStorage (w : World) : World :=
  let '(s, item) := w in
  if setItemThrows then (s, item)
  else (s, Parsed {| stored_playlists := Some (Obj.reparsed (playlists s));
                     stored_activePlaylistId := activePlaylistId s |}).

(** [createNewPlaylist]; [name] is what [prompt] returns ([None] when the
    dialog is dismissed). *)
Definition createNewPlaylist (newId : string) (name : option string) (w : World)
    : World :=
  let '(s, item) := w in
  match name with
  | None => w
  | Some nm =>
      if negb (JS.truthy nm) then w
      else
        let pl := {| pl_id := newId; pl_name := JS.trim nm; trackIds := [] |} in
        savePlaylistsToStorage
          (set_playlists (Obj.set newId pl (playlists s)) (Some newId) s, item)
  end.

(** The first part of [handleAddTrackToPlaylist]: the target id and the
    state after the assignments made while finding it. *)
Definition resolveTarget (newId : string) (s : State) : string * State :=
  match activePlaylistId s with
  | Some t =>
      if JS.truthy t then (t, s)
      else
        match Obj.keys (playlists s) with
        | [] =>
            (newId,
             set_playlists (Obj.set newId (favorites newId) (playlists s))
               (Some newId) s)
        | id0 :: _ => (id0, set_playlists (playlists s) (Some id0) s)
        end
  | None =>
      match Obj.keys (playlists s) with
      | [] =>
          (newId,
           set_playlists (Obj.set newId (favorites newId) (playlists s))
             (Some newId) s)
      | id0 :: _ => (id0, set_playlists (playlists s) (Some id0) s)
      end
  end.

(** [pl.trackIds.includes(trackIndex)] and the [push] behind it. *)
Definition addIfAbsent (trackIndex : nat) (pl : Playlist) : Playlist :=
  if JS.includes (trackIds pl) trackIndex then pl
  else {| pl_id := pl_id pl; pl_name := pl_name pl;
          trackIds := trackIds pl ++ [trackIndex] |}.

(** [handleAddTrackToPlaylist(trackIndex)]; [None] is the [TypeError] of
    reading [trackIds] of [undefined], thrown before any assignment when
    the active id keys no playlist. *)
Definition handleAddTrackToPlaylist (newId : string) (trackIndex : nat)
    (w : World) : option World :=
  let '(s, item) := w in
  let '(targetId, s1) := resolveTarget newId s in
  match Obj.get targetId (playlists s1) with
  | None => None
  | Some pl =>
      Some (savePlaylistsToStorage
              (set_playlists
                 (Obj.set targetId (addIfAbsent trackIndex pl) (playlists s1))
                 (activePlaylistId s1) s1,
               item))
  end.

(** The click handler that [renderPlaylistSidebar] attaches to the item of
    the playlist stored under [key]; without such a playlist there is no
    item to click. *)
Definition selectPlaylist (key : string) (w : World) : World :=
  let '(s, item) := w in
  match Obj.get key (playlists s) with
  | None => w
  | Some pl =>
      savePlaylistsToStorage
        (set_playlists (playlists s) (Some (pl_id pl)) s, item)
  end.

End Store.

(** ** Stored texts of any shape *)

Module Json.

(** What [JSON.parse] can return, and [undefined], which is what a property
    that is not there reads as. An object lists its own properties in the
    order of their creation, each key once. *)
#[warnings="-register-all"] Inductive value :=
| Undefined
| Null
| Bool (b : bool)
| Num (q : Q)
| Str (s : string)
| Arr (items : list value)
| Object (props : list (string * value)).

(** Whether a value counts as true in [||] and [!]. *)
Definition truthy (v : value) : bool :=
  match v with
  | Undefined | Null => false
  | Bool b => b
  | Num q => negb (Qeq_bool q 0)
  | Str s => JS.truthy s
  | Arr _ | Object _ => true
  end.

(** [v.k] for the names that the playlist store reads ([playlists],
    [activePlaylistId], [id], [name], [trackIds]), none of which is a
    property of a built-in prototype. [None] is the [TypeError] of reading a
    property of [null] or [undefined]; an object has the property or reads
    [undefined]; every other value reads [undefined]. *)
Definition field (v : value) (k : string) : option value :=
  match v with
  | Undefined | Null => None
  | Object props => Some (default Undefined (Obj.get k props))
  | Bool _ | Num _ | Str _ | Arr _ => Some Undefined
  end.

(** [Object.keys(v)]; [None] is the [TypeError] on [null] and
    [undefined]. An array and a text have their positions as keys, a number
    and a truth value have none. *)
Definition keys (v : value) : option (list string) :=
  match v with
  | Undefined | Null => None
  | Object props => Some (Obj.keys props)
  | Arr items => Some (pretty <$> seq 0 (length items))
  | Str s => Some (pretty <$> seq 0 (String.length s))
  | Bool _ | Num _ => Some []
  end.

(** [Object.values(v)], in the order of [Object.keys(v)]. *)
Definition values (v : value) : option (list value) :=
  match v with
  | Undefined | Null => None
  | Object props => Some (omap (fun k => Obj.get k props) (Obj.keys props))
  | Arr items => Some items
  | Str s =>
      Some ((fun c => Str (String c EmptyString))
              <$> String.list_ascii_of_string s)
  | Bool _ | Num _ => Some []
  end.

End Json.

(** The typed collection as the values it stands for. *)
Definition encode_playlist (pl : Playlist) : Json.value :=
  Json.Object
    [("id", Json.Str (pl_id pl));
     ("name", Json.Str (pl_name pl));
     ("trackIds",
      Json.Arr ((fun i => Json.Num (inject_Z (Z.of_nat i))) <$> trackIds pl))].

Definition encode_playlists (pls : list (string * Playlist)) : Json.value :=
  Json.Object ((fun kv => (kv.1, encode_playlist kv.2)) <$> pls).

Definition encode_active (a : option string) : Json.value :=
  match a with
  | Some x => Json.Str x
  | None => Json.Null
  end.

Module Untyped.

(** [localStorage.getItem(PLAYLIST_STORAGE_KEY)] with a text of any shape:
    [NoText] is [null] or the empty text ([!raw]), [Malformed] a text that
    [JSON.parse] rejects, [Parses j] a text that it turns into [j] (never
    [undefined]). *)
Inductive StoredText :=
| NoText
| Malformed
| Parses (j : Json.value).

(** The two fields of [state] that [loadPlaylistsFromStorage] assigns, which
    after the call can hold values of any shape, and whether its [catch]
    block ran. *)
Record Loaded := mkLoaded {
  loaded_playlists : Json.value;
  loaded_activePlaylistId : Json.value;
  warned : bool
}.

(** Whether the callback of [renderPlaylistSidebar] throws at the entry
    [pl]: it reads [pl.id], [pl.name] and [pl.trackIds.length]. *)
Definition item_throws (pl : Json.value) : bool :=
  match Json.field pl "trackIds" with
  | None => true
  | Some Json.Undefined | Some Json.Null => true
  | Some _ => false
  end.

(** Whether [renderPlaylistSidebar()] throws on a collection of any shape:
    at the first of [Object.values(state.playlists)] where its callback
    does. *)
Definition renderPlaylistSidebar_throws (pls : Json.value) : bool :=
  match Json.values pls with
  | None => true
  | Some vs => existsb item_throws vs
  end.

(** [loadPlaylistsFromStorage] from a state that the program has built
    ([s], at the start of the page the initial one) on a stored text of any
    shape. Whatever throws inside the [try] is caught, and what was
    assigned before stays assigned. *)
Definition loadPlaylistsFromStorage (newId : string) (s : State)
    (raw : StoredText) : Loaded :=
  let before := encode_playlists (playlists s) in
  let active_before := encode_active (activePlaylistId s) in
  match raw with
  | NoText =>
      let pls :=
        encode_playlists (Obj.set newId (favorites newId) (playlists s)) in
      {| loaded_playlists := pls; loaded_activePlaylistId := Json.Str newId;
         warned := renderPlaylistSidebar_throws pls |}
  | Malformed =>
      {| loaded_playlists := before; loaded_activePlaylistId := active_before;
         warned := true |}
  | Parses parsed =>
      match Json.field parsed "playlists" with
      | None =>
          {| loaded_playlists := before; loaded_activePlaylistId := active_before;
             warned := true |}
      | Some p =>
          let pls := if Json.truthy p then p else Json.Object [] in
          match Json.field parsed "activePlaylistId" with
          | None =>
              {| loaded_playlists := pls; loaded_activePlaylistId := active_before;
                 warned := true |}
          | Some a =>
              if Json.truthy a then
                {| loaded_playlists := pls; loaded_activePlaylistId := a;
                   warned := renderPlaylistSidebar_throws pls |}
              else
                match Json.keys pls with
                | None =>
                    {| loaded_playlists := pls; loaded_activePlaylistId := active_before;
                       warned := true |}
                | Some ks =>
                    {| loaded_playlists := pls;
                       loaded_activePlaylistId :=
                         default Json.Undefined (Json.Str <$> head ks);
                       warned := renderPlaylistSidebar_throws pls |}
                end
          end
      end
  end.

End Untyped.

(** The typed stored item as a stored text. *)
Definition encode_payload (p : Payload) : Json.value :=
  Json.Object
    (match stored_playlists p with
     | Some pls => [("playlists", encode_playlists pls)]
     | None => []
     end
     ++ match stored_activePlaylistId p with
        | Some a => [("activePlaylistId", Json.Str a)]
        | None => []
        end).

Definition encode_item (item : StoredItem) : Untyped.StoredText :=
  match item with
  | NoItem => Untyped.NoText
  | Unparseable => Untyped.Malformed
  | Parsed p => Untyped.Parses (encode_payload p)
  end.

(** A typed active id and the value it stands for: no id is [null] or
    [undefined]. *)
Definition same_active (v : Json.value) (a : option string) : Prop :=
  match a with
  | Some x => v = Json.Str x
  | None => v = Json.Null \/ v = Json.Undefined
  end.

(** ** The earlier revision of the two functions that differ

    The repository holds two revisions of the program. The definitions above
    follow the later one, which the description was written from. In the
    earlier one ([app.js]) [fetchTracks] keeps every record and
    [loadTrackByIndex] has no test on the source; [skipTrack] is the same
    text and calls that [loadTrackByIndex]. Every other function modelled
    here is the same in both. *)

Module AppJs.

(** [src] is [t.link], which may be [undefined]. *)
Record Track := mkTrack {
  id : string;
  title : string;
  artist : string;
  cover : string;
  album : string;
  src : option string
}.

(** [raw.map((t, idx) => ...)]. *)
Definition normalizeTracks (raw : list RawTrack) : list Track :=
  imap
    (fun idx t =>
       {| id := JS.or_default (raw_id t) ("t" +:+ pretty (idx + 1));
          title := JS.or_default (raw_title t) "Untitled";
          artist := JS.or_default (raw_artist t) "Unknown artist";
          cover := JS.or_default (raw_cover t) "";
          album := JS.or_default (raw_album t) "";
          src := raw_link t |})
    raw.

Definition loadTrackByIndex (upNextList : bool) (fuel : nat) (index : nat)
    (s : State) : option State :=
  match tracks s !! index with
  | None => Some s
  | Some _ =>
      let s' := set_currentTrackIndex (Some index) s in
      match renderUpNext upNextList fuel s' with
      | Some _ => Some s'
      | None => None
      end
  end.

Definition skipTrack (upNextList : bool) (fuel : nat) (rnd : nat -> unit_sample)
    (direction : Z) (s : State) : option State :=
  if (length (tracks s) =? 0)%nat then Some s
  else if shuffleEnabled s && (0 <? length (shuffledOrder s))%nat then
    let oi := (Z.of_nat (orderIndex s) + direction)%Z in
    let s1 :=
      if (oi <? 0)%Z || (Z.of_nat (length (shuffledOrder s)) <=? oi)%Z
      then buildInitialShuffleOrder rnd s
      else set_orderIndex (Z.to_nat oi) s in
    match shuffledOrder s1 !! orderIndex s1 with
    | Some idx => loadTrackByIndex upNextList fuel idx s1
    | None => Some s1
    end
  else
    let n := Z.of_nat (length (tracks s)) in
    let newIndex := (Z.of_nat (default 0%nat (currentTrackIndex s)) + direction)%Z in
    let newIndex := if (newIndex <? 0)%Z then (n - 1)%Z else newIndex in
    let newIndex := if (n <=? newIndex)%Z then 0%Z else newIndex in
    loadTrackByIndex upNextList fuel (Z.to_nat newIndex) s.

End AppJs.

(** ** The source of a record, in the words of the description *)

(** The [url] field when it holds a text, else the [link] field when it is
    there, else the empty text. *)
Definition first_present (a b : option string) : string :=
  match a with
  | Some x => if String.eqb x "" then default "" b else x
  | None => default "" b
  end.

(** "Trying, in order, a url field then a link field; trim whitespace". *)
Definition rawSource (t : RawTrack) : string :=
  JS.trim (first_present (raw_url t) (raw_link t)).

(** ** Consistency of the playlist collection *)

(** [activePlaylistId], if set, keys a playlist. *)
Definition active_keys_playlist (s : State) : Prop :=
  match activePlaylistId s with
  | Some a => is_Some (Obj.get a (playlists s))
  | None => True
  end.

(** Every playlist is stored under its own [id]. *)
Definition ids_match_keys (pls : list (string * Playlist)) : Prop :=
  Forall (fun e => pl_id e.2 = e.1) pls.

Definition store_ok (s : State) : Prop :=
  active_keys_playlist s /\ ids_match_keys (playlists s).

(** The same on a stored payload: its playlists are stored under their ids
    and its active id, if it counts as set, keys one of them. *)
Definition payload_ok (p : Payload) : Prop :=
  ids_match_keys (default [] (stored_playlists p))
  /\ match stored_activePlaylistId p with
     | Some a =>
         JS.truthy a = true ->
         is_Some (Obj.get a (default [] (stored_playlists p)))
     | None => True
     end.

(** ** Inputs used in the examples *)

(** The multiple of [2^-53] nearest to [q], which is a double, when it lies
    in the unit interval; [0] otherwise. *)
Definition to_sample (q : Q) : unit_sample :=
  grid_sample (Double.round_half_even (q * 2 ^ 53)).

(** A random source that returns the same value at every call. *)
Definition constant_source (q : Q) : nat -> unit_sample := fun _ => to_sample q.

(** A track with the given source, and catalogs and states built of it. *)
Definition demo_track (u : string) : Track :=
  {| id := "t1"; title := "Untitled"; artist := "Unknown artist"; cover := "";
     album := ""; src := u; url := u; link := u |}.

Definition demo_catalog (n : nat) : list Track :=
  replicate n (demo_track "http://x/a.mp3").

Definition demo_state (catalog : list Track) (shuffle : bool) (order : list nat)
    (oi : nat) (cur : option nat) : State :=
  {| tracks := catalog; shuffledOrder := order; orderIndex := oi;
     currentTrackIndex := cur; isPlaying := false; repeatMode := RepeatOff;
     shuffleEnabled := shuffle; playlists := []; activePlaylistId := None;
     notificationsPrompted := false |}.

(** ** Walks used to describe the up-next list *)

(** [count] entries of [order] read from slot [start] on, wrapping. *)
Definition walk (order : list nat) (start count : nat) : list nat :=
  (fun t => order !!! ((start + t) mod length order)) <$> seq 0 count.

(** [count] indices counted up from [idx0], wrapping at [n]. *)
Definition count_up (n idx0 count : nat) : list nat :=
  (fun t => (idx0 + t) mod n) <$> seq 0 count.

(** What the loop keeps: no entry twice, entries of [order] only, and no
    more than [maxNext] of them. *)
Definition shuffled_inv (maxNext : nat) (order : list nat)
    (st : list nat * nat) : Prop :=
  NoDup st.1 /\ st.1 ⊆ order /\ length st.1 ≤ maxNext.

(** The test of [loadTrackByIndex] on a track's source: a text is left
    after trimming and it is not the text [undefined]. *)
Definition has_source (t : Track) : bool :=
  let source :=
    JS.trim
      (if JS.truthy (src t) then src t
       else if JS.truthy (url t) then url t
       else if JS.truthy (link t) then link t
       else "") in
  JS.truthy source && negb (String.eqb source "undefined").

(** A source that draws the largest index at every step: the shuffle then
    leaves the array as it is. *)
Definition high_source : nat -> unit_sample := constant_source (9 # 10).

(** A raw record with a title and a [link] field only. *)
Definition raw_titled (t : string) (l : option string) : RawTrack :=
  {| raw_id := None; raw_title := Some t; raw_artist := None; raw_cover := None;
     raw_album := None; raw_url := None; raw_link := l |}.

(** Three raw records with a link each. *)
Definition demo_raw_three : list RawTrack :=
  [raw_titled "A" (Some "http://x/a.mp3");
   raw_titled "B" (Some "http://x/b.mp3");
   raw_titled "C" (Some "http://x/c.mp3")].

(** A session on a page with the up-next element, from the initial state:
    six records are fetched, track 1 is started, shuffle is turned off and
    on again. *)
Definition demo_session : option State :=
  s1 ← fetchTracks true 7 high_source (demo_raw_three ++ demo_raw_three) state0;
  s2 ← playTrackFromIndex true 7 high_source 1 s1;
  s3 ← toggleShuffle true 7 high_source s2;
  toggleShuffle true 7 high_source s3.

(** Eight tracks in a shuffled order, the cursor on slot 2, which holds
    the current track 0. *)
Definition demo_shuffled_state : State :=
  demo_state (demo_catalog 8) true [3; 1; 0; 2; 7; 6; 5; 4] 2 (Some 0).

(** Five tracks, shuffle off, track 3 current. *)
Definition demo_sequential_state : State :=
  demo_state (demo_catalog 5) false [0; 1; 2; 3; 4] 0 (Some 3).

(** The catalog of two records, the first with the text [undefined] as its
    link; shuffle off, track 1 current. *)
Definition demo_undefined_state : State :=
  demo_state
    (normalizeTracks [raw_titled "U" (Some "undefined");
                      raw_titled "A" (Some "http://x/a.mp3")]).1
    false [0; 1] 1 (Some 1).

(** The collection that [loadPlaylistsFromStorage] builds on the first
    visit, with [k3x9q2a] as the generated id. *)
Definition demo_world : World :=
  loadPlaylistsFromStorage "k3x9q2a" (state0, NoItem).

(** A stored collection without playlists whose active id is [ghost]. *)
Definition ghost_payload : Payload :=
  {| stored_playlists := Some []; stored_activePlaylistId := Some "ghost" |}.

(** A stored text that parses but is not of the shape that
    [savePlaylistsToStorage] writes: its one playlist has no [trackIds]. *)
Definition ill_shaped_blob : Json.value :=
  Json.Object
    [("playlists",
      Json.Object [("a", Json.Object [("id", Json.Str "a");
                                      ("name", Json.Str "Mix")])]);
     ("activePlaylistId", Json.Str "a")].

(** ** Time labels *)

(** [s.toString().padStart(2, "0")]. *)
Definition padStart2 (s : string) : string :=
  if (String.length s <? 2)%nat then "0" +:+ s else s.

(** A JavaScript number: [NaN], an infinity, or a finite double. *)
Inductive Number :=
| NaN
| Infinity (negative : bool)
| Finite (q : Q).

Section Labels.

(** The text of an integer of magnitude [2^53] or more, which prints the
    shortest digits that read back as the same double, in exponent form
    from [10^21] on. The model takes that text as given. *)
Variable largeText : Z -> string.

(** The text of an integer-valued double, as a template literal prints
    it. *)
Definition integerText (n : Z) : string :=
  if (Z.abs n <? 2 ^ 53)%Z then pretty n else largeText n.

(** [formatTime(sec)]: [Math.floor], then minutes by [Math.floor(sec / 60)],
    a quotient of doubles, and seconds by the remainder [%], which is exact
    and takes the sign of [sec]. [NaN] and the infinities pass through
    [Math.floor], and their remainder is [NaN]. *)
Definition formatTime (sec : Number) : string :=
  match sec with
  | NaN => "NaN:NaN"
  | Infinity false => "Infinity:NaN"
  | Infinity true => "-Infinity:NaN"
  | Finite q =>
      let sec := Qfloor q in
      let m := Qfloor (Double.round64 (inject_Z sec / 60)) in
      let s := Z.rem sec 60 in
      integerText m +:+ ":" +:+ padStart2 (pretty s)
  end.

End Labels.

(** ** Theme *)

(** The [data-theme] attribute of the body and the stored preference; [None]
    is a missing attribute or item. *)
Record ThemeWorld := mkTheme {
  bodyTheme : option string;
  storedTheme : option string
}.

(** How a call that nothing catches ends: it returns, or
    [localStorage.setItem] throws and the call is left at that point. *)
Inductive Outcome (A : Type) :=
| Returned (a : A)
| Threw (a : A).

Arguments Returned {A} a.
Arguments Threw {A} a.

Section Theme.

(** Whether [localStorage.setItem] throws. *)
Variable setItemThrows : bool.

Definition setTheme (theme : string) (w : ThemeWorld) : Outcome ThemeWorld :=
  let w1 := {| bodyTheme := Some theme; storedTheme := storedTheme w |} in
  if setItemThrows then Threw w1
  else Returned {| bodyTheme := Some theme; storedTheme := Some theme |}.

Definition toggleTheme (w : ThemeWorld) : Outcome ThemeWorld :=
  let current := JS.or_default (bodyTheme w) "dark" in
  setTheme (if String.eqb current "dark" then "light" else "dark") w.

(** [prefersLight] is what the media query for a light colour scheme says. *)
Definition initTheme (prefersLight : bool) (w : ThemeWorld) : Outcome ThemeWorld :=
  let initial :=
    JS.or_default (storedTheme w) (if prefersLight then "light" else "dark") in
  setTheme initial w.

End Theme.

(** ** The visualizer's frame loop *)

(** [visualizerState] as far as the loop goes, with the browser's list of
    frame callbacks: [vis_ready] says that [initVisualizer] has set the
    analyser and the bars, [pending] holds the handles of the callbacks not
    yet run or cancelled, [frameCounter] is the last handle given out. *)
Record Visualizer := mkVis {
  vis_ready : bool;
  rafId : option nat;
  pending : list nat;
  frameCounter : nat
}.

Definition visualizer0 : Visualizer :=
  {| vis_ready := false; rafId := None; pending := []; frameCounter := 0 |}.

(** [initVisualizer]; [supported] says that the page has the visualizer
    element and the browser an audio context. *)
Definition initVisualizer (supported : bool) (v : Visualizer) : Visualizer :=
  if vis_ready v then v
  else if supported
       then {| vis_ready := true; rafId := rafId v; pending := pending v;
               frameCounter := frameCounter v |}
       else v.

(** [cancelAnimationFrame(h)]. *)
Definition cancelAnimationFrame (h : nat) (v : Visualizer) : Visualizer :=
  {| vis_ready := vis_ready v; rafId := rafId v;
     pending := filter (fun x => x <> h) (pending v);
     frameCounter := frameCounter v |}.

(** The closure [render] of [startVisualizerLoop], as far as the loop goes:
    [visualizerState.rafId = requestAnimationFrame(render)]. Handles count
    up from 1. *)
Definition render (v : Visualizer) : Visualizer :=
  let h := S (frameCounter v) in
  {| vis_ready := vis_ready v; rafId := Some h; pending := pending v ++ [h];
     frameCounter := h |}.

(** A handle used as a condition. *)
Definition handle_set (r : option nat) : bool :=
  match r with
  | Some h => negb (h =? 0)%nat
  | None => false
  end.

Definition startVisualizerLoop (v : Visualizer) : Visualizer :=
  if negb (vis_ready v) then v
  else
    let v1 :=
      match rafId v with
      | Some h => if handle_set (rafId v) then cancelAnimationFrame h v else v
      | None => v
      end in
    render v1.

Definition stopVisualizerLoop (v : Visualizer) : Visualizer :=
  match rafId v with
  | Some h =>
      if handle_set (rafId v)
      then
        let v1 := cancelAnimationFrame h v in
        {| vis_ready := vis_ready v1; rafId := None; pending := pending v1;
           frameCounter := frameCounter v1 |}
      else v
  | None => v
  end.

(** The browser runs the frame callback with handle [h], if it still holds
    it: the callback leaves the list and [render] runs. *)
Definition runFrame (h : nat) (v : Visualizer) : Visualizer :=
  if bool_decide (h ∈ pending v)
  then render (cancelAnimationFrame h v)
  else v.

(** What can happen to the visualizer: the calls the program makes and the
    frames the browser runs. *)
Inductive VisEvent :=
| EvInit (supported : bool)
| EvStart
| EvStop
| EvFrame (h : nat).

Definition vis_step (v : Visualizer) (e : VisEvent) : Visualizer :=
  match e with
  | EvInit supported => initVisualizer supported v
  | EvStart => startVisualizerLoop v
  | EvStop => stopVisualizerLoop v
  | EvFrame h => runFrame h v
  end.

Definition vis_run (es : list VisEvent) (v : Visualizer) : Visualizer :=
  foldl vis_step v es.

(** ** Consistency of the playback queue *)

(** The order is a permutation of the catalog indices, the cursor lies in
    it, and the current index, if set, is a catalog index. *)
Definition engine_ok (s : State) : Prop :=
  shuffledOrder s ≡ₚ JS.range (length (tracks s))
  /\ (0 < length (tracks s) -> orderIndex s < length (tracks s))
  /\ (forall c, currentTrackIndex s = Some c -> c < length (tracks s)).

(** The fields that the playback controls leave alone. *)
Definition same_library (s s' : State) : Prop :=
  tracks s' = tracks s
  /\ playlists s' = playlists s
  /\ activePlaylistId s' = activePlaylistId s
  /\ repeatMode s' = repeatMode s
  /\ isPlaying s' = isPlaying s
  /\ notificationsPrompted s' = notificationsPrompted s.

(** The fields that the playlist store leaves alone. *)
Definition same_playback (s s' : State) : Prop :=
  tracks s' = tracks s
  /\ shuffledOrder s' = shuffledOrder s
  /\ orderIndex s' = orderIndex s
  /\ currentTrackIndex s' = currentTrackIndex s
  /\ shuffleEnabled s' = shuffleEnabled s
  /\ repeatMode s' = repeatMode s
  /\ isPlaying s' = isPlaying s
  /\ notificationsPrompted s' = notificationsPrompted s.

(** One call after another, as long as nothing is thrown. *)
Definition and_then {A : Type} (o : Outcome A) (f : A -> Outcome A) : Outcome A :=
  match o with
  | Returned a => f a
  | Threw a => Threw a
  end.

(** The browser holds the callback of [rafId] and no other; handles given
    out are positive; without analyser no frame was ever requested. *)
Definition vis_ok (v : Visualizer) : Prop :=
  pending v = match rafId v with Some h => [h] | None => [] end
  /\ (forall h, rafId v = Some h -> 0 < h)
  /\ (vis_ready v = false -> rafId v = None).

(** * Properties *)

(** ** Rounding to binary64 *)

Lemma pow2_pos (e : Z) : (0 < 2 ^ e)%Q.
Proof. by apply Qpower_0_lt. Qed.

Lemma pow2_add (a b : Z) : (2 ^ (a + b) == 2 ^ a * 2 ^ b)%Q.
Proof. by apply Qpower_plus. Qed.

Lemma pow2_le (a b : Z) : (a <= b)%Z -> (2 ^ a <= 2 ^ b)%Q.
Proof. intros H. apply Qpower_le_compat_l; [exact H|done]. Qed.

Lemma pow2_lt_inv (a b : Z) : (2 ^ a < 2 ^ b)%Q -> (a < b)%Z.
Proof.
  intros H. destruct (Z.lt_ge_cases a b) as [|Hge]; [done|].
  apply pow2_le in Hge. lra.
Qed.

Lemma pow2_inject (a : Z) : (0 <= a)%Z -> (2 ^ a == inject_Z (2 ^ a))%Q.
Proof. intros H. by rewrite Zpower_Qpower. Qed.

(** [2^(a-b) * 2^b == 2^a]. *)
Lemma pow2_sub (a b : Z) : (2 ^ (a - b) * 2 ^ b == 2 ^ a)%Q.
Proof. rewrite <- pow2_add. by replace (a - b + b)%Z with a by lia. Qed.

Lemma binade_spec (x : Q) :
  (0 < x)%Q ->
  (2 ^ Double.binade x <= x)%Q /\ (x < 2 ^ (Double.binade x + 1))%Q.
Proof.
  intros Hx. destruct x as [a b].
  assert (Ha : (0 < a)%Z) by (unfold Qlt in Hx; simpl in Hx; lia).
  unfold Double.binade. cbn [Qnum Qden].
  set (la := Z.log2 a). set (lb := Z.log2 (Z.pos b)).
  destruct (Z.log2_spec a Ha) as [Ha1 Ha2]. fold la in Ha1, Ha2.
  destruct (Z.log2_spec (Z.pos b) ltac:(lia)) as [Hb1 Hb2]. fold lb in Hb1, Hb2.
  assert (Hla : (0 <= la)%Z) by apply Z.log2_nonneg.
  assert (Hlb : (0 <= lb)%Z) by apply Z.log2_nonneg.
  (* the bounds as rationals *)
  assert (Qa1 : (2 ^ la <= inject_Z a)%Q).
  { rewrite pow2_inject by done. by rewrite <- Zle_Qle. }
  assert (Qa2 : (inject_Z a < 2 ^ (la + 1))%Q).
  { rewrite pow2_inject by lia. by rewrite <- Zlt_Qlt. }
  assert (Qb1 : (2 ^ lb <= inject_Z (Z.pos b))%Q).
  { rewrite pow2_inject by done. by rewrite <- Zle_Qle. }
  assert (Qb2 : (inject_Z (Z.pos b) < 2 ^ (lb + 1))%Q).
  { rewrite pow2_inject by lia. by rewrite <- Zlt_Qlt. }
  assert (Hx' : (a # b) * inject_Z (Z.pos b) == inject_Z a).
  { unfold Qeq, Qmult, inject_Z; simpl. lia. }
  assert (Hbpos : (0 < inject_Z (Z.pos b))%Q).
  { replace 0%Q with (inject_Z 0) by done. rewrite <- Zlt_Qlt. lia. }
  pose proof (pow2_pos lb) as Plb.
  pose proof (pow2_pos (la - lb)) as Pe.
  pose proof (pow2_pos (la - lb - 1)) as Pe1.
  pose proof (pow2_sub la lb) as E0.
  pose proof (pow2_sub (la + 1) lb) as E1.
  replace (la + 1 - lb)%Z with (la - lb + 1)%Z in E1 by lia.
  pose proof (pow2_sub la (lb + 1)) as E2.
  replace (la - (lb + 1))%Z with (la - lb - 1)%Z in E2 by lia.
  destruct (Qle_bool (2 ^ (la - lb)) (a # b)) eqn:Htest.
  - apply Qle_bool_iff in Htest. split; [exact Htest|].
    (* x * b = a < 2^(la+1) = 2^(e0+1) * 2^lb <= 2^(e0+1) * b *)
    apply Qnot_le_lt. intros Hge.
    assert ((2 ^ (la - lb + 1) * inject_Z (Z.pos b) <= (a # b) * inject_Z (Z.pos b))%Q).
    { apply Qmult_le_compat_r; [done|lra]. }
    pose proof (pow2_pos (la - lb + 1)).
    assert ((2 ^ (la - lb + 1) * 2 ^ lb <= 2 ^ (la - lb + 1) * inject_Z (Z.pos b))%Q).
    { apply Qmult_le_l; done. }
    lra.
  - assert (Hlt : (a # b < 2 ^ (la - lb))%Q).
    { apply Qnot_le_lt. intros Hle. apply Qle_bool_iff in Hle. congruence. }
    replace (la - lb - 1 + 1)%Z with (la - lb)%Z by lia.
    split; [|exact Hlt].
    apply Qnot_lt_le. intros Hlt'.
    assert (((a # b) * inject_Z (Z.pos b) < 2 ^ (la - lb - 1) * inject_Z (Z.pos b))%Q).
    { apply Qmult_lt_compat_r; done. }
    assert ((2 ^ (la - lb - 1) * inject_Z (Z.pos b) <= 2 ^ (la - lb - 1) * 2 ^ (lb + 1))%Q).
    { apply Qmult_le_l; [done|lra]. }
    lra.
Qed.

Lemma round_half_even_cases (y : Q) :
  Double.round_half_even y = Qfloor y \/ Double.round_half_even y = (Qfloor y + 1)%Z.
Proof.
  unfold Double.round_half_even.
  destruct (_ ?= _)%Q; [destruct (Z.even _)| |]; auto.
Qed.

Lemma round_half_even_near (y : Q) :
  (y - (1 # 2) <= inject_Z (Double.round_half_even y))%Q
  /\ (inject_Z (Double.round_half_even y) <= y + (1 # 2))%Q.
Proof.
  pose proof (Qfloor_le y) as Hlo. pose proof (Qlt_floor y) as Hhi.
  rewrite inject_Z_plus in Hhi. change (inject_Z 1) with 1%Q in Hhi.
  unfold Double.round_half_even.
  destruct (y - inject_Z (Qfloor y) ?= 1 # 2)%Q eqn:Hc.
  - apply Qeq_alt in Hc.
    destruct (Z.even (Qfloor y));
      [|rewrite inject_Z_plus; change (inject_Z 1) with 1%Q]; split; lra.
  - apply Qlt_alt in Hc. split; lra.
  - apply Qgt_alt in Hc. rewrite inject_Z_plus. change (inject_Z 1) with 1%Q.
    split; lra.
Qed.

Lemma round_half_even_ge (y : Q) (z : Z) :
  (inject_Z z <= y)%Q -> (z <= Double.round_half_even y)%Z.
Proof.
  intros H.
  assert (z <= Qfloor y)%Z.
  { rewrite <- (Qfloor_Z z). by apply Qfloor_resp_le. }
  destruct (round_half_even_cases y); lia.
Qed.

Lemma round_half_even_le (y : Q) (z : Z) :
  (y <= inject_Z z)%Q -> (Double.round_half_even y <= z)%Z.
Proof.
  intros H.
  pose proof (Qfloor_le y) as Hlo.
  assert (Hf : (Qfloor y <= z)%Z) by (rewrite Zle_Qle; lra).
  unfold Double.round_half_even.
  destruct (y - inject_Z (Qfloor y) ?= 1 # 2)%Q eqn:Hc.
  - apply Qeq_alt in Hc.
    assert (Qfloor y < z)%Z.
    { rewrite Zlt_Qlt. lra. }
    destruct (Z.even _); lia.
  - done.
  - apply Qgt_alt in Hc.
    assert (Qfloor y < z)%Z.
    { rewrite Zlt_Qlt. lra. }
    lia.
Qed.

Lemma Qabs_nonneg_eq (x : Q) : (0 <= x)%Q -> Qabs x = x.
Proof.
  destruct x as [a b]. unfold Qle; simpl. intros H.
  f_equal. apply Z.abs_eq. lia.
Qed.

(** The last place of a number is at most [2^-52] times the number, or
    that of the subnormal numbers. *)
Lemma ulp_exponent_bound (x : Q) :
  (0 < x)%Q ->
  (2 ^ Double.ulp_exponent x <= x * 2 ^ (-52))%Q
  \/ Double.ulp_exponent x = (-1074)%Z.
Proof.
  intros Hx. unfold Double.ulp_exponent.
  rewrite Qabs_nonneg_eq by lra.
  destruct (Z.max_spec (Double.binade x - 52) (-1074)) as [[_ ->]|[_ ->]];
    [by right|left].
  destruct (binade_spec x Hx) as [Hlo _].
  replace (Double.binade x - 52)%Z with (Double.binade x + -52)%Z by lia.
  rewrite pow2_add.
  apply Qmult_le_compat_r; [done|]. pose proof (pow2_pos (-52)). lra.
Qed.

Lemma round64_eq (x : Q) :
  (Double.round64 x
   == inject_Z (Double.round_half_even (x / 2 ^ Double.ulp_exponent x))
      * 2 ^ Double.ulp_exponent x)%Q.
Proof. reflexivity. Qed.

(** The rounding error from above: relative [2^-53], or half the last
    place of the subnormal numbers. *)
Lemma round64_upper (x : Q) :
  (0 <= x)%Q ->
  (Double.round64 x <= x + x * 2 ^ (-53) + 2 ^ (-1075))%Q.
Proof.
  intros Hx0.
  pose proof (pow2_pos (-53)) as P53. pose proof (pow2_pos (-1075)) as P1075.
  set (u := Double.ulp_exponent x).
  pose proof (pow2_pos u) as Pu.
  destruct (round_half_even_near (x / 2 ^ u)) as [_ Hnear].
  assert (Hr : (Double.round64 x <= x + (1 # 2) * 2 ^ u)%Q).
  { rewrite round64_eq. fold u.
    apply Qle_trans with ((x / 2 ^ u + (1 # 2)) * 2 ^ u)%Q.
    - apply Qmult_le_compat_r; [exact Hnear|lra].
    - assert (E : (x / 2 ^ u * 2 ^ u == x)%Q).
      { unfold Qdiv. rewrite <- Qmult_assoc, (Qmult_comm (/ _)), Qmult_inv_r; [|lra].
        apply Qmult_1_r. }
      lra. }
  destruct (Qlt_le_dec 0 x) as [Hpos|Hzero].
  - destruct (ulp_exponent_bound x Hpos) as [Hb|Hb].
    + fold u in Hb.
      assert (E : (2 ^ (-53) == (1 # 2) * 2 ^ (-52))%Q) by reflexivity.
      assert (0 <= x * 2 ^ (-52))%Q by (apply Qmult_le_0_compat; [lra|]; pose proof (pow2_pos (-52)); lra).
      assert (Ex : (x * 2 ^ (-53) == (1 # 2) * (x * 2 ^ (-52)))%Q).
      { rewrite E. ring. }
      lra.
    + fold u in Hb. rewrite Hb in Hr.
      assert (E : (2 ^ (-1075) == (1 # 2) * 2 ^ (-1074))%Q) by reflexivity.
      assert (0 <= x * 2 ^ (-53))%Q by (apply Qmult_le_0_compat; lra).
      lra.
  - (* x is zero *)
    assert (Ex : (x == 0)%Q) by lra.
    assert (Hrz : (Double.round_half_even (x / 2 ^ u) <= 0)%Z).
    { apply round_half_even_le. rewrite Ex. unfold Qdiv. rewrite Qmult_0_l. done. }
    rewrite round64_eq. fold u.
    assert (inject_Z (Double.round_half_even (x / 2 ^ u)) <= 0)%Q.
    { replace 0%Q with (inject_Z 0) by done. by rewrite <- Zle_Qle. }
    assert (inject_Z (Double.round_half_even (x / 2 ^ u)) * 2 ^ u <= 0 * 2 ^ u)%Q.
    { apply Qmult_le_compat_r; [done|lra]. }
    assert (0 <= x * 2 ^ (-53))%Q by (apply Qmult_le_0_compat; lra).
    lra.
Qed.

(** Below [2^53] the last place is at most the unit, so the integers
    are doubles: rounding does not cross an integer. *)
Lemma ulp_exponent_small (x : Q) :
  (0 <= x)%Q -> (x < 2 ^ 53)%Q -> (Double.ulp_exponent x <= 0)%Z.
Proof.
  intros H0 H53. unfold Double.ulp_exponent.
  rewrite Qabs_nonneg_eq by done.
  assert (Double.binade x < 53)%Z; [|lia].
  destruct (Qlt_le_dec 0 x) as [Hpos|Hzero].
  - destruct (binade_spec x Hpos) as [Hlo _].
    apply pow2_lt_inv. by apply Qle_lt_trans with x.
  - destruct x as [a b].
    assert (a = 0%Z) as -> by (unfold Qle in *; simpl in *; lia).
    unfold Double.binade. cbn [Qnum Qden]. change (Z.log2 0) with 0%Z.
    pose proof (Z.log2_nonneg (Z.pos b)).
    destruct (Qle_bool _ _); lia.
Qed.

Lemma round64_ge_int (x : Q) (z : Z) :
  (0 <= x)%Q -> (x < 2 ^ 53)%Q ->
  (inject_Z z <= x)%Q -> (inject_Z z <= Double.round64 x)%Q.
Proof.
  intros H0 H53 Hz.
  pose proof (ulp_exponent_small x H0 H53) as Hu.
  rewrite round64_eq. set (u := Double.ulp_exponent x) in *.
  pose proof (pow2_pos u) as Pu. pose proof (pow2_pos (- u)) as Pnu.
  assert (Einv : (2 ^ (- u) * 2 ^ u == 1)%Q).
  { rewrite <- pow2_add. by replace (- u + u)%Z with 0%Z by lia. }
  assert (Eint : (2 ^ (- u) == inject_Z (2 ^ (- u)))%Q) by (apply pow2_inject; lia).
  assert (Hge : (z * 2 ^ (- u) <= Double.round_half_even (x / 2 ^ u))%Z).
  { apply round_half_even_ge. rewrite inject_Z_mult, <- Eint.
    apply Qle_shift_div_l; [done|].
    rewrite <- Qmult_assoc, Einv. lra. }
  rewrite Zle_Qle, inject_Z_mult, <- Eint in Hge.
  apply (Qmult_le_compat_r _ _ (2 ^ u)) in Hge; [|lra].
  rewrite <- Qmult_assoc, Einv in Hge. lra.
Qed.

Lemma round64_le_int (x : Q) (z : Z) :
  (0 <= x)%Q -> (x < 2 ^ 53)%Q ->
  (x <= inject_Z z)%Q -> (Double.round64 x <= inject_Z z)%Q.
Proof.
  intros H0 H53 Hz.
  pose proof (ulp_exponent_small x H0 H53) as Hu.
  rewrite round64_eq. set (u := Double.ulp_exponent x) in *.
  pose proof (pow2_pos u) as Pu. pose proof (pow2_pos (- u)) as Pnu.
  assert (Einv : (2 ^ (- u) * 2 ^ u == 1)%Q).
  { rewrite <- pow2_add. by replace (- u + u)%Z with 0%Z by lia. }
  assert (Eint : (2 ^ (- u) == inject_Z (2 ^ (- u)))%Q) by (apply pow2_inject; lia).
  assert (Hle : (Double.round_half_even (x / 2 ^ u) <= z * 2 ^ (- u))%Z).
  { apply round_half_even_le. rewrite inject_Z_mult, <- Eint.
    apply Qle_shift_div_r; [done|].
    rewrite <- Qmult_assoc, Einv. lra. }
  rewrite Zle_Qle, inject_Z_mult, <- Eint in Hle.
  apply (Qmult_le_compat_r _ _ (2 ^ u)) in Hle; [|lra].
  rewrite <- Qmult_assoc, Einv in Hle. lra.
Qed.

(** ** The shuffle *)

Lemma sample_bounds (r : unit_sample) :
  (0 <= r)%Q /\ (r <= 1 - 2 ^ (-53))%Q /\ (r < 1)%Q.
Proof.
  destruct r as [m e Hok]. unfold sample_val. cbn [significand exponent].
  apply andb_prop in Hok as [Hok Hm2]. apply andb_prop in Hok as [Hok Hm1].
  apply andb_prop in Hok as [He1 He2].
  apply Z.leb_le in He1, He2, Hm1. apply Z.ltb_lt in Hm2.
  pose proof (pow2_pos e) as Pe.
  assert (Hm0 : (0 <= inject_Z m)%Q).
  { replace 0%Q with (inject_Z 0) by done. by rewrite <- Zle_Qle. }
  assert (Hm53 : (inject_Z m <= 2 ^ 53 - 1)%Q).
  { assert (m <= 2 ^ 53 - 1)%Z as H by lia. rewrite Zle_Qle in H.
    eapply Qle_trans; [exact H|]. by vm_compute. }
  assert (He : (2 ^ e <= 2 ^ (-53))%Q) by (apply pow2_le; lia).
  assert (H1 : (inject_Z m * 2 ^ e <= (2 ^ 53 - 1) * 2 ^ e)%Q).
  { apply Qmult_le_compat_r; [done|lra]. }
  assert (H2 : ((2 ^ 53 - 1) * 2 ^ e <= (2 ^ 53 - 1) * 2 ^ (-53))%Q).
  { apply Qmult_le_l; [done|done]. }
  assert (0 <= inject_Z m * 2 ^ e)%Q by (apply Qmult_le_0_compat; lra).
  split; [done|]. split; lra.
Qed.

Lemma scale_pos (i : nat) : (1 <= inject_Z (Z.of_nat (i + 1)))%Q.
Proof. replace 1%Q with (inject_Z 1) by done. rewrite <- Zle_Qle. lia. Qed.

Lemma floor_scaled_le (r : unit_sample) (i : nat) : floor_scaled r i ≤ i.
Proof.
  unfold floor_scaled.
  destruct (sample_bounds r) as (H0 & H1 & _).
  pose proof (scale_pos i) as Hn.
  set (n := inject_Z (Z.of_nat (i + 1))) in *.
  set (x := (r * n)%Q).
  assert (Hx0 : (0 <= x)%Q) by (apply Qmult_le_0_compat; lra).
  assert (Hx1 : (x <= (1 - 2 ^ (-53)) * n)%Q).
  { apply Qmult_le_compat_r; [done|lra]. }
  pose proof (round64_upper x Hx0) as Hup.
  assert (Hlt : (Double.round64 x < n)%Q) by lra.
  assert (Hfl : (Qfloor (Double.round64 x) < Z.of_nat (i + 1))%Z).
  { rewrite Zlt_Qlt. eapply Qle_lt_trans; [apply Qfloor_le | exact Hlt]. }
  lia.
Qed.

Lemma swap_length {A} (a : list A) (i j : nat) : length (JS.swap a i j) = length a.
Proof.
  unfold JS.swap.
  destruct (a !! i), (a !! j); rewrite ?length_insert; reflexivity.
Qed.

Lemma swap_perm {A} (a : list A) (i j : nat) : JS.swap a i j ≡ₚ a.
Proof.
  unfold JS.swap.
  destruct (a !! i) as [x|] eqn:Hi; [|reflexivity].
  destruct (a !! j) as [y|] eqn:Hj; [|reflexivity].
  by apply Permutation_insert_swap.
Qed.

Lemma shuffle_loop_perm rnd (i : nat) : forall k a, shuffle_loop rnd k i a ≡ₚ a.
Proof.
  induction i as [|i IH]; intros k a; simpl.
  - reflexivity.
  - rewrite IH. apply swap_perm.
Qed.

Lemma shuffleArray_perm rnd (arr : list nat) : shuffleArray rnd arr ≡ₚ arr.
Proof. apply shuffle_loop_perm. Qed.

(** C1. [buildInitialShuffleOrder] makes [shuffledOrder] a permutation of
    the catalog indices [0 .. n-1]: it has length [n], holds no index twice,
    holds exactly the indices below [n]; and it puts [orderIndex] back to
    [0]. This holds for every catalog, the empty one included, and for every
    run of [Math.random]. *)
Theorem buildInitialShuffleOrder_permutation (rnd : nat -> unit_sample) (s : State) :
  let n := length (tracks s) in
  let s' := buildInitialShuffleOrder rnd s in
  shuffledOrder s' ≡ₚ seq 0 n
  /\ length (shuffledOrder s') = n
  /\ NoDup (shuffledOrder s')
  /\ (forall i, i ∈ shuffledOrder s' <-> i < n)
  /\ orderIndex s' = 0.
Proof.
  intros n s'.
  assert (Hp : shuffledOrder s' ≡ₚ seq 0 n) by apply shuffleArray_perm.
  split; [exact Hp|].
  split; [by rewrite Hp, length_seq|].
  split; [rewrite Hp; apply NoDup_seq|].
  split; [|reflexivity].
  intros i. rewrite Hp, elem_of_seq. lia.
Qed.

(** *** Every value of a draw comes from an interval of the same width *)

Lemma Qfloor_spec (x : Q) (z : Z) :
  Qfloor x = z <-> (inject_Z z <= x)%Q /\ (x < inject_Z (z + 1))%Q.
Proof.
  split.
  - intros <-. split; [apply Qfloor_le | apply Qlt_floor].
  - intros [Hlo Hhi].
    assert (H1 : (z <= Qfloor x)%Z).
    { rewrite <- (Qfloor_Z z). by apply Qfloor_resp_le. }
    assert (H2 : (Qfloor x < z + 1)%Z).
    { rewrite Zlt_Qlt. eapply Qle_lt_trans; [apply Qfloor_le | exact Hhi]. }
    lia.
Qed.

Lemma frac_scale (j : Z) (i : nat) :
  ((j # Pos.of_nat (i + 1)) * inject_Z (Z.of_nat (i + 1)) == inject_Z j)%Q.
Proof.
  unfold Qeq, Qmult, inject_Z; simpl.
  rewrite Pos.mul_1_r, !Z.mul_1_r.
  replace (Z.pos (Pos.of_nat (i + 1))) with (Z.of_nat (i + 1)) by lia.
  reflexivity.
Qed.

(** The values of [Math.random] that draw [j] at slot [i]: those from
    [j/(i+1)] to [(j+1)/(i+1)], but for the rounding of the product, which
    moves the ends of the interval down by at most a relative [2^-53]. *)
Lemma floor_scaled_interval (r : unit_sample) (i j : nat) :
  (Z.of_nat (i + 1) <= 2 ^ 53)%Z ->
  ((Z.of_nat j # Pos.of_nat (i + 1) <= r)%Q ->
   (r <= (1 - 2 ^ (-53)) * (Z.of_nat (j + 1) # Pos.of_nat (i + 1)))%Q ->
   floor_scaled r i = j)
  /\ (floor_scaled r i = j ->
      ((1 - 2 ^ (-53)) * (Z.of_nat j # Pos.of_nat (i + 1)) <= r)%Q
      /\ (r < Z.of_nat (j + 1) # Pos.of_nat (i + 1))%Q).
Proof.
  intros Hsize.
  destruct (sample_bounds r) as (H0 & H1 & H1').
  pose proof (scale_pos i) as Hn.
  pose proof (frac_scale (Z.of_nat j) i) as Ej.
  pose proof (frac_scale (Z.of_nat (j + 1)) i) as Ej1.
  assert (Hn53 : (inject_Z (Z.of_nat (i + 1)) <= 2 ^ 53)%Q).
  { rewrite Zle_Qle in Hsize. eapply Qle_trans; [exact Hsize|]. by vm_compute. }
  unfold floor_scaled.
  set (n := inject_Z (Z.of_nat (i + 1))) in *.
  set (x := (r * n)%Q).
  assert (Hx0 : (0 <= x)%Q) by (apply Qmult_le_0_compat; lra).
  assert (Hxn : (x < n)%Q).
  { apply Qlt_le_trans with (1 * n)%Q; [|lra]. apply Qmult_lt_compat_r; lra. }
  assert (Hx53 : (x < 2 ^ 53)%Q) by lra.
  pose proof (round64_upper x Hx0) as Hup.
  assert (HJ : (inject_Z (Z.of_nat (j + 1)) == inject_Z (Z.of_nat j) + 1)%Q).
  { rewrite Nat2Z.inj_add, inject_Z_plus. reflexivity. }
  assert (HJ0 : (0 <= inject_Z (Z.of_nat j))%Q).
  { replace 0%Q with (inject_Z 0) by done. rewrite <- Zle_Qle. lia. }
  split.
  - intros Hlo Hhi.
    assert (Hlo' : (inject_Z (Z.of_nat j) <= x)%Q).
    { rewrite <- Ej. apply Qmult_le_compat_r; [done|lra]. }
    assert (Hhi' : (x <= (1 - 2 ^ (-53)) * inject_Z (Z.of_nat (j + 1)))%Q).
    { rewrite <- Ej1, Qmult_assoc. apply Qmult_le_compat_r; [done|lra]. }
    pose proof (round64_ge_int x _ Hx0 Hx53 Hlo') as Hge.
    assert (Hfl : Qfloor (Double.round64 x) = Z.of_nat j).
    { apply Qfloor_spec. split; [done|].
      rewrite inject_Z_plus. change (inject_Z 1) with 1%Q. lra. }
    rewrite Hfl. lia.
  - intros Hj.
    assert (Hfl0 : (0 <= Qfloor (Double.round64 x))%Z).
    { rewrite <- (Qfloor_Z 0). apply Qfloor_resp_le.
      apply (round64_ge_int x 0 Hx0 Hx53). done. }
    assert (Hfl : Qfloor (Double.round64 x) = Z.of_nat j) by lia.
    apply Qfloor_spec in Hfl as [Hlo Hhi].
    rewrite inject_Z_plus in Hhi. change (inject_Z 1) with 1%Q in Hhi.
    assert (Hlo' : ((1 - 2 ^ (-53)) * inject_Z (Z.of_nat j) <= x)%Q).
    { destruct (decide (j = 0)) as [->|Hj0];
        [change (inject_Z (Z.of_nat 0)) with 0%Q; lra|].
      assert (1 <= inject_Z (Z.of_nat j))%Q.
      { replace 1%Q with (inject_Z 1) by done. rewrite <- Zle_Qle. lia. }
      lra. }
    assert (Hhi' : (x < inject_Z (Z.of_nat (j + 1)))%Q).
    { apply Qnot_le_lt. intros Hge.
      pose proof (round64_ge_int x _ Hx0 Hx53 Hge). lra. }
    split.
    + apply Qnot_lt_le. intros Hlt.
      assert ((r * n < (1 - 2 ^ (-53)) * (Z.of_nat j # Pos.of_nat (i + 1)) * n)%Q).
      { apply Qmult_lt_compat_r; [lra|done]. }
      rewrite <- Qmult_assoc, Ej in H. fold x in H. lra.
    + apply Qnot_le_lt. intros Hge.
      assert (((Z.of_nat (j + 1) # Pos.of_nat (i + 1)) * n <= r * n)%Q).
      { apply Qmult_le_compat_r; [done|lra]. }
      rewrite Ej1 in H. fold x in H. lra.
Qed.

Lemma grid_sample_val (m : Z) :
  (0 <= m < 2 ^ 53)%Z -> sample_val (grid_sample m) = (inject_Z m * 2 ^ (-53))%Q.
Proof.
  intros Hm. unfold grid_sample.
  destruct (Sumbool.sumbool_of_bool _) as [H|H]; [reflexivity|].
  exfalso. apply andb_false_iff in H as [H|H].
  - apply Z.leb_gt in H. lia.
  - apply Z.ltb_ge in H. lia.
Qed.

(** Every index up to [i] is drawn at slot [i] by some value of
    [Math.random]: the first multiple of [2^-53] from [j/(i+1)] on. *)
Lemma floor_scaled_reaches (i j : nat) :
  j ≤ i -> (Z.of_nat (i + 1) <= 2 ^ 52)%Z ->
  floor_scaled
    (grid_sample ((Z.of_nat j * 2 ^ 53 + Z.of_nat i) / Z.of_nat (i + 1))) i = j.
Proof.
  intros Hj Hsize.
  set (n := Z.of_nat (i + 1)) in *.
  set (m := ((Z.of_nat j * 2 ^ 53 + Z.of_nat i) / n)%Z).
  assert (Hn : (0 < n)%Z) by lia.
  pose proof (Z.mul_div_le (Z.of_nat j * 2 ^ 53 + Z.of_nat i) n Hn) as Hlo.
  pose proof (Z.mul_succ_div_gt (Z.of_nat j * 2 ^ 53 + Z.of_nat i) n Hn) as Hhi.
  fold m in Hlo, Hhi.
  assert (Hm : (0 <= m < 2 ^ 53)%Z).
  { split; [apply Z.div_pos; lia|].
    apply Z.div_lt_upper_bound; [lia|]. nia. }
  assert (Zlo : (Z.of_nat j * 2 ^ 53 <= m * n)%Z) by lia.
  assert (Zhi : (m * n <= (2 ^ 53 - 1) * Z.of_nat (j + 1))%Z) by lia.
  rewrite Zle_Qle, !inject_Z_mult in Zlo, Zhi.
  pose proof (frac_scale (Z.of_nat j) i) as Ej.
  pose proof (frac_scale (Z.of_nat (j + 1)) i) as Ej1.
  pose proof (scale_pos i) as Hn1. fold n in Ej, Ej1, Hn1.
  apply floor_scaled_interval; [unfold n in *; lia| |];
    rewrite (grid_sample_val m Hm).
  - apply Qnot_lt_le. intros Hlt.
    apply (Qmult_lt_compat_r _ _ (inject_Z n)) in Hlt; [|lra].
    rewrite Ej in Hlt.
    change (inject_Z (2 ^ 53)) with (2 ^ 53)%Q in Zlo. lra.
  - apply Qnot_lt_le. intros Hlt.
    apply (Qmult_lt_compat_r _ _ (inject_Z n)) in Hlt; [|lra].
    rewrite <- Qmult_assoc, Ej1 in Hlt.
    change (inject_Z (2 ^ 53 - 1)) with (2 ^ 53 - 1)%Q in Zhi. lra.
Qed.

(** A value of [Math.random] just below [4/7] whose product with [7] is
    rounded up to [4]: it draws [4], not [3]. *)
Example floor_scaled_rounds_up :
  let r := grid_sample 5146971002709138 in
  (r < 4 # 7)%Q /\ floor_scaled r 6 = 4.
Proof. split; vm_compute; reflexivity. Qed.

(** *** The shuffle as a bijection between runs of draws and permutations *)

Lemma shuffle_loop_ext rnd rnd' (i : nat) :
  forall k a, (forall m, k ≤ m -> rnd m = rnd' m) ->
    shuffle_loop rnd k i a = shuffle_loop rnd' k i a.
Proof.
  induction i as [|i IH]; intros k a Hext; simpl; [reflexivity|].
  rewrite (Hext k) by lia.
  apply IH. intros m Hm. apply Hext. lia.
Qed.

Lemma swap_lookup_above {A} (a : list A) (i j m : nat) :
  i < m -> j < m -> JS.swap a i j !! m = a !! m.
Proof.
  intros Hi Hj. unfold JS.swap.
  destruct (a !! i), (a !! j); try reflexivity.
  rewrite !list_lookup_insert_ne by lia. reflexivity.
Qed.

Lemma shuffle_loop_above rnd (i : nat) :
  forall k a m, i < m -> shuffle_loop rnd k i a !! m = a !! m.
Proof.
  induction i as [|i IH]; intros k a m Hm; simpl; [reflexivity|].
  rewrite IH by lia.
  apply swap_lookup_above; [lia|].
  pose proof (floor_scaled_le (rnd k) (S i)). lia.
Qed.

(** After the exchange, slot [i] holds what slot [j] held. *)
Lemma swap_lookup_target {A} (a : list A) (i j : nat) :
  i < length a -> j < length a -> JS.swap a i j !! i = a !! j.
Proof.
  intros Hi Hj. unfold JS.swap.
  destruct (a !! i) as [x|] eqn:Ei; [|by apply lookup_ge_None in Ei; lia].
  destruct (a !! j) as [y|] eqn:Ej; [|by apply lookup_ge_None in Ej; lia].
  destruct (decide (i = j)) as [->|Hne].
  - rewrite list_lookup_insert_eq by (rewrite length_insert; lia). congruence.
  - rewrite list_lookup_insert_ne by done.
    by rewrite list_lookup_insert_eq.
Qed.

Lemma swap_drop {A} (a : list A) (i j n : nat) :
  i < n -> j < n -> drop n (JS.swap a i j) = drop n a.
Proof.
  intros Hi Hj. unfold JS.swap.
  destruct (a !! i), (a !! j); try reflexivity.
  by rewrite !drop_insert_lt.
Qed.

Lemma swap_take_perm {A} (a : list A) (i j n : nat) :
  i < n -> j < n -> take n (JS.swap a i j) ≡ₚ take n a.
Proof.
  intros Hi Hj.
  apply (Permutation_app_inv_r (drop n a)).
  rewrite <- (swap_drop a i j n) at 1 by done.
  rewrite !take_drop. apply swap_perm.
Qed.

(** Every arrangement of the first [i + 1] slots is reached by some run. *)
Lemma shuffle_loop_reaches (i : nat) :
  (Z.of_nat (i + 1) <= 2 ^ 52)%Z ->
  forall k (a p : list nat),
    i < length a ->
    take (S i) p ≡ₚ take (S i) a ->
    drop (S i) p = drop (S i) a ->
    exists rnd, shuffle_loop rnd k i a = p.
Proof.
  induction i as [|i IH]; intros Hsize k a p Hlen Htake Hdrop.
  - exists (constant_source 0). simpl.
    rewrite <- (take_drop 1 p), <- (take_drop 1 a), Hdrop. f_equal.
    destruct a as [|x a]; [simpl in Hlen; lia|].
    destruct p as [|y p]; simpl in *.
    + by apply Permutation_nil_cons in Htake.
    + rewrite !take_0 in *. apply Permutation_singleton_inj in Htake. by subst.
  - assert (Hlenp : length p = length a).
    { apply Permutation_length in Htake.
      apply (f_equal length) in Hdrop.
      rewrite !length_take in Htake. rewrite !length_drop in Hdrop. lia. }
    destruct (lookup_lt_is_Some_2 p (S i)) as [x Hx]; [lia|].
    assert (Hin : x ∈ take (S (S i)) a).
    { rewrite <- Htake. apply elem_of_take. exists (S i). split; [done|lia]. }
    apply elem_of_take in Hin as (j & Hj & Hjlt).
    pose proof (lookup_lt_Some _ _ _ Hj) as Hjlen.
    set (a' := JS.swap a (S i) j).
    assert (Hx' : a' !! S i = Some x).
    { unfold a'. rewrite swap_lookup_target by lia. done. }
    assert (Hdrop' : drop (S (S i)) a' = drop (S (S i)) a).
    { apply swap_drop; lia. }
    destruct (IH ltac:(lia) (S k) a' p) as [rnd' Hrnd'].
    + unfold a'. rewrite swap_length. lia.
    + apply (Permutation_app_inv_r [x]).
      rewrite <- (take_S_r p (S i) x Hx), <- (take_S_r a' (S i) x Hx'), Htake.
      symmetry. apply swap_take_perm; lia.
    + rewrite (drop_S p x (S i) Hx), (drop_S a' x (S i) Hx'). congruence.
    + exists (fun m => if decide (m = k)
                       then grid_sample
                              ((Z.of_nat j * 2 ^ 53 + Z.of_nat (S i))
                               / Z.of_nat (S i + 1))
                       else rnd' m).
      cbn [shuffle_loop]. rewrite decide_True by done.
      rewrite floor_scaled_reaches by lia.
      fold a'. rewrite <- Hrnd'.
      apply shuffle_loop_ext. intros m Hm. rewrite decide_False by lia. done.
Qed.

(** Two runs with the same result made the same draws. *)
Lemma shuffle_loop_draws_unique rnd rnd' (i : nat) :
  forall k (a : list nat),
    NoDup a -> i < length a ->
    shuffle_loop rnd k i a = shuffle_loop rnd' k i a ->
    forall t, t < i ->
      floor_scaled (rnd (k + t)) (i - t) = floor_scaled (rnd' (k + t)) (i - t).
Proof.
  induction i as [|i IH]; intros k a Hnd Hlen Heq t Ht; [lia|].
  simpl in Heq.
  pose proof (floor_scaled_le (rnd k) (S i)) as Hj.
  pose proof (floor_scaled_le (rnd' k) (S i)) as Hj'.
  set (j := floor_scaled (rnd k) (S i)) in *.
  set (j' := floor_scaled (rnd' k) (S i)) in *.
  assert (Hjj : j = j').
  { apply (f_equal (fun l => l !! S i)) in Heq.
    rewrite !shuffle_loop_above in Heq by lia.
    rewrite !swap_lookup_target in Heq by lia.
    destruct (lookup_lt_is_Some_2 a j) as [x Hx]; [lia|].
    eapply NoDup_lookup; [exact Hnd | exact Hx | congruence]. }
  destruct t as [|t].
  - rewrite Nat.add_0_r, Nat.sub_0_r. exact Hjj.
  - replace (k + S t) with (S k + t) by lia.
    replace (S i - S t) with (i - t) by lia.
    apply (IH (S k) (JS.swap a (S i) j)).
    + rewrite swap_perm. exact Hnd.
    + rewrite swap_length. lia.
    + rewrite Heq. by rewrite Hjj.
    + lia.
Qed.

Lemma shuffledOrder_build rnd (s : State) :
  shuffledOrder (buildInitialShuffleOrder rnd s)
  = shuffleArray rnd (JS.range (length (tracks s))).
Proof. reflexivity. Qed.

Lemma shuffleArray_range_bijective (n : nat) (p : list nat) :
  (Z.of_nat n < 2 ^ 32)%Z ->
  p ≡ₚ JS.range n ->
  (exists rnd, shuffleArray rnd (JS.range n) = p)
  /\ (forall rnd rnd',
        shuffleArray rnd (JS.range n) = p ->
        shuffleArray rnd' (JS.range n) = p ->
        forall t, t < n - 1 ->
          floor_scaled (rnd t) (n - 1 - t) = floor_scaled (rnd' t) (n - 1 - t)).
Proof.
  intros Hsize Hp. unfold shuffleArray, JS.range in *. rewrite length_seq.
  split.
  - destruct (decide (n = 0)) as [->|Hn].
    + exists (constant_source 0). simpl in *.
      symmetry. by apply Permutation_nil_r.
    + apply shuffle_loop_reaches.
      * lia.
      * rewrite length_seq. lia.
      * replace (S (n - 1)) with n by lia.
        rewrite !firstn_all2; [done| |]; [rewrite length_seq|rewrite Hp, length_seq]; lia.
      * replace (S (n - 1)) with n by lia.
        rewrite !skipn_all2; [done| |]; [rewrite length_seq|rewrite Hp, length_seq]; lia.
  - intros rnd rnd' H1 H2 t Ht.
    pose proof (shuffle_loop_draws_unique rnd rnd' (n - 1) 0 (seq 0 n)) as Hu.
    simpl in Hu. apply Hu; [apply NoDup_seq|rewrite length_seq; lia|congruence|lia].
Qed.

(** C10, as the code has it. [buildInitialShuffleOrder] does not read
    [shuffleEnabled]: with the flag on or off it stores the Fisher-Yates
    shuffle of [0 .. n-1]. For a catalog of fewer than [2^32] tracks (the
    bound on the length of an array) every permutation [p] of the catalog
    indices is the result of some run of [Math.random], and any two runs
    with result [p] made the same draws [j] at every step. At the step for
    slot [i] the draw is [j] for the values of [Math.random] from [j/(i+1)]
    to [(j+1)/(i+1)], intervals of one width, but for the rounding of the
    product to a double, which moves the two ends of an interval down by at
    most a relative [2^-53]: a value from [j/(i+1)] to
    [(1 - 2^-53) (j+1)/(i+1)] draws [j], and a value that draws [j] lies
    from [(1 - 2^-53) j/(i+1)] to below [(j+1)/(i+1)]. The ends do move:
    some value below [4/7] draws [4] at slot [6]. *)
Theorem buildInitialShuffleOrder_unbiased (s : State) (p : list nat) :
  (Z.of_nat (length (tracks s)) < 2 ^ 32)%Z ->
  p ≡ₚ JS.range (length (tracks s)) ->
  (forall rnd b,
      shuffledOrder (buildInitialShuffleOrder rnd (set_shuffleEnabled b s))
      = shuffledOrder (buildInitialShuffleOrder rnd s))
  /\ (exists rnd, shuffledOrder (buildInitialShuffleOrder rnd s) = p)
  /\ (forall rnd rnd',
        shuffledOrder (buildInitialShuffleOrder rnd s) = p ->
        shuffledOrder (buildInitialShuffleOrder rnd' s) = p ->
        forall t, t < length (tracks s) - 1 ->
          floor_scaled (rnd t) (length (tracks s) - 1 - t)
          = floor_scaled (rnd' t) (length (tracks s) - 1 - t))
  /\ (forall (r : unit_sample) (i j : nat),
        i < length (tracks s) ->
        ((Z.of_nat j # Pos.of_nat (i + 1) <= r)%Q ->
         (r <= (1 - 2 ^ (-53)) * (Z.of_nat (j + 1) # Pos.of_nat (i + 1)))%Q ->
         floor_scaled r i = j)
        /\ (floor_scaled r i = j ->
            ((1 - 2 ^ (-53)) * (Z.of_nat j # Pos.of_nat (i + 1)) <= r)%Q
            /\ (r < Z.of_nat (j + 1) # Pos.of_nat (i + 1))%Q))
  /\ (exists r : unit_sample, (r < 4 # 7)%Q /\ floor_scaled r 6 = 4).
Proof.
  intros Hsize Hp.
  destruct (shuffleArray_range_bijective _ _ Hsize Hp) as [Hex Huniq].
  split; [reflexivity|].
  split; [exact Hex|].
  split; [exact Huniq|].
  split; [|eexists; apply floor_scaled_rounds_up].
  intros r i j Hi. apply floor_scaled_interval. lia.
Qed.

(** The theorem at a catalog of three tracks and the order [2; 0; 1]. *)
Lemma buildInitialShuffleOrder_unbiased_witness :
  exists rnd,
    shuffledOrder
      (buildInitialShuffleOrder rnd (demo_state (demo_catalog 3) true [] 0 None))
    = [2; 0; 1].
Proof.
  apply (buildInitialShuffleOrder_unbiased
           (demo_state (demo_catalog 3) true [] 0 None) [2; 0; 1]).
  - reflexivity.
  - simpl. apply (Permutation_cons_app [0; 1] [] 2). reflexivity.
Defined.

(** C10 as stated fails: with [shuffleEnabled] off and two tracks, a first
    draw of [0] gives the order [1; 0], not the identity order [0; 1]. *)
Lemma buildInitialShuffleOrder_identity_counterexample :
  let s := demo_state (demo_catalog 2) false [] 0 None in
  shuffleEnabled s = false
  /\ shuffledOrder (buildInitialShuffleOrder (constant_source 0) s) = [1; 0]
  /\ shuffledOrder (buildInitialShuffleOrder (constant_source 0) s)
     <> JS.range (length (tracks s)).
Proof. vm_compute. split; [reflexivity|]. split; [reflexivity|discriminate]. Qed.

(** ** Loops *)

Section While.
Context {St : Type} (cond : St -> bool) (body : St -> St).

Lemma while_more_fuel (fuel fuel' : nat) (st r : St) :
  JS.while fuel cond body st = Some r -> fuel ≤ fuel' ->
  JS.while fuel' cond body st = Some r.
Proof.
  revert fuel' st. induction fuel as [|fuel IH]; intros fuel' st H Hle.
  - discriminate.
  - destruct fuel' as [|fuel']; [lia|]. simpl in *.
    destruct (cond st); [|exact H]. apply IH; [exact H|lia].
Qed.

(** A loop that returns leaves with its condition false and with every
    invariant of its body. *)
Lemma while_invariant (P : St -> Prop) (fuel : nat) (st r : St) :
  (forall x, P x -> cond x = true -> P (body x)) ->
  P st -> JS.while fuel cond body st = Some r -> P r /\ cond r = false.
Proof.
  intros Hstep. revert st. induction fuel as [|fuel IH]; intros st HP H.
  - discriminate.
  - simpl in H. destruct (cond st) eqn:Hc.
    + apply (IH (body st)); [by apply Hstep|exact H].
    + injection H as <-. by split.
Qed.

(** A loop whose condition holds on an invariant of its body never leaves. *)
Lemma while_never_leaves (P : St -> Prop) (st : St) :
  (forall x, P x -> cond x = true /\ P (body x)) ->
  P st -> forall fuel, JS.while fuel cond body st = None.
Proof.
  intros Hstep HP fuel. revert st HP.
  induction fuel as [|fuel IH]; intros st HP; simpl; [reflexivity|].
  destruct (Hstep st HP) as [-> HP']. by apply IH.
Qed.

End While.

Lemma includes_true (l : list nat) (x : nat) : JS.includes l x = true <-> x ∈ l.
Proof. unfold JS.includes. apply bool_decide_eq_true. Qed.

Lemma includes_false (l : list nat) (x : nat) : JS.includes l x = false <-> x ∉ l.
Proof. unfold JS.includes. apply bool_decide_eq_false. Qed.

(** Fewer than [n] steps of a walk that wraps at [n] never come back. *)
Lemma wrap_distinct (n a t t' : nat) :
  t' < t -> t < n -> (a + t') mod n <> (a + t) mod n.
Proof.
  intros Ht' Ht Heq.
  assert (Hn : n <> 0) by lia.
  pose proof (Nat.div_mod_eq (a + t') n) as E1.
  pose proof (Nat.div_mod_eq (a + t) n) as E2.
  rewrite Heq in E1.
  assert (Hd : t - t' = n * ((a + t) / n) - n * ((a + t') / n)) by lia.
  assert (Hle : (a + t') / n ≤ (a + t) / n).
  { apply Nat.Div0.div_le_mono. lia. }
  assert (Hcases : (a + t) / n = (a + t') / n \/ (a + t') / n < (a + t) / n) by lia.
  destruct Hcases as [Hq|Hq]; [rewrite Hq in Hd; lia|].
  assert (n * ((a + t') / n) + n ≤ n * ((a + t) / n)) by nia.
  lia.
Qed.

Lemma count_up_S (n idx0 t : nat) :
  count_up n idx0 (S t) = count_up n idx0 t ++ [(idx0 + t) mod n].
Proof. unfold count_up. by rewrite seq_S, fmap_app. Qed.

Lemma count_up_fresh (n idx0 t : nat) :
  t < n -> (idx0 + t) mod n ∉ count_up n idx0 t.
Proof.
  intros Ht Hin. unfold count_up in Hin.
  apply list_elem_of_fmap in Hin as (t' & Heq & Hin).
  apply elem_of_seq in Hin.
  apply (wrap_distinct n idx0 t t'); [lia|lia|done].
Qed.

Lemma count_up_NoDup (n idx0 t : nat) : t ≤ n -> NoDup (count_up n idx0 t).
Proof.
  induction t as [|t IH]; intros Ht.
  - constructor.
  - rewrite count_up_S. apply NoDup_app. split; [apply IH; lia|].
    split; [|apply NoDup_singleton].
    intros x Hx ->%list_elem_of_singleton.
    revert Hx. apply count_up_fresh. lia.
Qed.

(** The loop of the branch without shuffle, from any point of its run. *)
Lemma sequential_loop_run (maxNext n idx0 : nat) :
  0 < n ->
  forall d t fuel,
    t + d = Nat.min maxNext (n - 1) -> d < fuel ->
    JS.while fuel (sequential_cond maxNext n) (sequential_body n)
      (count_up n idx0 t, (idx0 + t) mod n)
    = Some (count_up n idx0 (t + d), (idx0 + (t + d)) mod n).
Proof.
  intros Hn. induction d as [|d IH]; intros t fuel Ht Hfuel.
  - destruct fuel as [|fuel]; [lia|]. simpl.
    unfold sequential_cond at 1. simpl.
    unfold count_up at 1. rewrite length_fmap, length_seq.
    rewrite (proj2 (Nat.ltb_ge _ _)) by lia.
    by rewrite Nat.add_0_r.
  - destruct fuel as [|fuel]; [lia|]. simpl.
    unfold sequential_cond at 1. simpl.
    unfold count_up at 1. rewrite length_fmap, length_seq.
    rewrite (proj2 (Nat.ltb_lt _ _)) by lia.
    rewrite (proj2 (includes_false _ _)) by (apply count_up_fresh; lia).
    rewrite <- count_up_S.
    replace (((idx0 + t) mod n + 1) mod n) with ((idx0 + S t) mod n).
    + replace (t + S d) with (S t + d) by lia. apply IH; lia.
    + rewrite Nat.Div0.add_mod_idemp_l. f_equal. lia.
Qed.

Lemma upNextSequential_returns (maxNext fuel : nat) (s : State) :
  0 < length (tracks s) ->
  Nat.min maxNext (length (tracks s) - 1) < fuel ->
  upNextSequential maxNext fuel s
  = Some (count_up (length (tracks s))
            (match currentTrackIndex s with
             | None => 0
             | Some c => (c + 1) mod length (tracks s)
             end)
            (Nat.min maxNext (length (tracks s) - 1))).
Proof.
  intros Hn Hfuel. unfold upNextSequential.
  set (n := length (tracks s)) in *.
  set (idx0 := match currentTrackIndex s with
               | None => 0
               | Some c => (c + 1) mod n
               end).
  assert (Hidx : (idx0 + 0) mod n = idx0).
  { rewrite Nat.add_0_r. unfold idx0. destruct (currentTrackIndex s).
    - apply Nat.Div0.mod_mod.
    - apply Nat.mod_small. lia. }
  pose proof (sequential_loop_run maxNext n idx0 Hn
                (Nat.min maxNext (n - 1)) 0 fuel eq_refl Hfuel) as Hrun.
  rewrite Hidx in Hrun. change (count_up n idx0 0) with (@nil nat) in Hrun.
  rewrite Hrun. reflexivity.
Qed.

(** *** The branch with shuffle *)

Lemma walk_S (order : list nat) (start t : nat) :
  walk order start (S t)
  = walk order start t ++ [order !!! ((start + t) mod length order)].
Proof. unfold walk. by rewrite seq_S, fmap_app. Qed.

Lemma walk_length (order : list nat) (start t : nat) :
  length (walk order start t) = t.
Proof. unfold walk. by rewrite length_fmap, length_seq. Qed.

Lemma walk_lookup (order : list nat) (start count t : nat) :
  0 < length order -> t < count ->
  walk order start count !! t = order !! ((start + t) mod length order).
Proof.
  intros Hlen Ht. unfold walk.
  rewrite list_lookup_fmap, lookup_seq_lt by done. simpl.
  symmetry. apply list_lookup_lookup_total_lt.
  apply Nat.mod_upper_bound. lia.
Qed.

Lemma walk_fresh (order : list nat) (start t : nat) :
  NoDup order -> t < length order ->
  order !!! ((start + t) mod length order) ∉ walk order start t.
Proof.
  intros Hnd Ht Hin. unfold walk in Hin.
  apply list_elem_of_fmap in Hin as (t' & Heq & Hin).
  apply elem_of_seq in Hin.
  assert (Hb : forall u, (start + u) mod length order < length order).
  { intros u. apply Nat.mod_upper_bound. lia. }
  pose proof (list_lookup_lookup_total_lt order _ (Hb t)) as H1.
  pose proof (list_lookup_lookup_total_lt order _ (Hb t')) as H2.
  rewrite <- Heq in H2.
  apply (wrap_distinct (length order) start t t'); [lia|lia|].
  eapply NoDup_lookup; eauto.
Qed.

Lemma walk_NoDup (order : list nat) (start t : nat) :
  NoDup order -> t ≤ length order -> NoDup (walk order start t).
Proof.
  intros Hnd. induction t as [|t IH]; intros Ht.
  - constructor.
  - rewrite walk_S. apply NoDup_app. split; [apply IH; lia|].
    split; [|apply NoDup_singleton].
    intros x Hx ->%list_elem_of_singleton.
    revert Hx. apply walk_fresh; [done|lia].
Qed.

Lemma shuffled_loop_run (maxNext : nat) (order : list nat) (start0 : nat) :
  NoDup order -> 0 < length order -> maxNext ≤ length order ->
  forall d t fuel,
    t + d = maxNext -> d < fuel ->
    JS.while fuel (shuffled_cond maxNext order) (shuffled_body order)
      (walk order start0 t, start0 + t)
    = Some (walk order start0 maxNext, start0 + maxNext).
Proof.
  intros Hnd Hlen Hmax. induction d as [|d IH]; intros t fuel Ht Hfuel.
  - destruct fuel as [|fuel]; [lia|]. simpl.
    unfold shuffled_cond at 1. simpl. rewrite walk_length.
    rewrite (proj2 (Nat.ltb_ge _ _)) by lia. simpl.
    by replace t with maxNext by lia.
  - destruct fuel as [|fuel]; [lia|]. simpl.
    unfold shuffled_cond at 1. simpl. rewrite walk_length.
    rewrite (proj2 (Nat.ltb_lt t maxNext)) by lia.
    rewrite (proj2 (Nat.ltb_lt 0 (length order))) by lia. simpl.
    rewrite (list_lookup_lookup_total_lt order ((start0 + t) mod length order))
      by (apply Nat.mod_upper_bound; lia).
    rewrite (proj2 (includes_false _ _)) by (apply walk_fresh; [done|lia]).
    rewrite <- walk_S.
    replace (S (start0 + t)) with (start0 + S t) by lia.
    apply IH; lia.
Qed.

Lemma upNextShuffled_returns (maxNext fuel : nat) (s : State) :
  NoDup (shuffledOrder s) -> 0 < length (shuffledOrder s) ->
  maxNext ≤ length (shuffledOrder s) -> maxNext < fuel ->
  upNextShuffled maxNext fuel s
  = Some (walk (shuffledOrder s) (orderIndex s + 1) maxNext).
Proof.
  intros Hnd Hlen Hmax Hfuel. unfold upNextShuffled.
  pose proof (shuffled_loop_run maxNext (shuffledOrder s) (orderIndex s + 1)
                Hnd Hlen Hmax maxNext 0 fuel eq_refl Hfuel) as Hrun.
  rewrite Nat.add_0_r in Hrun.
  change (walk (shuffledOrder s) (orderIndex s + 1) 0) with (@nil nat) in Hrun.
  rewrite Hrun. reflexivity.
Qed.

Lemma shuffled_body_inv (maxNext : nat) (order : list nat) (st : list nat * nat) :
  shuffled_inv maxNext order st ->
  shuffled_cond maxNext order st = true ->
  shuffled_inv maxNext order (shuffled_body order st).
Proof.
  destruct st as [lst start]. unfold shuffled_inv, shuffled_cond. simpl.
  intros (Hnd & Hsub & Hlen) Hc.
  apply andb_prop in Hc as [Hc _]. apply Nat.ltb_lt in Hc.
  destruct (order !! (start mod length order)) as [idx|] eqn:Hidx; simpl; [|done].
  destruct (JS.includes lst idx) eqn:Hinc; simpl; [done|].
  apply includes_false in Hinc.
  split; [|split].
  - apply NoDup_app. split; [done|]. split; [|apply NoDup_singleton].
    intros x Hx ->%list_elem_of_singleton. done.
  - intros x [Hx| ->%list_elem_of_singleton]%elem_of_app; [by apply Hsub|].
    by eapply list_elem_of_lookup_2.
  - rewrite length_app. simpl. lia.
Qed.

Lemma remove_dups_length (l : list nat) : length (remove_dups l) ≤ length l.
Proof.
  induction l as [|x l IH]; simpl; [done|].
  destruct (decide_rel elem_of x l); simpl; lia.
Qed.

Lemma NoDup_subseteq_length (l k : list nat) :
  NoDup l -> l ⊆ k -> length l ≤ length (remove_dups k).
Proof.
  intros Hnd Hsub. apply submseteq_length, NoDup_submseteq; [done|].
  intros x Hx. apply elem_of_remove_dups. by apply Hsub.
Qed.

(** With fewer than [maxNext] different entries in a non-empty order, the
    loop of the shuffle branch never leaves. *)
Lemma upNextShuffled_never_returns (maxNext : nat) (s : State) :
  0 < length (shuffledOrder s) ->
  length (remove_dups (shuffledOrder s)) < maxNext ->
  forall fuel, upNextShuffled maxNext fuel s = None.
Proof.
  intros Hlen Hfew fuel. unfold upNextShuffled.
  rewrite (while_never_leaves _ _
             (fun st => NoDup st.1 /\ st.1 ⊆ shuffledOrder s)); [done| |].
  - intros st [Hnd Hsub]. split.
    + unfold shuffled_cond.
      pose proof (NoDup_subseteq_length _ _ Hnd Hsub).
      apply andb_true_intro. split; apply Nat.ltb_lt; lia.
    + assert (Hinv : shuffled_inv (S (length st.1)) (shuffledOrder s) st).
      { unfold shuffled_inv. repeat split; [done|done|lia]. }
      apply shuffled_body_inv in Hinv.
      * destruct Hinv as (? & ? & _). by split.
      * unfold shuffled_cond. apply andb_true_intro.
        split; apply Nat.ltb_lt; lia.
  - simpl. split; [constructor|]. intros x Hx. by apply elem_of_nil in Hx.
Qed.

Lemma build_order_length rnd (s : State) :
  length (shuffledOrder (buildInitialShuffleOrder rnd s)) = length (tracks s).
Proof.
  rewrite shuffledOrder_build, shuffleArray_perm. apply length_seq.
Qed.

(** With shuffle on and a non-empty order shorter than [maxNext], the
    up-next computation never returns. *)
Lemma upNextQueue_few_tracks_never_returns (maxNext : nat) (s : State) (fuel : nat) :
  shuffleEnabled s = true ->
  0 < length (shuffledOrder s) ->
  length (shuffledOrder s) < maxNext ->
  upNextQueue maxNext fuel s = None.
Proof.
  intros Hsh Hpos Hfew. unfold upNextQueue. rewrite Hsh.
  rewrite (proj2 (Nat.ltb_lt 0 _)) by done. simpl.
  apply upNextShuffled_never_returns; [done|].
  pose proof (remove_dups_length (shuffledOrder s)). lia.
Qed.

(** C5 fails on the code. With shuffle on (the initial setting) and a
    catalog of three tracks, the loop that builds the up-next list has not
    left after any number of steps, whatever order
    [buildInitialShuffleOrder] drew: the list stays at three entries and the
    loop waits for six. *)
Theorem upNextQueue_three_tracks_never_returns (rnd : nat -> unit_sample) (fuel : nat) :
  upNextQueue MAX_NEXT fuel
    (buildInitialShuffleOrder rnd (demo_state (demo_catalog 3) true [] 0 None))
  = None.
Proof.
  apply upNextQueue_few_tracks_never_returns; [reflexivity| |].
  - rewrite build_order_length. simpl. lia.
  - rewrite build_order_length. simpl. unfold MAX_NEXT. lia.
Qed.

(** The same on the way the catalog arrives: on a page with the up-next
    element, [fetchTracks] with three records does not return. *)
Lemma fetchTracks_three_tracks_never_returns (rnd : nat -> unit_sample) (fuel : nat) :
  fetchTracks true fuel rnd demo_raw_three state0 = None.
Proof.
  unfold fetchTracks.
  set (s1 := set_tracks (normalizeTracks demo_raw_three).1 state0).
  change (length (tracks s1) =? 0) with false. cbv iota.
  assert (H : renderUpNext true fuel (buildInitialShuffleOrder rnd s1) = None).
  { unfold renderUpNext.
    change (negb true || (length (tracks (buildInitialShuffleOrder rnd s1)) =? 0))
      with false. cbv iota.
    rewrite upNextQueue_few_tracks_never_returns; [done|reflexivity| |].
    - rewrite build_order_length. simpl. lia.
    - rewrite build_order_length. simpl. unfold MAX_NEXT. lia. }
  by rewrite H.
Qed.

Lemma upNextShuffled_result (maxNext fuel : nat) (s : State) (l : list nat) :
  upNextShuffled maxNext fuel s = Some l ->
  NoDup l /\ l ⊆ shuffledOrder s
  /\ length l ≤ maxNext
  /\ (0 < length (shuffledOrder s) -> length l = maxNext).
Proof.
  unfold upNextShuffled. intros H.
  destruct (JS.while _ _ _ _) as [[lst start]|] eqn:Hw; [|discriminate].
  injection H as <-.
  apply (while_invariant _ _ (shuffled_inv maxNext (shuffledOrder s))) in Hw
    as [(Hnd & Hsub & Hlen) Hc].
  - simpl in *. repeat split; try done.
    intros Hpos. unfold shuffled_cond in Hc. simpl in Hc.
    apply andb_false_iff in Hc as [Hc|Hc].
    + apply Nat.ltb_ge in Hc. lia.
    + apply Nat.ltb_ge in Hc. lia.
  - apply shuffled_body_inv.
  - unfold shuffled_inv. simpl. split; [constructor|]. split; [|lia].
    intros x Hx. by apply elem_of_nil in Hx.
Qed.

Lemma upNextSequential_result (maxNext fuel : nat) (s : State) (l : list nat) :
  upNextSequential maxNext fuel s = Some l ->
  NoDup l /\ length l ≤ maxNext.
Proof.
  unfold upNextSequential. intros H.
  destruct (JS.while _ _ _ _) as [[lst idx]|] eqn:Hw; [|discriminate].
  injection H as <-.
  apply (while_invariant _ _
           (fun st => NoDup st.1 /\ length st.1 ≤ maxNext)) in Hw
    as [[Hnd Hlen] _]; [done| |].
  - intros [lst' idx'] [Hnd Hlen] Hc. unfold sequential_cond in Hc.
    simpl in *. apply Nat.ltb_lt in Hc.
    destruct (JS.includes lst' idx') eqn:Hinc; simpl; [done|].
    apply includes_false in Hinc. split.
    + apply NoDup_app. split; [done|]. split; [|apply NoDup_singleton].
      intros x Hx ->%list_elem_of_singleton. done.
    + rewrite length_app. simpl. lia.
  - simpl. split; [constructor|lia].
Qed.

Lemma count_up_avoids (n c m : nat) :
  c < n -> m ≤ n - 1 -> c ∉ count_up n ((c + 1) mod n) m.
Proof.
  intros Hc Hm Hin. unfold count_up in Hin.
  apply list_elem_of_fmap in Hin as (t & Heq & Hin).
  apply elem_of_seq in Hin.
  rewrite Nat.Div0.add_mod_idemp_l in Heq.
  apply (wrap_distinct n c (1 + t) 0); [lia|lia|].
  rewrite Nat.add_0_r, Nat.mod_small by lia.
  rewrite Heq. f_equal. lia.
Qed.

Lemma walk_head_not_cursor (order : list nat) (oi count c : nat) :
  NoDup order -> 2 ≤ length order ->
  order !! oi = Some c -> head (walk order (oi + 1) count) <> Some c.
Proof.
  intros Hnd Hlen Hoi Hhead.
  destruct count as [|count]; [discriminate|].
  rewrite head_lookup, walk_lookup in Hhead by lia.
  pose proof (lookup_lt_Some _ _ _ Hoi) as Hlt.
  pose proof (NoDup_lookup _ _ _ _ Hnd Hhead Hoi) as Heq.
  rewrite Nat.add_0_r in Heq.
  destruct (decide (oi + 1 = length order)) as [E|E].
  - rewrite E, Nat.Div0.mod_same in Heq. lia.
  - rewrite Nat.mod_small in Heq by lia. lia.
Qed.

(** X26. For a non-empty catalog and any bound [maxNext]: a list that the
    up-next computation returns holds no index twice and at most [maxNext]
    entries (and the computation assigns nothing in [state]: it has no
    state to return). In the branch without shuffle it returns within
    [min maxNext (n-1) + 1] tests of its condition, and the current track,
    when it is a catalog index, is nowhere in the list. In the shuffle
    branch, when the order holds no index twice, has at least [maxNext] and
    at least two entries, it returns within [maxNext + 1] tests the entries
    that follow the cursor, and its first entry is not the current track
    provided the cursor's slot holds the current track. *)
Theorem upNextQueue_distinct_and_first (maxNext : nat) (s : State) :
  0 < length (tracks s) ->
  (forall fuel l, upNextQueue maxNext fuel s = Some l ->
     NoDup l /\ length l ≤ maxNext)
  /\ (shuffleEnabled s && (0 <? length (shuffledOrder s)) = false ->
      forall fuel, Nat.min maxNext (length (tracks s) - 1) < fuel ->
        exists l, upNextQueue maxNext fuel s = Some l
          /\ length l = Nat.min maxNext (length (tracks s) - 1)
          /\ forall c, currentTrackIndex s = Some c -> c < length (tracks s) ->
               c ∉ l)
  /\ (shuffleEnabled s = true -> NoDup (shuffledOrder s) ->
      maxNext ≤ length (shuffledOrder s) -> 2 ≤ length (shuffledOrder s) ->
      forall fuel, maxNext < fuel ->
        exists l, upNextQueue maxNext fuel s = Some l
          /\ l = walk (shuffledOrder s) (orderIndex s + 1) maxNext
          /\ forall c, currentTrackIndex s = Some c ->
               shuffledOrder s !! orderIndex s = Some c ->
               head l <> Some c).
Proof.
  intros Hn. split; [|split].
  - intros fuel l. unfold upNextQueue.
    destruct (shuffleEnabled s && _).
    + intros H. apply upNextShuffled_result in H as (? & _ & ? & _). by split.
    + apply upNextSequential_result.
  - intros Hbranch fuel Hfuel. unfold upNextQueue. rewrite Hbranch.
    rewrite upNextSequential_returns by done.
    eexists. split; [reflexivity|]. split.
    + unfold count_up. by rewrite length_fmap, length_seq.
    + intros c -> Hc. apply count_up_avoids; lia.
  - intros Hsh Hnd Hmax Hlen fuel Hfuel. unfold upNextQueue. rewrite Hsh.
    rewrite (proj2 (Nat.ltb_lt 0 _)) by lia. simpl.
    rewrite upNextShuffled_returns by (done || lia).
    eexists. split; [reflexivity|]. split; [reflexivity|].
    intros c _ Hcur. by apply walk_head_not_cursor.
Qed.

(** The theorem at eight shuffled tracks with the cursor on the current
    track: the list is [2; 7; 6; 5; 4; 3]. *)
Lemma upNextQueue_distinct_and_first_witness :
  0 < length (tracks demo_shuffled_state)
  /\ exists l, upNextQueue MAX_NEXT 7 demo_shuffled_state = Some l
       /\ l = [2; 7; 6; 5; 4; 3]
       /\ head l <> currentTrackIndex demo_shuffled_state.
Proof.
  assert (Hn : 0 < length (tracks demo_shuffled_state)) by (simpl; lia).
  split; [exact Hn|].
  destruct (upNextQueue_distinct_and_first MAX_NEXT demo_shuffled_state Hn)
    as (_ & _ & H).
  destruct (H eq_refl) with (fuel := 7) as (l & Hl & Hwalk & Hhead).
  - apply (bool_decide_unpack _). reflexivity.
  - simpl. unfold MAX_NEXT. lia.
  - simpl. lia.
  - unfold MAX_NEXT. lia.
  - exists l. split; [exact Hl|]. split; [exact Hwalk|].
    apply Hhead; reflexivity.
Defined.

(** C6. The code breaks the claim by a slip in [toggleShuffle]. On a page
    with the up-next element, six tracks are loaded, track 1 is started,
    shuffle is turned off and on again with draws that leave the order
    [0 .. 5]. [toggleShuffle] rebuilds the order, which puts the cursor on
    slot 0, and does not look for the current track in the new order as
    [playTrackFromIndex] does: track 1 stays current while the cursor's
    slot holds track 0, and the up-next list that it renders, which starts
    behind the cursor, has the current track as its first entry. *)
Theorem toggleShuffle_up_next_starts_with_current :
  exists s l,
    demo_session = Some s
    /\ 0 < length (tracks s)
    /\ currentTrackIndex s = Some 1
    /\ shuffledOrder s !! orderIndex s = Some 0
    /\ upNextQueue MAX_NEXT 7 s = Some l
    /\ head l = currentTrackIndex s.
Proof.
  eexists _, _. split; [vm_compute; reflexivity|].
  split; [simpl; lia|].
  split; [reflexivity|].
  split; [reflexivity|].
  split; [vm_compute; reflexivity|].
  reflexivity.
Qed.

(** ** Moving through the catalog *)

Section EngineFacts.
Variable upNextList : bool.

Lemma renderUpNext_empty (fuel : nat) (s : State) :
  tracks s = [] -> renderUpNext upNextList fuel s = Some tt.
Proof.
  intros H. unfold renderUpNext. rewrite H. simpl.
  by rewrite orb_true_r.
Qed.

Lemma renderUpNext_sequential (fuel : nat) (s : State) :
  shuffleEnabled s && (0 <? length (shuffledOrder s)) = false ->
  Nat.min MAX_NEXT (length (tracks s) - 1) < fuel ->
  renderUpNext upNextList fuel s = Some tt.
Proof.
  intros Hbranch Hfuel. unfold renderUpNext.
  destruct (negb upNextList || (length (tracks s) =? 0)) eqn:Hguard; [done|].
  apply orb_false_iff in Hguard as [_ Hn]. apply Nat.eqb_neq in Hn.
  unfold upNextQueue. rewrite Hbranch.
  rewrite upNextSequential_returns by (done || lia). done.
Qed.

Lemma loadTrackByIndex_loads (fuel index : nat) (s : State) (t : Track) :
  tracks s !! index = Some t -> has_source t = true ->
  renderUpNext upNextList fuel (set_currentTrackIndex (Some index) s) = Some tt ->
  loadTrackByIndex upNextList fuel index s
  = Some (set_currentTrackIndex (Some index) s).
Proof.
  intros Ht Hsrc Hrender. unfold loadTrackByIndex.
  pose proof (lookup_lt_Some _ _ _ Ht) as Hlt.
  rewrite (proj2 (Nat.leb_gt _ _)) by lia.
  rewrite Ht. unfold has_source in Hsrc.
  apply andb_prop in Hsrc as [H1 H2].
  rewrite H1. apply negb_true_iff in H2. rewrite H2. simpl.
  by rewrite Hrender.
Qed.

Lemma loadTrackByIndex_refuses (fuel index : nat) (s : State) (t : Track) :
  tracks s !! index = Some t -> has_source t = false ->
  loadTrackByIndex upNextList fuel index s = Some s.
Proof.
  intros Ht Hsrc. unfold loadTrackByIndex.
  pose proof (lookup_lt_Some _ _ _ Ht) as Hlt.
  rewrite (proj2 (Nat.leb_gt _ _)) by lia.
  rewrite Ht. unfold has_source in Hsrc.
  apply andb_false_iff in Hsrc as [H|H].
  - by rewrite H.
  - apply negb_false_iff in H. rewrite H. by rewrite orb_true_r.
Qed.

(** The two tests of [skipTrack] on [newIndex] compute a remainder. *)
Lemma skip_index_wraps (n c : nat) (direction : Z) :
  c < n -> (direction = 1 \/ direction = -1)%Z ->
  Z.to_nat
    (if (Z.of_nat n <=?
         (if (Z.of_nat c + direction <? 0)%Z then (Z.of_nat n - 1)%Z
          else (Z.of_nat c + direction)%Z))%Z
     then 0%Z
     else if (Z.of_nat c + direction <? 0)%Z then (Z.of_nat n - 1)%Z
          else (Z.of_nat c + direction)%Z)
  = Z.to_nat ((Z.of_nat c + direction) mod Z.of_nat n).
Proof.
  intros Hc Hdir.
  assert (Hneg : ((-1) mod Z.of_nat n = Z.of_nat n - 1)%Z).
  { symmetry. apply (Z.mod_unique _ _ (-1)); lia. }
  destruct Hdir as [-> | ->].
  - rewrite (proj2 (Z.ltb_ge _ _)) by lia.
    destruct (Z.leb_spec (Z.of_nat n) (Z.of_nat c + 1)).
    + replace (Z.of_nat c + 1)%Z with (Z.of_nat n) by lia.
      by rewrite Z.mod_same by lia.
    + by rewrite Z.mod_small by lia.
  - destruct (Z.ltb_spec (Z.of_nat c + -1) 0).
    + rewrite (proj2 (Z.leb_gt _ _)) by lia.
      replace (Z.of_nat c + -1)%Z with (-1)%Z by lia.
      by rewrite Hneg.
    + rewrite (proj2 (Z.leb_gt _ _)) by lia.
      by rewrite Z.mod_small by lia.
Qed.

(** C2, as the code has it. With shuffle off, a step of [+1] or [-1] from a
    current index [c] of a catalog of [n] tracks goes to the index
    [(c + direction) mod n]. (An unset current index counts as 0.) If
    [loadTrackByIndex] accepts the track there (its source, trimmed, is
    neither empty nor the text [undefined]) that index becomes the current
    one and nothing else changes; if it refuses the track, the current
    index stays as it was, like the rest of the state. The call returns
    once the up-next loop has had [min MAX_NEXT (n-1) + 1] tests. *)
Theorem skipTrack_sequential_walk (fuel : nat) (rnd : nat -> unit_sample)
    (direction : Z) (s : State) (t : Track) :
  let n := length (tracks s) in
  let c := default 0 (currentTrackIndex s) in
  let target := Z.to_nat ((Z.of_nat c + direction) mod Z.of_nat n) in
  shuffleEnabled s = false ->
  (direction = 1 \/ direction = -1)%Z ->
  c < n ->
  tracks s !! target = Some t ->
  Nat.min MAX_NEXT (n - 1) < fuel ->
  skipTrack upNextList fuel rnd direction s
  = Some (if has_source t then set_currentTrackIndex (Some target) s else s)
  /\ (c = n - 1 -> direction = 1%Z -> target = 0)
  /\ (c = 0 -> direction = (-1)%Z -> target = n - 1).
Proof.
  intros n c target Hsh Hdir Hc Ht Hfuel.
  assert (Hneg : ((-1) mod Z.of_nat n = Z.of_nat n - 1)%Z).
  { symmetry. apply (Z.mod_unique _ _ (-1)); lia. }
  assert (Hwrap : (c = n - 1 -> direction = 1%Z -> target = 0)
                  /\ (c = 0 -> direction = (-1)%Z -> target = n - 1)).
  { unfold target. split; intros Ec Ed; rewrite Ec, Ed.
    - replace (Z.of_nat (n - 1) + 1)%Z with (Z.of_nat n) by lia.
      by rewrite Z.mod_same by lia.
    - replace (Z.of_nat 0 + -1)%Z with (-1)%Z by lia.
      rewrite Hneg. lia. }
  split; [|exact Hwrap].
  unfold skipTrack. fold n.
  rewrite (proj2 (Nat.eqb_neq n 0)) by lia.
  rewrite Hsh. simpl. fold c.
  rewrite (skip_index_wraps n c direction Hc Hdir). fold target.
  destruct (has_source t) eqn:Hsrc.
  - apply (loadTrackByIndex_loads _ _ _ t); [done|done|].
    apply renderUpNext_sequential; [|exact Hfuel].
    simpl. by rewrite Hsh.
  - by apply (loadTrackByIndex_refuses _ _ _ t).
Qed.

End EngineFacts.

(** The theorem at five tracks with track 3 current: a step forward makes
    track 4 current, a further step forward wraps to track 0. And at the
    two tracks of which the first has the text [undefined] as its source: a
    step forward from track 1 leaves track 1 current. *)
Lemma skipTrack_sequential_walk_witness :
  skipTrack true 7 high_source 1 demo_sequential_state
  = Some (set_currentTrackIndex (Some 4) demo_sequential_state)
  /\ skipTrack true 7 high_source 1
       (set_currentTrackIndex (Some 4) demo_sequential_state)
     = Some (set_currentTrackIndex (Some 0) demo_sequential_state)
  /\ skipTrack true 7 high_source 1 demo_undefined_state
     = Some demo_undefined_state.
Proof.
  split; [|split].
  - apply (skipTrack_sequential_walk true 7 high_source 1 demo_sequential_state
             (demo_track "http://x/a.mp3"));
      [reflexivity | by left | simpl; lia | reflexivity
      | simpl; unfold MAX_NEXT; lia].
  - apply (skipTrack_sequential_walk true 7 high_source 1
             (set_currentTrackIndex (Some 4) demo_sequential_state)
             (demo_track "http://x/a.mp3"));
      [reflexivity | by left | simpl; lia | reflexivity
      | simpl; unfold MAX_NEXT; lia].
  - destruct (skipTrack_sequential_walk true 7 high_source 1
                demo_undefined_state
                (default (demo_track "") (tracks demo_undefined_state !! 0)))
      as [H _];
      [reflexivity | by left | simpl; lia | reflexivity
      | simpl; unfold MAX_NEXT; lia | exact H].
Defined.

(** C2 as stated fails. The catalog normalized from two records, the first
    with the text [undefined] as its link, has two tracks; with shuffle off
    and track 1 (the last) current, a step forward leaves track 1 current
    instead of wrapping to track 0, because [loadTrackByIndex] refuses
    track 0. *)
Lemma skipTrack_undefined_source_counterexample :
  length (tracks demo_undefined_state) = 2
  /\ shuffleEnabled demo_undefined_state = false
  /\ currentTrackIndex demo_undefined_state = Some 1
  /\ skipTrack true 7 high_source 1 demo_undefined_state
     = Some demo_undefined_state
  /\ (currentTrackIndex <$> skipTrack true 7 high_source 1 demo_undefined_state)
     <> Some (Some 0).
Proof.
  split; [reflexivity|]. split; [reflexivity|]. split; [reflexivity|].
  split; [vm_compute; reflexivity|].
  vm_compute. discriminate.
Qed.

(** ** The empty catalog *)

(** C3, as the code has it. On an empty catalog [skipTrack] and
    [playTrackFromIndex] return at once and leave the state as it is.
    [toggleShuffle] returns too, with [shuffleEnabled] turned over; turning
    it on also stores the empty order and the cursor 0. Nothing else
    changes. *)
Theorem empty_catalog_operations (upNextList : bool) (fuel : nat)
    (rnd : nat -> unit_sample) (direction : Z) (index : nat) (s : State) :
  tracks s = [] ->
  skipTrack upNextList fuel rnd direction s = Some s
  /\ playTrackFromIndex upNextList fuel rnd index s = Some s
  /\ toggleShuffle upNextList fuel rnd s
     = Some (if shuffleEnabled s then set_shuffleEnabled false s
             else set_order [] 0 (set_shuffleEnabled true s)).
Proof.
  intros Hempty. split; [|split].
  - unfold skipTrack. by rewrite Hempty.
  - unfold playTrackFromIndex. by rewrite Hempty.
  - unfold toggleShuffle.
    destruct (shuffleEnabled s) eqn:Hsh; simpl.
    + by rewrite renderUpNext_empty.
    + rewrite renderUpNext_empty by done.
      unfold buildInitialShuffleOrder. simpl. by rewrite Hempty.
Qed.

(** The theorem at the initial state, before any catalog is loaded. *)
Lemma empty_catalog_operations_witness :
  skipTrack true 1 high_source 1 state0 = Some state0
  /\ playTrackFromIndex true 1 high_source 0 state0 = Some state0
  /\ toggleShuffle true 1 high_source state0
     = Some (set_shuffleEnabled false state0).
Proof.
  apply (empty_catalog_operations true 1 high_source 1 0 state0). reflexivity.
Defined.

(** C3 as stated fails: on the initial state, where the catalog is empty,
    [toggleShuffle] returns a state with [shuffleEnabled] off, which is not
    the state it was given. *)
Lemma toggleShuffle_empty_counterexample :
  tracks state0 = []
  /\ toggleShuffle true 1 high_source state0 <> Some state0
  /\ (shuffleEnabled <$> toggleShuffle true 1 high_source state0) = Some false
  /\ shuffleEnabled state0 = true.
Proof.
  split; [reflexivity|]. split; [vm_compute; discriminate|].
  split; reflexivity.
Qed.

(** ** Normalizing the catalog *)

Lemma or_chain_first_present (a b : option string) :
  JS.or_default (JS.or_else a b) "" = first_present a b.
Proof.
  unfold JS.or_default, JS.or_else, first_present, JS.truthy.
  destruct a as [x|]; simpl.
  - destruct (String.eqb x "") eqn:Ex; simpl.
    + destruct b as [y|]; simpl; [|done].
      destruct (String.eqb y "") eqn:Ey; simpl; [|done].
      apply String.eqb_eq in Ey. by subst.
    + by rewrite Ex.
  - destruct b as [y|]; simpl; [|done].
    destruct (String.eqb y "") eqn:Ey; simpl; [|done].
    apply String.eqb_eq in Ey. by subst.
Qed.

Lemma truthy_false (x : string) : JS.truthy x = false <-> x = "".
Proof.
  unfold JS.truthy. rewrite negb_false_iff. apply String.eqb_eq.
Qed.

Lemma normalizeRecord_skips (t : RawTrack) (idx : nat) :
  normalizeRecord t idx = None <-> rawSource t = "".
Proof.
  unfold normalizeRecord, rawSource. rewrite or_chain_first_present.
  destruct (JS.truthy _) eqn:Htr; simpl.
  - split; [discriminate|]. intros H. apply truthy_false in H. congruence.
  - split; [|done]. intros _. by apply truthy_false.
Qed.

Lemma normalizeRecord_pushes (t : RawTrack) (idx : nat) (tr : Track) :
  normalizeRecord t idx = Some tr ->
  src tr = rawSource t /\ url tr = rawSource t /\ link tr = rawSource t
  /\ rawSource t <> "".
Proof.
  intros H.
  assert (Hne : rawSource t <> "").
  { intros E. apply (normalizeRecord_skips t idx) in E. congruence. }
  unfold normalizeRecord, rawSource in *. rewrite or_chain_first_present in H.
  destruct (JS.truthy _); simpl in H; [|discriminate].
  injection H as <-. simpl. done.
Qed.

Lemma normalize_from_spec (raw : list RawTrack) :
  forall idx normalized skipped,
    let r := normalize_from raw idx normalized skipped in
    src <$> r.1
    = (src <$> normalized) ++ filter (fun u => u <> "") (rawSource <$> raw)
    /\ r.2 = skipped + length (filter (fun u => u = "") (rawSource <$> raw))
    /\ (Forall (fun tr => src tr <> "" /\ url tr = src tr /\ link tr = src tr)
          normalized ->
        Forall (fun tr => src tr <> "" /\ url tr = src tr /\ link tr = src tr)
          r.1).
Proof.
  induction raw as [|t raw IH]; intros idx normalized skipped.
  - simpl. rewrite app_nil_r. split; [done|]. split; [lia|done].
  - cbn [normalize_from]. rewrite fmap_cons.
    destruct (normalizeRecord t idx) as [tr|] eqn:Hrec.
    + apply normalizeRecord_pushes in Hrec as (Hs & Hu & Hl & Hne).
      destruct (IH (S idx) (normalized ++ [tr]) skipped) as (H1 & H2 & H3).
      rewrite filter_cons_True by done.
      rewrite (filter_cons_False (fun u => u = "")) by done.
      split; [|split].
      * rewrite H1, fmap_app. simpl. rewrite Hs, <- app_assoc. done.
      * exact H2.
      * intros Hall. apply H3. apply Forall_app. split; [done|].
        apply Forall_singleton. rewrite Hs. split; [done|]. by split.
    + apply normalizeRecord_skips in Hrec.
      destruct (IH (S idx) normalized (S skipped)) as (H1 & H2 & H3).
      rewrite filter_cons_False by (intros Hne; by apply Hne).
      rewrite (filter_cons_True (fun u => u = "")) by done.
      split; [exact H1|]. split; [|exact H3].
      rewrite H2. cbn [length]. lia.
Qed.

(** C4. Normalizing the two records [{title: A, link: http://x/a.mp3}] and
    [{title: B}] gives a catalog of one track and a skip count of 1. For
    every list of raw records: the sources of the catalog are, in order, the
    non-empty sources of the records, a source being the [url] field, else
    the [link] field, trimmed; the skip count is the number of records with
    an empty source; so every record is either in the catalog or counted,
    and no track of the catalog has an empty source. The function is total:
    no record makes it fail. *)
Theorem normalizeTracks_skips_sourceless (raw : list RawTrack) :
  (exists tr,
      normalizeTracks [raw_titled "A" (Some "http://x/a.mp3"); raw_titled "B" None]
      = ([tr], 1)
      /\ title tr = "A" /\ src tr = "http://x/a.mp3")
  /\ src <$> (normalizeTracks raw).1
     = filter (fun u => u <> "") (rawSource <$> raw)
  /\ (normalizeTracks raw).2
     = length (filter (fun u => u = "") (rawSource <$> raw))
  /\ length (normalizeTracks raw).1 + (normalizeTracks raw).2 = length raw
  /\ Forall (fun tr => src tr <> "" /\ url tr = src tr /\ link tr = src tr)
       (normalizeTracks raw).1.
Proof.
  split; [eexists; split; [vm_compute; reflexivity|by split]|].
  destruct (normalize_from_spec raw 0 [] 0) as (H1 & H2 & H3).
  fold (normalizeTracks raw) in *. simpl in H1, H2.
  split; [exact H1|]. split; [exact H2|]. split; [|apply H3; constructor].
  rewrite H2. apply (f_equal length) in H1.
  rewrite length_fmap in H1. rewrite H1.
  rewrite <- (length_fmap rawSource raw).
  generalize (rawSource <$> raw). intros l.
  induction l as [|u l IHl]; [done|].
  destruct (decide (u = "")) as [E|E].
  - rewrite filter_cons_False by (intros Hne; by apply Hne).
    rewrite (filter_cons_True (fun u => u = "")) by done. simpl. lia.
  - rewrite filter_cons_True by done.
    rewrite (filter_cons_False (fun u => u = "")) by done. simpl. lia.
Qed.

(** ** Objects used as maps *)

Section ObjFacts.
Context {V : Type}.
Implicit Types (o : list (string * V)) (k : string) (v : V).

Lemma get_set_eq k v o : Obj.get k (Obj.set k v o) = Some v.
Proof.
  induction o as [|[k' v'] o IH]; simpl.
  - by rewrite String.eqb_refl.
  - destruct (String.eqb k' k) eqn:E; simpl.
    + by rewrite String.eqb_refl.
    + by rewrite E.
Qed.

Lemma get_set_ne k k' v o : k <> k' -> Obj.get k' (Obj.set k v o) = Obj.get k' o.
Proof.
  intros Hne. induction o as [|[k0 v0] o IH]; simpl.
  - by rewrite (proj2 (String.eqb_neq _ _) Hne).
  - destruct (String.eqb k0 k) eqn:E; simpl.
    + apply String.eqb_eq in E. subst k0.
      by rewrite (proj2 (String.eqb_neq _ _) Hne).
    + destruct (String.eqb k0 k'); [done|exact IH].
Qed.

Lemma set_keys_present k v o :
  is_Some (Obj.get k o) -> (Obj.set k v o).*1 = o.*1.
Proof.
  induction o as [|[k0 v0] o IH]; simpl; intros [x Hx]; [discriminate|].
  destruct (String.eqb k0 k) eqn:E; simpl.
  - apply String.eqb_eq in E. by subst.
  - f_equal. apply IH. eauto.
Qed.

Lemma set_set k v v' o : Obj.set k v (Obj.set k v' o) = Obj.set k v o.
Proof.
  induction o as [|[k0 v0] o IH]; simpl.
  - by rewrite String.eqb_refl.
  - destruct (String.eqb k0 k) eqn:E; simpl.
    + by rewrite String.eqb_refl.
    + rewrite E. by f_equal.
Qed.

Lemma set_get_id k v o : Obj.get k o = Some v -> Obj.set k v o = o.
Proof.
  induction o as [|[k0 v0] o IH]; simpl; [discriminate|].
  destruct (String.eqb k0 k) eqn:E.
  - apply String.eqb_eq in E. intros [= ->]. by subst.
  - intros H. f_equal. by apply IH.
Qed.

Lemma get_Some_elem k v o : Obj.get k o = Some v -> (k, v) ∈ o.
Proof.
  induction o as [|[k0 v0] o IH]; simpl; [discriminate|].
  destruct (String.eqb k0 k) eqn:E.
  - apply String.eqb_eq in E. intros [= ->]. subst. left.
  - intros H. right. by apply IH.
Qed.

Lemma get_is_Some k o : is_Some (Obj.get k o) <-> k ∈ o.*1.
Proof.
  induction o as [|[k0 v0] o IH]; simpl.
  - split; [intros [? ?]; discriminate|intros H; by apply elem_of_nil in H].
  - destruct (String.eqb k0 k) eqn:E.
    + apply String.eqb_eq in E. subst. split; [left|eauto].
    + apply String.eqb_neq in E. rewrite IH. split; [by right|].
      intros [?|?]%elem_of_cons; [congruence|done].
Qed.

Lemma set_Forall (P : string * V -> Prop) k v o :
  Forall P o -> P (k, v) -> Forall P (Obj.set k v o).
Proof.
  intros Ho Hk. induction Ho as [|[k0 v0] o H0 Ho IH]; simpl.
  - by apply Forall_singleton.
  - destruct (String.eqb k0 k); constructor; done.
Qed.

End ObjFacts.

Lemma key_order_elem (ks : list string) (k : string) :
  k ∈ Obj.key_order ks <-> k ∈ ks.
Proof.
  unfold Obj.key_order. rewrite elem_of_app, list_elem_of_fmap, list_elem_of_filter.
  split.
  - intros [([n k'] & -> & Hin)|[_ Hin]]; [|done].
    rewrite merge_sort_Permutation in Hin.
    apply list_elem_of_omap in Hin as (k0 & Hk0 & Hf).
    destruct (Obj.array_index k0); simpl in Hf; [|discriminate].
    injection Hf as _ <-. done.
  - intros Hin. destruct (Obj.array_index k) as [n|] eqn:E.
    + left. exists (n, k). split; [done|].
      rewrite merge_sort_Permutation. apply list_elem_of_omap.
      exists k. split; [done|]. by rewrite E.
    + right. by split.
Qed.

Lemma key_order_singleton (k : string) : Obj.key_order [k] = [k].
Proof.
  unfold Obj.key_order. simpl.
  destruct (Obj.array_index k) eqn:E; simpl.
  - rewrite filter_cons_False by (rewrite E; by intros ?). done.
  - rewrite filter_cons_True by done. done.
Qed.

Lemma keys_elem {V} (o : list (string * V)) (k : string) :
  k ∈ Obj.keys o <-> is_Some (Obj.get k o).
Proof. unfold Obj.keys. by rewrite key_order_elem, get_is_Some. Qed.

Lemma keys_nil {V} (o : list (string * V)) : Obj.keys o = [] -> o = [].
Proof.
  intros H. destruct o as [|[k v] o]; [done|].
  assert (Hin : k ∈ Obj.keys ((k, v) :: o)).
  { apply keys_elem. simpl. rewrite String.eqb_refl. eauto. }
  rewrite H in Hin. by apply elem_of_nil in Hin.
Qed.

Lemma keys_set_present {V} (o : list (string * V)) (k : string) (v : V) :
  is_Some (Obj.get k o) -> Obj.keys (Obj.set k v o) = Obj.keys o.
Proof. intros H. unfold Obj.keys. by rewrite set_keys_present. Qed.

(** ** The playlist store *)

Lemma set_playlists_same (s : State) :
  set_playlists (playlists s) (activePlaylistId s) s = s.
Proof. by destruct s. Qed.

Lemma get_omap_keys {V} (o : list (string * V)) (a : string) (ks : list string) :
  (a ∈ ks -> Obj.get a (omap (fun k => (fun v => (k, v)) <$> Obj.get k o) ks)
             = Obj.get a o)
  /\ (a ∉ ks -> Obj.get a (omap (fun k => (fun v => (k, v)) <$> Obj.get k o) ks)
               = None).
Proof.
  induction ks as [|k ks [IH1 IH2]].
  - split; [intros Hin; by apply elem_of_nil in Hin|done].
  - assert (Hstep :
      Obj.get a (omap (fun k => (fun v => (k, v)) <$> Obj.get k o) (k :: ks))
      = match Obj.get k o with
        | Some v =>
            if String.eqb k a then Some v
            else Obj.get a (omap (fun k => (fun v => (k, v)) <$> Obj.get k o) ks)
        | None => Obj.get a (omap (fun k => (fun v => (k, v)) <$> Obj.get k o) ks)
        end).
    { simpl. by destruct (Obj.get k o). }
    rewrite Hstep. clear Hstep.
    destruct (decide (a ∈ ks)) as [Hin|Hin].
    + split; [intros _|intros Hn; exfalso; apply Hn; by right].
      rewrite (IH1 Hin).
      destruct (Obj.get k o) as [v|] eqn:Hk; [|done].
      destruct (String.eqb k a) eqn:E; [|done].
      apply String.eqb_eq in E. by subst.
    + rewrite (IH2 Hin). split.
      * intros [->|?]%elem_of_cons; [|done].
        destruct (Obj.get k o) as [v|] eqn:Hk; [|done].
        by rewrite String.eqb_refl.
      * intros Hn. destruct (Obj.get k o) as [v|]; [|done].
        destruct (String.eqb k a) eqn:E; [|done].
        apply String.eqb_eq in E. subst. exfalso. apply Hn. left.
Qed.

(** Reading a property back after [JSON.stringify] and [JSON.parse]. *)
Lemma get_reparsed {V} (o : list (string * V)) (a : string) :
  Obj.get a (Obj.reparsed o) = Obj.get a o.
Proof.
  unfold Obj.reparsed.
  destruct (get_omap_keys o a (Obj.keys o)) as [H1 H2].
  destruct (decide (a ∈ Obj.keys o)) as [Hin|Hin]; [by apply H1|].
  rewrite (H2 Hin).
  rewrite keys_elem in Hin. destruct (Obj.get a o); [|done].
  exfalso. apply Hin. eauto.
Qed.

Lemma reparsed_Forall {V} (P : string * V -> Prop) (o : list (string * V)) :
  Forall P o -> Forall P (Obj.reparsed o).
Proof.
  intros Ho. unfold Obj.reparsed. apply Forall_forall. intros [k v] Hin.
  apply list_elem_of_omap in Hin as (k0 & _ & Hf).
  destruct (Obj.get k0 o) as [v0|] eqn:Hget; simpl in Hf; [|discriminate].
  injection Hf as <- <-.
  rewrite Forall_forall in Ho. by apply Ho, get_Some_elem.
Qed.

Lemma addIfAbsent_present (t : nat) (pl : Playlist) :
  t ∈ trackIds pl -> addIfAbsent t pl = pl.
Proof.
  intros Hin. unfold addIfAbsent.
  by rewrite (proj2 (includes_true _ _) Hin).
Qed.

Lemma addIfAbsent_absent (t : nat) (pl : Playlist) :
  t ∉ trackIds pl -> trackIds (addIfAbsent t pl) = trackIds pl ++ [t].
Proof.
  intros Hin. unfold addIfAbsent.
  by rewrite (proj2 (includes_false _ _) Hin).
Qed.

Lemma addIfAbsent_holds (t : nat) (pl : Playlist) : t ∈ trackIds (addIfAbsent t pl).
Proof.
  destruct (decide (t ∈ trackIds pl)) as [Hin|Hin].
  - by rewrite addIfAbsent_present.
  - rewrite addIfAbsent_absent by done. apply elem_of_app. right. left.
Qed.

Lemma addIfAbsent_NoDup (t : nat) (pl : Playlist) :
  NoDup (trackIds pl) -> NoDup (trackIds (addIfAbsent t pl)).
Proof.
  intros Hnd. destruct (decide (t ∈ trackIds pl)) as [Hin|Hin].
  - by rewrite addIfAbsent_present.
  - rewrite addIfAbsent_absent by done.
    apply NoDup_app. split; [done|]. split; [|apply NoDup_singleton].
    intros x Hx ->%list_elem_of_singleton. done.
Qed.

Lemma addIfAbsent_id (t : nat) (pl : Playlist) : pl_id (addIfAbsent t pl) = pl_id pl.
Proof. unfold addIfAbsent. by destruct (JS.includes _ _). Qed.

(** What finding the target establishes. *)
Lemma resolveTarget_spec (newId : string) (s : State) :
  let tid := (resolveTarget newId s).1 in
  let s1 := (resolveTarget newId s).2 in
  activePlaylistId s1 = Some tid
  /\ (ids_match_keys (playlists s) -> ids_match_keys (playlists s1))
  /\ (active_keys_playlist s -> is_Some (Obj.get tid (playlists s1)))
  /\ (JS.truthy tid = true \/ head (Obj.keys (playlists s1)) = Some tid)
  /\ (tracks s1 = tracks s /\ shuffledOrder s1 = shuffledOrder s
      /\ orderIndex s1 = orderIndex s
      /\ currentTrackIndex s1 = currentTrackIndex s).
Proof.
  assert (Hfallback :
    forall r,
      r = match Obj.keys (playlists s) with
          | [] =>
              (newId,
               set_playlists (Obj.set newId (favorites newId) (playlists s))
                 (Some newId) s)
          | id0 :: _ => (id0, set_playlists (playlists s) (Some id0) s)
          end ->
      activePlaylistId r.2 = Some r.1
      /\ (ids_match_keys (playlists s) -> ids_match_keys (playlists r.2))
      /\ is_Some (Obj.get r.1 (playlists r.2))
      /\ head (Obj.keys (playlists r.2)) = Some r.1
      /\ (tracks r.2 = tracks s /\ shuffledOrder r.2 = shuffledOrder s
          /\ orderIndex r.2 = orderIndex s
          /\ currentTrackIndex r.2 = currentTrackIndex s)).
  { intros r ->. destruct (Obj.keys (playlists s)) as [|id0 ids] eqn:Hkeys; simpl.
    - apply keys_nil in Hkeys. rewrite Hkeys. simpl.
      split; [done|]. split.
      + intros _. by apply Forall_singleton.
      + rewrite String.eqb_refl. split; [eauto|].
        unfold Obj.keys. simpl. rewrite key_order_singleton. done.
    - split; [done|]. split; [done|]. split.
      + apply keys_elem. rewrite Hkeys. left.
      + by rewrite Hkeys. }
  unfold resolveTarget.
  destruct (activePlaylistId s) as [a|] eqn:Ha.
  - destruct (JS.truthy a) eqn:Htr.
    + simpl. split; [done|]. split; [done|]. split.
      * unfold active_keys_playlist. by rewrite Ha.
      * split; [by left|done].
    + destruct (Hfallback _ eq_refl) as (H1 & H2 & H3 & H4 & H5).
      split; [done|]. split; [done|]. split; [done|]. split; [by right|done].
  - destruct (Hfallback _ eq_refl) as (H1 & H2 & H3 & H4 & H5).
    split; [done|]. split; [done|]. split; [done|]. split; [by right|done].
Qed.

Lemma resolveTarget_settled (newId : string) (s : State) (tid : string) :
  activePlaylistId s = Some tid ->
  JS.truthy tid = true \/ head (Obj.keys (playlists s)) = Some tid ->
  resolveTarget newId s = (tid, s).
Proof.
  intros Ha Hcase. unfold resolveTarget. rewrite Ha.
  destruct (JS.truthy tid) eqn:Htr; [done|].
  destruct Hcase as [?|Hhead]; [discriminate|].
  destruct (Obj.keys (playlists s)) as [|id0 ids]; [discriminate|].
  injection Hhead as ->. f_equal.
  rewrite <- Ha. apply set_playlists_same.
Qed.

Section StoreFacts.
Variable setItemThrows : bool.

Lemma save_state (w : World) : (savePlaylistsToStorage setItemThrows w).1 = w.1.
Proof. destruct w as [s item]. simpl. by destruct setItemThrows. Qed.

Lemma save_twice (w : World) :
  savePlaylistsToStorage setItemThrows (savePlaylistsToStorage setItemThrows w)
  = savePlaylistsToStorage setItemThrows w.
Proof.
  destruct w as [s item]. unfold savePlaylistsToStorage.
  by destruct setItemThrows.
Qed.

Lemma save_payload_ok (w : World) (p : Payload) :
  store_ok w.1 ->
  savePlaylistsToStorage setItemThrows w = (w.1, Parsed p) ->
  setItemThrows = false ->
  payload_ok p.
Proof.
  destruct w as [s item]. simpl. intros [Hact Hids] Hsave ->.
  simpl in Hsave. injection Hsave as <-.
  unfold payload_ok. simpl. split.
  - by apply reparsed_Forall.
  - unfold active_keys_playlist in Hact.
    destruct (activePlaylistId s) as [a|]; [|done].
    intros _. by rewrite get_reparsed.
Qed.

(** [handleAddTrackToPlaylist] returns unless the active id counts as set
    and keys no playlist. *)
Lemma handleAddTrackToPlaylist_returns (newId : string) (t : nat) (w : World) :
  active_keys_playlist w.1 ->
  is_Some (handleAddTrackToPlaylist setItemThrows newId t w).
Proof.
  destruct w as [s item]. simpl. intros Hact.
  destruct (resolveTarget_spec newId s) as (_ & _ & H3 & _).
  destruct (resolveTarget newId s) as [tid s1]. simpl in *.
  destruct (H3 Hact) as [pl ->]. eauto.
Qed.

End StoreFacts.

(** *** Stored texts of any shape *)

Lemma encode_playlists_keys (pls : list (string * Playlist)) :
  Json.keys (encode_playlists pls) = Some (Obj.keys pls).
Proof.
  unfold encode_playlists, Json.keys, Obj.keys. f_equal. f_equal.
  rewrite <- list_fmap_compose. by apply list_fmap_ext.
Qed.

(** The renderer does not throw on a collection whose playlists all have
    their three fields. *)
Lemma encode_playlists_renders (pls : list (string * Playlist)) :
  Untyped.renderPlaylistSidebar_throws (encode_playlists pls) = false.
Proof.
  unfold Untyped.renderPlaylistSidebar_throws, encode_playlists, Json.values.
  apply not_true_is_false. intros H.
  apply existsb_exists in H as (v & Hin & Hthrows).
  apply list_elem_of_In, list_elem_of_omap in Hin as (k & _ & Hget).
  apply get_Some_elem, list_elem_of_fmap in Hget as ([k' pl] & [= _ ->] & _).
  discriminate.
Qed.

Lemma encode_payload_fields (p : Payload) :
  Json.field (encode_payload p) "playlists"
  = Some (match stored_playlists p with
          | Some pls => encode_playlists pls
          | None => Json.Undefined
          end)
  /\ Json.field (encode_payload p) "activePlaylistId"
     = Some (match stored_activePlaylistId p with
             | Some a => Json.Str a
             | None => Json.Undefined
             end).
Proof. destruct p as [[pls|] [a|]]; split; reflexivity. Qed.

(** On the stored items of the typed model, the function on texts of any
    shape computes the collection that the typed function computes, and its
    [catch] block runs for the text that does not parse only. *)
Lemma untyped_load_agrees (newId : string) (s : State) (item : StoredItem) :
  let r := Untyped.loadPlaylistsFromStorage newId s (encode_item item) in
  let s' := (loadPlaylistsFromStorage newId (s, item)).1 in
  Untyped.loaded_playlists r = encode_playlists (playlists s')
  /\ same_active (Untyped.loaded_activePlaylistId r) (activePlaylistId s')
  /\ Untyped.warned r = match item with Unparseable => true | _ => false end.
Proof.
  assert (Hsame : forall a, same_active (encode_active a) a).
  { intros [a|]; simpl; auto. }
  destruct item as [| |p]; cbn [encode_item loadPlaylistsFromStorage fst].
  - cbn. split; [done|]. split; [done|]. apply encode_playlists_renders.
  - cbn. split; [done|]. split; [apply Hsame|done].
  - unfold Untyped.loadPlaylistsFromStorage.
    destruct (encode_payload_fields p) as [-> ->].
    set (pls := default [] (stored_playlists p)).
    assert (Hpls :
      (if Json.truthy (match stored_playlists p with
                       | Some pls => encode_playlists pls
                       | None => Json.Undefined
                       end)
       then match stored_playlists p with
            | Some pls => encode_playlists pls
            | None => Json.Undefined
            end
       else Json.Object []) = encode_playlists pls).
    { unfold pls. by destruct (stored_playlists p). }
    rewrite Hpls, encode_playlists_keys.
    assert (Hkeys :
      same_active (default Json.Undefined (Json.Str <$> head (Obj.keys pls)))
        (head (Obj.keys pls))).
    { destruct (head (Obj.keys pls)); simpl; auto. }
    destruct (stored_activePlaylistId p) as [a|]; cbn [Json.truthy JS.or_else].
    + destruct (JS.truthy a); cbn [Untyped.loaded_playlists
        Untyped.loaded_activePlaylistId Untyped.warned set_playlists
        playlists activePlaylistId];
        (split; [done|split; [done|apply encode_playlists_renders]]).
    + cbn [Untyped.loaded_playlists Untyped.loaded_activePlaylistId
           Untyped.warned set_playlists playlists activePlaylistId].
      split; [done|split; [done|apply encode_playlists_renders]].
Qed.

(** C7, as the code has it. With no stored item (or the empty text),
    [loadPlaylistsFromStorage] adds a playlist named Favorites under the id
    that [generateId] returns and makes it active; from a collection without
    playlists that is the single playlist. It does not write to the
    storage: the item is still missing afterwards. With a stored text of
    any kind it returns as well, whatever throws being caught. If the text
    does not parse, or parses to [null], the state is left as it was: no
    playlist is added. If it parses to another value [j], of whatever
    shape, [state.playlists] becomes [j.playlists || {}] and
    [state.activePlaylistId] becomes [j.activePlaylistId], or the first key
    of the new collection when that is not set; both are assigned before
    the sidebar is rendered, so they stay when rendering throws. *)
Theorem loadPlaylistsFromStorage_absent_or_corrupt (newId : string) (s : State) :
  loadPlaylistsFromStorage newId (s, NoItem)
  = (set_playlists (Obj.set newId (favorites newId) (playlists s))
       (Some newId) s, NoItem)
  /\ loadPlaylistsFromStorage newId
       (set_playlists [] (activePlaylistId s) s, NoItem)
     = (set_playlists [(newId, favorites newId)] (Some newId) s, NoItem)
  /\ Obj.get newId (playlists (loadPlaylistsFromStorage newId (s, NoItem)).1)
     = Some (favorites newId)
  /\ Untyped.loadPlaylistsFromStorage newId s Untyped.NoText
     = {| Untyped.loaded_playlists :=
            encode_playlists (Obj.set newId (favorites newId) (playlists s));
          Untyped.loaded_activePlaylistId := Json.Str newId;
          Untyped.warned := false |}
  /\ (forall raw,
        raw = Untyped.Malformed \/ raw = Untyped.Parses Json.Null ->
        Untyped.loadPlaylistsFromStorage newId s raw
        = {| Untyped.loaded_playlists := encode_playlists (playlists s);
             Untyped.loaded_activePlaylistId :=
               encode_active (activePlaylistId s);
             Untyped.warned := true |})
  /\ (forall j, j <> Json.Null -> j <> Json.Undefined ->
        exists p a ks,
          Json.field j "playlists" = Some p
          /\ Json.field j "activePlaylistId" = Some a
          /\ Json.keys (if Json.truthy p then p else Json.Object []) = Some ks
          /\ Untyped.loadPlaylistsFromStorage newId s (Untyped.Parses j)
             = {| Untyped.loaded_playlists :=
                    if Json.truthy p then p else Json.Object [];
                  Untyped.loaded_activePlaylistId :=
                    if Json.truthy a then a
                    else default Json.Undefined (Json.Str <$> head ks);
                  Untyped.warned :=
                    Untyped.renderPlaylistSidebar_throws
                      (if Json.truthy p then p else Json.Object []) |}).
Proof.
  split; [reflexivity|]. split; [reflexivity|].
  split; [simpl; apply get_set_eq|].
  split.
  { unfold Untyped.loadPlaylistsFromStorage.
    by rewrite encode_playlists_renders. }
  split; [by intros raw [-> | ->]|].
  intros j Hnull Hundef.
  assert (Hfield : forall k, exists v, Json.field j k = Some v).
  { intros k. destruct j; try done; simpl; eauto. }
  destruct (Hfield "playlists") as [p Hp].
  destruct (Hfield "activePlaylistId") as [a Ha].
  assert (Hkeys : exists ks,
            Json.keys (if Json.truthy p then p else Json.Object []) = Some ks).
  { destruct p as [| |[]| | | |]; simpl; try destruct (negb _); simpl; eauto;
      try destruct (JS.truthy _); simpl; eauto. }
  destruct Hkeys as [ks Hks].
  exists p, a, ks. split; [done|]. split; [done|]. split; [done|].
  unfold Untyped.loadPlaylistsFromStorage. rewrite Hp, Ha. cbv zeta.
  rewrite Hks. by destruct (Json.truthy a).
Qed.

(** C7 as stated fails on three counts. From the initial state, a stored
    text that does not parse leaves the collection without any playlist and
    without an active id; a stored text that parses to a collection whose
    playlist has no [trackIds] puts that collection into the state, where
    rendering the sidebar throws, instead of the default playlist; and a
    missing item is still missing after the default playlist was
    created. *)
Lemma loadPlaylistsFromStorage_counterexample :
  Untyped.loadPlaylistsFromStorage "k3x9q2a" state0 Untyped.Malformed
  = {| Untyped.loaded_playlists := Json.Object [];
       Untyped.loaded_activePlaylistId := Json.Null;
       Untyped.warned := true |}
  /\ Untyped.loadPlaylistsFromStorage "k3x9q2a" state0
       (Untyped.Parses ill_shaped_blob)
     = {| Untyped.loaded_playlists :=
            Json.Object [("a", Json.Object [("id", Json.Str "a");
                                            ("name", Json.Str "Mix")])];
          Untyped.loaded_activePlaylistId := Json.Str "a";
          Untyped.warned := true |}
  /\ playlists (loadPlaylistsFromStorage "k3x9q2a" (state0, NoItem)).1
     = [("k3x9q2a", favorites "k3x9q2a")]
  /\ (loadPlaylistsFromStorage "k3x9q2a" (state0, NoItem)).2 = NoItem.
Proof. split; [|split; [|split]]; vm_compute; reflexivity. Qed.

Section StoreProperties.
Variable setItemThrows : bool.

Lemma handleAddTrackToPlaylist_unfold (newId : string) (t : nat) (w w' : World) :
  handleAddTrackToPlaylist setItemThrows newId t w = Some w' ->
  exists pl,
    Obj.get (resolveTarget newId w.1).1 (playlists (resolveTarget newId w.1).2)
    = Some pl
    /\ w' = savePlaylistsToStorage setItemThrows
              (set_playlists
                 (Obj.set (resolveTarget newId w.1).1 (addIfAbsent t pl)
                    (playlists (resolveTarget newId w.1).2))
                 (Some (resolveTarget newId w.1).1)
                 (resolveTarget newId w.1).2,
               w.2).
Proof.
  destruct w as [s item]. simpl. intros H.
  destruct (resolveTarget_spec newId s) as (Hact & _).
  destruct (resolveTarget newId s) as [tid s1]. simpl in *.
  destruct (Obj.get tid (playlists s1)) as [pl|]; [|discriminate].
  injection H as <-. exists pl. split; [done|]. by rewrite Hact.
Qed.

(** C8. When [handleAddTrackToPlaylist] returns, the target playlist holds
    the track: its [trackIds] are unchanged if the track was there, and have
    the track appended as last entry otherwise; a list without repeats stays
    without repeats; no other playlist changes; and adding the same track
    again changes neither the state nor the stored item. *)
Theorem handleAddTrackToPlaylist_idempotent (newId newId' : string) (t : nat)
    (w w' : World) :
  handleAddTrackToPlaylist setItemThrows newId t w = Some w' ->
  let target := (resolveTarget newId w.1).1 in
  let before := playlists (resolveTarget newId w.1).2 in
  exists pl pl',
    Obj.get target before = Some pl
    /\ Obj.get target (playlists w'.1) = Some pl'
    /\ activePlaylistId w'.1 = Some target
    /\ (t ∈ trackIds pl -> trackIds pl' = trackIds pl)
    /\ (t ∉ trackIds pl -> trackIds pl' = trackIds pl ++ [t])
    /\ (NoDup (trackIds pl) -> NoDup (trackIds pl'))
    /\ (forall k, k <> target -> Obj.get k (playlists w'.1) = Obj.get k before)
    /\ handleAddTrackToPlaylist setItemThrows newId' t w' = Some w'.
Proof.
  intros H target before.
  apply handleAddTrackToPlaylist_unfold in H as (pl & Hget & ->).
  fold target before in Hget |- *.
  destruct (resolveTarget_spec newId w.1) as (Hact & _ & _ & Hhead & _).
  fold target in Hact, Hhead. fold before in Hhead.
  set (s1 := (resolveTarget newId w.1).2) in *.
  set (s2 := set_playlists (Obj.set target (addIfAbsent t pl) before)
               (Some target) s1).
  assert (Hres : resolveTarget newId' s2 = (target, s2)).
  { apply resolveTarget_settled; [done|].
    destruct Hhead as [?|Hhead]; [by left|right].
    simpl. rewrite keys_set_present by eauto. exact Hhead. }
  destruct (savePlaylistsToStorage setItemThrows (s2, w.2)) as [s2' item2] eqn:Hsave.
  assert (Hs2 : s2' = s2).
  { pose proof (save_state setItemThrows (s2, w.2)) as E.
    rewrite Hsave in E. exact E. }
  subst s2'.
  exists pl, (addIfAbsent t pl).
  split; [done|]. split; [apply get_set_eq|]. split; [done|].
  split; [intros Hin; by rewrite addIfAbsent_present|].
  split; [apply addIfAbsent_absent|].
  split; [apply addIfAbsent_NoDup|].
  split; [intros k Hk; by apply get_set_ne|].
  unfold handleAddTrackToPlaylist. rewrite Hres.
  replace (Obj.get target (playlists s2)) with (Some (addIfAbsent t pl))
    by (symmetry; apply get_set_eq).
  rewrite (addIfAbsent_present t (addIfAbsent t pl)) by apply addIfAbsent_holds.
  rewrite (set_get_id target (addIfAbsent t pl) (playlists s2))
    by apply get_set_eq.
  rewrite set_playlists_same. f_equal.
  rewrite <- Hsave. apply save_twice.
Qed.

(** C9, as the code has it. From a collection whose active id, if set,
    keys a playlist and whose playlists are stored under their own ids,
    every operation of the store ends in such a collection: loading without
    a stored item, loading a text that cannot be parsed, saving, creating a
    playlist, adding a track (which then returns) and selecting a playlist.
    Loading a stored collection does so when the stored payload is itself of
    that kind, as every payload written by [savePlaylistsToStorage] from
    such a collection is; [loadPlaylistsFromStorage] copies a stored active
    id without looking it up. *)
Theorem playlist_store_keeps_active_id (newId key : string)
    (name : option string) (t : nat) (w : World) :
  store_ok w.1 ->
  store_ok (loadPlaylistsFromStorage newId (w.1, NoItem)).1
  /\ store_ok (loadPlaylistsFromStorage newId (w.1, Unparseable)).1
  /\ (forall p, payload_ok p ->
        store_ok (loadPlaylistsFromStorage newId (w.1, Parsed p)).1)
  /\ store_ok (savePlaylistsToStorage setItemThrows w).1
  /\ (forall p, (savePlaylistsToStorage setItemThrows w).2 = Parsed p ->
        setItemThrows = false -> payload_ok p)
  /\ store_ok (createNewPlaylist setItemThrows newId name w).1
  /\ (exists w', handleAddTrackToPlaylist setItemThrows newId t w = Some w'
        /\ store_ok w'.1)
  /\ store_ok (selectPlaylist setItemThrows key w).1.
Proof.
  destruct w as [s item]. cbn [fst]. intros [Hact Hids].
  assert (Hnew : forall (pl : Playlist),
    pl_id pl = newId ->
    store_ok (set_playlists (Obj.set newId pl (playlists s)) (Some newId) s)).
  { intros pl Hpl. split.
    - unfold active_keys_playlist. simpl. rewrite get_set_eq. eauto.
    - simpl. by apply set_Forall. }
  split; [by apply Hnew|]. split; [done|].
  split; [|split; [|split; [|split; [|split]]]].
  - intros p [Hpids Hpact]. split; [|exact Hpids].
    unfold active_keys_playlist. simpl.
    destruct (stored_activePlaylistId p) as [a|]; simpl.
    + destruct (JS.truthy a) eqn:Htr; [by apply Hpact|].
      destruct (head _) as [k|] eqn:Hhead; [|done].
      apply keys_elem. apply head_Some in Hhead as [ks ->]. left.
    + destruct (head _) as [k|] eqn:Hhead; [|done].
      apply keys_elem. apply head_Some in Hhead as [ks ->]. left.
  - by rewrite save_state.
  - intros p Hp Hthrows.
    apply (save_payload_ok setItemThrows (s, item)); [done| |done].
    rewrite <- Hp. pose proof (save_state setItemThrows (s, item)) as E.
    by destruct (savePlaylistsToStorage setItemThrows (s, item)); simpl in *; subst.
  - unfold createNewPlaylist.
    destruct name as [nm|]; [|done].
    destruct (JS.truthy nm); simpl negb; cbv iota; [|done].
    rewrite save_state. by apply Hnew.
  - destruct (handleAddTrackToPlaylist_returns setItemThrows newId t (s, item) Hact)
      as [w' Hw'].
    exists w'. split; [exact Hw'|].
    apply handleAddTrackToPlaylist_unfold in Hw' as (pl & Hget & ->).
    cbn [fst snd] in Hget |- *.
    destruct (resolveTarget_spec newId s) as (_ & Hids1 & _).
    rewrite save_state. split.
    + unfold active_keys_playlist. simpl. rewrite get_set_eq. eauto.
    + simpl. apply set_Forall; [by apply Hids1|]. simpl.
      rewrite addIfAbsent_id.
      apply get_Some_elem in Hget.
      specialize (Hids1 Hids). unfold ids_match_keys in Hids1.
      rewrite Forall_forall in Hids1. by apply (Hids1 _ Hget).
  - unfold selectPlaylist.
    destruct (Obj.get key (playlists s)) as [pl|] eqn:Hget; [|done].
    rewrite save_state. split; [|done].
    unfold active_keys_playlist. simpl.
    apply get_Some_elem in Hget as Hin.
    unfold ids_match_keys in Hids. rewrite Forall_forall in Hids.
    pose proof (Hids _ Hin) as Hid. simpl in Hid. rewrite Hid. eauto.
Qed.

End StoreProperties.

(** The theorem of C8 at the first-visit collection: track 3 is added to
    Favorites, and adding it again changes nothing. *)
Lemma handleAddTrackToPlaylist_idempotent_witness :
  exists w',
    handleAddTrackToPlaylist false "zzzzzzz" 3 demo_world = Some w'
    /\ (trackIds <$> Obj.get "k3x9q2a" (playlists w'.1)) = Some [3]
    /\ handleAddTrackToPlaylist false "yyyyyyy" 3 w' = Some w'.
Proof.
  eexists. split; [reflexivity|]. split; [reflexivity|].
  destruct (handleAddTrackToPlaylist_idempotent false "zzzzzzz" "yyyyyyy" 3
              demo_world _ eq_refl)
    as (pl & pl' & _ & _ & _ & _ & _ & _ & _ & H).
  exact H.
Defined.

(** The theorem of C9 at the first-visit collection. *)
Lemma playlist_store_keeps_active_id_witness :
  store_ok demo_world.1
  /\ store_ok (createNewPlaylist false "m4p7w1c" (Some "Road trip") demo_world).1
  /\ store_ok (selectPlaylist false "k3x9q2a" demo_world).1.
Proof.
  assert (Hok : store_ok demo_world.1).
  { split.
    - unfold active_keys_playlist. simpl. eauto.
    - repeat constructor. }
  split; [exact Hok|].
  destruct (playlist_store_keeps_active_id false "m4p7w1c" "k3x9q2a"
              (Some "Road trip") 3 demo_world Hok)
    as (_ & _ & _ & _ & _ & Hcreate & _ & Hselect).
  split; [exact Hcreate|exact Hselect].
Defined.

(** C9 as stated fails: loading a stored collection without playlists whose
    active id is [ghost] makes [ghost] the active id, which keys no
    playlist; adding a track then throws. *)
Lemma loadPlaylistsFromStorage_ghost_counterexample :
  let w := loadPlaylistsFromStorage "k3x9q2a" (state0, Parsed ghost_payload) in
  activePlaylistId w.1 = Some "ghost"
  /\ Obj.get "ghost" (playlists w.1) = None
  /\ ~ active_keys_playlist w.1
  /\ handleAddTrackToPlaylist false "m4p7w1c" 3 w = None.
Proof.
  simpl. split; [reflexivity|]. split; [reflexivity|]. split; [|reflexivity].
  unfold active_keys_playlist. simpl. intros [x Hx]. discriminate.
Qed.

(** ** The earlier revision *)

(** In the earlier revision no record is skipped: the two records of the
    scenario of C4 give two tracks, the second without a source. *)
Lemma appjs_normalizeTracks_keeps_all (raw : list RawTrack) :
  length (AppJs.normalizeTracks raw) = length raw
  /\ (AppJs.src <$>
        AppJs.normalizeTracks
          [raw_titled "A" (Some "http://x/a.mp3"); raw_titled "B" None])
     = [Some "http://x/a.mp3"; None].
Proof.
  split; [|reflexivity]. unfold AppJs.normalizeTracks. apply length_imap.
Qed.

(** In the earlier revision the walk of C2 needs no condition on the
    track's source. *)
Lemma appjs_skipTrack_sequential_walk (upNextList : bool) (fuel : nat)
    (rnd : nat -> unit_sample) (direction : Z) (s : State) :
  let n := length (tracks s) in
  let c := default 0 (currentTrackIndex s) in
  shuffleEnabled s = false ->
  (direction = 1 \/ direction = -1)%Z ->
  c < n ->
  Nat.min MAX_NEXT (n - 1) < fuel ->
  AppJs.skipTrack upNextList fuel rnd direction s
  = Some (set_currentTrackIndex
            (Some (Z.to_nat ((Z.of_nat c + direction) mod Z.of_nat n))) s).
Proof.
  intros n c Hsh Hdir Hc Hfuel.
  unfold AppJs.skipTrack. fold n.
  rewrite (proj2 (Nat.eqb_neq n 0)) by lia.
  rewrite Hsh. simpl. fold c.
  rewrite (skip_index_wraps n c direction Hc Hdir).
  set (target := Z.to_nat ((Z.of_nat c + direction) mod Z.of_nat n)).
  assert (Htarget : target < n).
  { unfold target.
    pose proof (Z.mod_pos_bound (Z.of_nat c + direction) (Z.of_nat n)). lia. }
  unfold AppJs.loadTrackByIndex.
  destruct (lookup_lt_is_Some_2 (tracks s) target Htarget) as [t ->].
  rewrite renderUpNext_sequential; [done| |exact Hfuel].
  simpl. by rewrite Hsh.
Qed.

(** * Further properties of the code *)

(** ** The playback queue stays consistent *)

Lemma build_engine_ok rnd (s : State) :
  (forall c, currentTrackIndex s = Some c -> c < length (tracks s)) ->
  engine_ok (buildInitialShuffleOrder rnd s).
Proof.
  intros Hcur. split; [|split].
  - rewrite shuffledOrder_build. apply shuffleArray_perm.
  - simpl. lia.
  - exact Hcur.
Qed.

Lemma engine_ok_NoDup (s : State) : engine_ok s -> NoDup (shuffledOrder s).
Proof. intros [Hp _]. rewrite Hp. apply NoDup_seq. Qed.

Lemma engine_ok_length (s : State) :
  engine_ok s -> length (shuffledOrder s) = length (tracks s).
Proof. intros [Hp _]. rewrite Hp. apply length_seq. Qed.

Lemma engine_ok_elem (s : State) (i : nat) :
  engine_ok s -> (i ∈ shuffledOrder s <-> i < length (tracks s)).
Proof. intros [Hp _]. rewrite Hp. unfold JS.range. rewrite elem_of_seq. lia. Qed.

Lemma indexOf_Some (l : list nat) (x j : nat) :
  JS.indexOf l x = Some j -> l !! j = Some x.
Proof.
  revert j. induction l as [|y l IH]; intros j; simpl; [discriminate|].
  destruct (decide (y = x)) as [->|Hne].
  - by intros [= <-].
  - destruct (JS.indexOf l x) as [k|]; simpl; [|discriminate].
    intros [= <-]. by apply IH.
Qed.

Lemma indexOf_elem (l : list nat) (x : nat) :
  x ∈ l -> is_Some (JS.indexOf l x).
Proof.
  induction l as [|y l IH]; simpl; [intros H; by apply elem_of_nil in H|].
  intros Hin. destruct (decide (y = x)) as [->|Hne]; [eauto|].
  apply elem_of_cons in Hin as [?|Hin]; [congruence|].
  destruct (IH Hin) as [k ->]. simpl. eauto.
Qed.

Section QueueFacts.
Variable upNextList : bool.

(** [loadTrackByIndex] either leaves the state or makes a catalog index the
    current one. *)
Lemma loadTrackByIndex_cases (fuel index : nat) (s s' : State) :
  loadTrackByIndex upNextList fuel index s = Some s' ->
  s' = s
  \/ (s' = set_currentTrackIndex (Some index) s /\ index < length (tracks s)).
Proof.
  unfold loadTrackByIndex.
  destruct (Nat.leb_spec (length (tracks s)) index) as [Hge|Hlt];
    [intros [= <-]; by left|].
  destruct (tracks s !! index) as [t|]; [|intros [= <-]; by left].
  destruct (negb _ || _); [intros [= <-]; by left|].
  destruct (renderUpNext _ _ _); [|discriminate].
  intros [= <-]. by right.
Qed.

Lemma loadTrackByIndex_engine_ok (fuel index : nat) (s s' : State) :
  engine_ok s ->
  loadTrackByIndex upNextList fuel index s = Some s' -> engine_ok s'.
Proof.
  intros Hok H. apply loadTrackByIndex_cases in H as [->|[-> Hlt]]; [done|].
  destruct Hok as (Hp & Hoi & Hcur).
  split; [done|]. split; [done|]. intros c [= <-]. done.
Qed.

(** The up-next list is built in time whenever the order holds no index
    twice and, in the shuffle branch, at least [MAX_NEXT] of them. *)
Lemma renderUpNext_returns (fuel : nat) (s : State) :
  NoDup (shuffledOrder s) ->
  (shuffleEnabled s = true -> 0 < length (shuffledOrder s) ->
   0 < length (tracks s) -> MAX_NEXT ≤ length (shuffledOrder s)) ->
  MAX_NEXT < fuel ->
  renderUpNext upNextList fuel s = Some tt.
Proof.
  intros Hnd Hbig Hfuel. unfold renderUpNext.
  destruct (negb upNextList || (length (tracks s) =? 0)) eqn:Hguard; [done|].
  apply orb_false_iff in Hguard as [_ Hn]. apply Nat.eqb_neq in Hn.
  unfold upNextQueue.
  destruct (shuffleEnabled s && (0 <? length (shuffledOrder s))) eqn:Hbranch.
  - apply andb_prop in Hbranch as [Hsh Hpos]. apply Nat.ltb_lt in Hpos.
    rewrite upNextShuffled_returns; [done|done|done| |done].
    apply Hbig; [done|done|lia].
  - rewrite upNextSequential_returns; [done|lia|].
    pose proof (Nat.le_min_l MAX_NEXT (length (tracks s) - 1)). lia.
Qed.

Lemma loadTrackByIndex_returns (fuel index : nat) (s : State) :
  NoDup (shuffledOrder s) ->
  (shuffleEnabled s = true -> 0 < length (shuffledOrder s) ->
   0 < length (tracks s) -> MAX_NEXT ≤ length (shuffledOrder s)) ->
  MAX_NEXT < fuel ->
  is_Some (loadTrackByIndex upNextList fuel index s).
Proof.
  intros Hnd Hbig Hfuel. unfold loadTrackByIndex.
  destruct (length (tracks s) <=? index); [eauto|].
  destruct (tracks s !! index) as [t|]; [|eauto].
  destruct (negb _ || _); [eauto|].
  rewrite renderUpNext_returns; [eauto|done|done|done].
Qed.

(** X1. Every playback control keeps the queue consistent: from a state
    whose order is a permutation of the catalog indices, whose cursor lies
    in the order and whose current index is a catalog index, the state that
    [skipTrack], [playTrackFromIndex], [toggleShuffle], [handleTrackEnded]
    or [toggleRepeat] returns is of that kind again. *)
Theorem playback_controls_keep_queue_consistent (fuel : nat)
    (rnd : nat -> unit_sample) (direction : Z) (index : nat) (s : State) :
  engine_ok s ->
  (forall s', skipTrack upNextList fuel rnd direction s = Some s' -> engine_ok s')
  /\ (forall s', playTrackFromIndex upNextList fuel rnd index s = Some s' ->
        engine_ok s')
  /\ (forall s', toggleShuffle upNextList fuel rnd s = Some s' -> engine_ok s')
  /\ (forall s', handleTrackEnded upNextList fuel rnd s = Some s' -> engine_ok s')
  /\ engine_ok (toggleRepeat s).
Proof.
  intros Hok.
  assert (Hskip : forall d s',
    skipTrack upNextList fuel rnd d s = Some s' -> engine_ok s').
  { intros d s'. unfold skipTrack.
    destruct (length (tracks s) =? 0) eqn:Hn; [by intros [= <-]|].
    apply Nat.eqb_neq in Hn.
    destruct (shuffleEnabled s && _).
    - set (oi := (Z.of_nat (orderIndex s) + d)%Z).
      destruct ((oi <? 0)%Z || (Z.of_nat (length (shuffledOrder s)) <=? oi)%Z)
        eqn:Hrange.
      + assert (Hb : engine_ok (buildInitialShuffleOrder rnd s))
          by (apply build_engine_ok; apply Hok).
        destruct (_ !! _); [|by intros [= <-]].
        by apply loadTrackByIndex_engine_ok.
      + apply orb_false_iff in Hrange as [H1 H2].
        apply Z.ltb_ge in H1. apply Z.leb_gt in H2.
        rewrite (engine_ok_length s Hok) in H2.
        assert (Hs1 : engine_ok (set_orderIndex (Z.to_nat oi) s)).
        { destruct Hok as (Hp & Hoi & Hcur). split; [done|].
          split; [simpl; lia|done]. }
        destruct (_ !! _); [|by intros [= <-]].
        by apply loadTrackByIndex_engine_ok.
    - by apply loadTrackByIndex_engine_ok. }
  split; [apply Hskip|]. split; [|split; [|split]].
  - intros s'. unfold playTrackFromIndex.
    destruct (tracks s !! index) as [t|] eqn:Ht; [|by intros [= <-]].
    pose proof (lookup_lt_Some _ _ _ Ht) as Hlt.
    rewrite (proj2 (includes_true _ _)) by (by apply engine_ok_elem).
    destruct (indexOf_elem (shuffledOrder s) index) as [j Hj];
      [by apply engine_ok_elem|].
    simpl. rewrite Hj.
    apply loadTrackByIndex_engine_ok.
    apply indexOf_Some, lookup_lt_Some in Hj.
    rewrite (engine_ok_length s Hok) in Hj.
    destruct Hok as (Hp & Hoi & Hcur).
    split; [done|]. split; [done|]. by intros c [= <-].
  - intros s'. unfold toggleShuffle.
    destruct (renderUpNext _ _ _); [|discriminate]. intros [= <-].
    destruct (shuffleEnabled s); simpl.
    + exact Hok.
    + apply build_engine_ok. apply Hok.
  - intros s'. unfold handleTrackEnded.
    destruct (repeatMode s); [apply Hskip|by intros [= <-]].
  - unfold toggleRepeat. by destruct (repeatMode s).
Qed.

(** X2. On a consistent queue over an empty catalog or one of at least
    [MAX_NEXT] tracks, every playback control returns once the up-next loop
    has had [MAX_NEXT + 1] tests. *)
Theorem playback_controls_return (fuel : nat) (rnd : nat -> unit_sample)
    (direction : Z) (index : nat) (s : State) :
  engine_ok s ->
  length (tracks s) = 0 \/ MAX_NEXT ≤ length (tracks s) ->
  MAX_NEXT < fuel ->
  is_Some (skipTrack upNextList fuel rnd direction s)
  /\ is_Some (playTrackFromIndex upNextList fuel rnd index s)
  /\ is_Some (toggleShuffle upNextList fuel rnd s)
  /\ is_Some (handleTrackEnded upNextList fuel rnd s).
Proof.
  intros Hok Hsize Hfuel.
  assert (Hload : forall i s1,
    engine_ok s1 -> length (tracks s1) = length (tracks s) ->
    is_Some (loadTrackByIndex upNextList fuel i s1)).
  { intros i s1 Hok1 Hlen. apply loadTrackByIndex_returns; [|intros _ _ Hpos|done].
    - by apply engine_ok_NoDup.
    - rewrite (engine_ok_length s1 Hok1), Hlen. lia. }
  assert (Hskip : forall d, is_Some (skipTrack upNextList fuel rnd d s)).
  { intros d. unfold skipTrack.
    destruct (length (tracks s) =? 0) eqn:Hn; [eauto|].
    apply Nat.eqb_neq in Hn.
    destruct (shuffleEnabled s && _).
    - set (oi := (Z.of_nat (orderIndex s) + d)%Z).
      destruct ((oi <? 0)%Z || (Z.of_nat (length (shuffledOrder s)) <=? oi)%Z)
        eqn:Hrange.
      + destruct (_ !! _); [|eauto]. apply Hload; [|done].
        apply build_engine_ok. apply Hok.
      + apply orb_false_iff in Hrange as [H1 H2].
        apply Z.ltb_ge in H1. apply Z.leb_gt in H2.
        rewrite (engine_ok_length s Hok) in H2.
        destruct (_ !! _); [|eauto]. apply Hload; [|done].
        destruct Hok as (Hp & Hoi & Hcur). split; [done|].
        split; [simpl; lia|done].
    - by apply Hload. }
  split; [apply Hskip|]. split; [|split].
  - unfold playTrackFromIndex.
    destruct (tracks s !! index) as [t|] eqn:Ht; [|eauto].
    pose proof (lookup_lt_Some _ _ _ Ht) as Hlt.
    rewrite (proj2 (includes_true _ _)) by (by apply engine_ok_elem).
    destruct (indexOf_elem (shuffledOrder s) index) as [j Hj];
      [by apply engine_ok_elem|].
    simpl. rewrite Hj. apply Hload; [|done].
    apply indexOf_Some, lookup_lt_Some in Hj.
    rewrite (engine_ok_length s Hok) in Hj.
    destruct Hok as (Hp & Hoi & Hcur).
    split; [done|]. split; [done|]. by intros c [= <-].
  - unfold toggleShuffle.
    set (s2 := if shuffleEnabled _ then _ else _).
    assert (Hs2 : engine_ok s2 /\ length (tracks s2) = length (tracks s)).
    { unfold s2. destruct (shuffleEnabled s); simpl; [done|].
      split; [|done]. apply build_engine_ok. apply Hok. }
    destruct Hs2 as [Hok2 Hlen2].
    rewrite renderUpNext_returns; [eauto| |intros _ _ Hpos|done].
    + by apply engine_ok_NoDup.
    + rewrite (engine_ok_length s2 Hok2), Hlen2. lia.
  - unfold handleTrackEnded. destruct (repeatMode s); [apply Hskip|eauto].
Qed.

End QueueFacts.

(** ** Small catalogs with shuffle on *)

(** X3. On a page with the up-next element and with shuffle on, loading a
    catalog of which between one and [MAX_NEXT - 1] records are kept never
    returns: [fetchTracks] is caught in the loop of [renderUpNext]. *)
Theorem fetchTracks_small_catalog_never_returns (fuel : nat)
    (rnd : nat -> unit_sample) (raw : list RawTrack) (s : State) :
  shuffleEnabled s = true ->
  0 < length (normalizeTracks raw).1 ->
  length (normalizeTracks raw).1 < MAX_NEXT ->
  fetchTracks true fuel rnd raw s = None.
Proof.
  intros Hsh Hpos Hsmall. unfold fetchTracks.
  set (s1 := set_tracks (normalizeTracks raw).1 s).
  assert (Hlen : length (tracks s1) = length (normalizeTracks raw).1) by done.
  rewrite (proj2 (Nat.eqb_neq _ 0)) by lia.
  assert (H : renderUpNext true fuel (buildInitialShuffleOrder rnd s1) = None).
  { unfold renderUpNext.
    replace (length (tracks (buildInitialShuffleOrder rnd s1)))
      with (length (tracks s1)) by done.
    rewrite (proj2 (Nat.eqb_neq _ 0)) by lia. simpl.
    rewrite upNextQueue_few_tracks_never_returns; [done|exact Hsh| |].
    - rewrite build_order_length. lia.
    - rewrite build_order_length. lia. }
  by rewrite H.
Qed.

(** X4. On such a page, turning shuffle on over a catalog of between one and
    [MAX_NEXT - 1] tracks never returns. *)
Theorem toggleShuffle_small_catalog_never_returns (fuel : nat)
    (rnd : nat -> unit_sample) (s : State) :
  shuffleEnabled s = false ->
  0 < length (tracks s) ->
  length (tracks s) < MAX_NEXT ->
  toggleShuffle true fuel rnd s = None.
Proof.
  intros Hsh Hpos Hsmall. unfold toggleShuffle. rewrite Hsh. simpl.
  set (s2 := buildInitialShuffleOrder rnd (set_shuffleEnabled true s)).
  assert (H : renderUpNext true fuel s2 = None).
  { unfold renderUpNext.
    replace (length (tracks s2)) with (length (tracks s)) by done.
    rewrite (proj2 (Nat.eqb_neq _ 0)) by lia. simpl.
    rewrite upNextQueue_few_tracks_never_returns; [done|done| |].
    - unfold s2. rewrite build_order_length. simpl. lia.
    - unfold s2. rewrite build_order_length. simpl. lia. }
  by rewrite H.
Qed.

(** ** Choosing a track and stepping through the shuffled order *)

Section StepFacts.
Variable upNextList : bool.

(** X5. [playTrackFromIndex] on an index outside the catalog returns the
    state as it is. On a catalog index whose track [loadTrackByIndex]
    accepts, the state it returns has that index as current index and the
    cursor on the slot of the order that holds it; the order is kept when
    it held the index and is drawn anew otherwise. *)
Theorem playTrackFromIndex_points_cursor (fuel : nat) (rnd : nat -> unit_sample)
    (index : nat) (s : State) :
  (length (tracks s) ≤ index ->
   playTrackFromIndex upNextList fuel rnd index s = Some s)
  /\ (forall t s',
        tracks s !! index = Some t -> has_source t = true ->
        playTrackFromIndex upNextList fuel rnd index s = Some s' ->
        currentTrackIndex s' = Some index
        /\ shuffledOrder s' !! orderIndex s' = Some index
        /\ (index ∈ shuffledOrder s -> shuffledOrder s' = shuffledOrder s)
        /\ (index ∉ shuffledOrder s ->
            shuffledOrder s' = shuffleArray rnd (JS.range (length (tracks s))))).
Proof.
  split.
  - intros Hge. unfold playTrackFromIndex.
    by rewrite (proj2 (lookup_ge_None _ _) Hge).
  - intros t s' Ht Hsrc. unfold playTrackFromIndex. rewrite Ht.
    pose proof (lookup_lt_Some _ _ _ Ht) as Hlt.
    set (s1 := if JS.includes (shuffledOrder s) index then s
               else buildInitialShuffleOrder rnd s).
    assert (Hin1 : index ∈ shuffledOrder s1).
    { unfold s1. destruct (JS.includes _ _) eqn:Hinc.
      - by apply includes_true.
      - rewrite shuffledOrder_build, shuffleArray_perm.
        unfold JS.range. apply elem_of_seq. lia. }
    assert (Ht1 : tracks s1 = tracks s).
    { unfold s1. by destruct (JS.includes _ _). }
    destruct (indexOf_elem _ _ Hin1) as [j Hj]. simpl. rewrite Hj.
    apply indexOf_Some in Hj.
    intros Hload.
    rewrite (loadTrackByIndex_loads upNextList fuel index _ t) in Hload.
    + injection Hload as <-. simpl.
      split; [done|]. split; [done|]. unfold s1. split.
      * intros Hin. by rewrite (proj2 (includes_true _ _) Hin).
      * intros Hnin. by rewrite (proj2 (includes_false _ _) Hnin).
    + simpl. by rewrite Ht1.
    + done.
    + apply loadTrackByIndex_cases in Hload as Hcases.
      unfold loadTrackByIndex in Hload. simpl in Hload.
      rewrite Ht1, Ht in Hload.
      rewrite (proj2 (Nat.leb_gt _ _)) in Hload by lia.
      unfold has_source in Hsrc. apply andb_prop in Hsrc as [H1 H2].
      rewrite H1 in Hload. apply negb_true_iff in H2. rewrite H2 in Hload.
      simpl in Hload.
      destruct (renderUpNext _ _ _) as [[]|]; [done|discriminate].
Qed.

Lemma skipTrack_shuffled_interior (fuel : nat) (rnd : nat -> unit_sample)
    (direction : Z) (s : State) (idx : nat) (t : Track) :
  engine_ok s -> MAX_NEXT ≤ length (tracks s) -> MAX_NEXT < fuel ->
  shuffleEnabled s = true ->
  (0 <= Z.of_nat (orderIndex s) + direction < Z.of_nat (length (shuffledOrder s)))%Z ->
  shuffledOrder s !! Z.to_nat (Z.of_nat (orderIndex s) + direction) = Some idx ->
  tracks s !! idx = Some t -> has_source t = true ->
  skipTrack upNextList fuel rnd direction s
  = Some (set_currentTrackIndex (Some idx)
            (set_orderIndex (Z.to_nat (Z.of_nat (orderIndex s) + direction)) s)).
Proof.
  intros Hok Hbig Hfuel Hsh Hrange Hidx Ht Hsrc.
  pose proof (engine_ok_length s Hok) as Hlen.
  unfold skipTrack.
  rewrite (proj2 (Nat.eqb_neq _ 0)) by (unfold MAX_NEXT in Hbig; lia).
  rewrite Hsh, (proj2 (Nat.ltb_lt 0 _)) by (unfold MAX_NEXT in Hbig; lia).
  simpl.
  rewrite (proj2 (Z.ltb_ge _ _)) by lia.
  rewrite (proj2 (Z.leb_gt _ _)) by lia. simpl.
  rewrite Hidx.
  apply (loadTrackByIndex_loads _ _ _ _ t); [done|done|].
  apply renderUpNext_returns; [|intros _ _ _|done]; simpl.
  - by apply engine_ok_NoDup.
  - lia.
Qed.

(** X6. With shuffle on, a consistent queue over at least [MAX_NEXT] tracks
    and every track accepted by [loadTrackByIndex]: a step that stays inside
    the order moves the cursor by [direction] and makes the track in that
    slot current; a step that leaves the order at either end draws a new
    order, puts the cursor on its first slot and makes the track there
    current. *)
Theorem skipTrack_shuffled (fuel : nat) (rnd : nat -> unit_sample)
    (direction : Z) (s : State) :
  engine_ok s -> MAX_NEXT ≤ length (tracks s) -> MAX_NEXT < fuel ->
  shuffleEnabled s = true ->
  Forall (fun t => has_source t = true) (tracks s) ->
  let target := (Z.of_nat (orderIndex s) + direction)%Z in
  ((0 <= target < Z.of_nat (length (shuffledOrder s)))%Z ->
   exists idx,
     shuffledOrder s !! Z.to_nat target = Some idx
     /\ skipTrack upNextList fuel rnd direction s
        = Some (set_currentTrackIndex (Some idx)
                  (set_orderIndex (Z.to_nat target) s)))
  /\ ((target < 0 \/ Z.of_nat (length (shuffledOrder s)) <= target)%Z ->
      exists idx,
        shuffleArray rnd (JS.range (length (tracks s))) !! 0 = Some idx
        /\ skipTrack upNextList fuel rnd direction s
           = Some (set_currentTrackIndex (Some idx)
                     (buildInitialShuffleOrder rnd s))).
Proof.
  intros Hok Hbig Hfuel Hsh Hall target.
  pose proof (engine_ok_length s Hok) as Hlen.
  assert (Hplayable : forall i, i < length (tracks s) ->
            exists t, tracks s !! i = Some t /\ has_source t = true).
  { intros i Hi. destruct (lookup_lt_is_Some_2 (tracks s) i Hi) as [t Ht].
    exists t. split; [done|]. rewrite Forall_forall in Hall.
    apply Hall. by eapply list_elem_of_lookup_2. }
  split.
  - intros Hrange.
    destruct (lookup_lt_is_Some_2 (shuffledOrder s) (Z.to_nat target)) as [idx Hidx];
      [lia|].
    exists idx. split; [done|].
    assert (Hi : idx < length (tracks s)).
    { apply (engine_ok_elem s idx Hok). by eapply list_elem_of_lookup_2. }
    destruct (Hplayable idx Hi) as (t & Ht & Hsrc).
    by apply (skipTrack_shuffled_interior _ _ _ _ _ t).
  - intros Hout.
    set (s1 := buildInitialShuffleOrder rnd s).
    assert (Hok1 : engine_ok s1) by (apply build_engine_ok; apply Hok).
    pose proof (engine_ok_length s1 Hok1) as Hlen1.
    destruct (lookup_lt_is_Some_2 (shuffledOrder s1) 0) as [idx Hidx].
    { rewrite Hlen1. simpl. unfold MAX_NEXT in Hbig. lia. }
    exists idx. split; [exact Hidx|].
    assert (Hi : idx < length (tracks s)).
    { apply (engine_ok_elem s1 idx Hok1). by eapply list_elem_of_lookup_2. }
    destruct (Hplayable idx Hi) as (t & Ht & Hsrc).
    unfold skipTrack.
    rewrite (proj2 (Nat.eqb_neq _ 0)) by (unfold MAX_NEXT in Hbig; lia).
    rewrite Hsh, (proj2 (Nat.ltb_lt 0 _)) by (unfold MAX_NEXT in Hbig; lia).
    simpl. fold target.
    assert (Hcond : (target <? 0)%Z
                    || (Z.of_nat (length (shuffledOrder s)) <=? target)%Z = true).
    { apply orb_true_iff. destruct Hout as [H|H].
      - left. by apply Z.ltb_lt.
      - right. by apply Z.leb_le. }
    rewrite Hcond. fold s1.
    replace (orderIndex s1) with 0 by done. rewrite Hidx.
    apply (loadTrackByIndex_loads _ _ _ _ t); [done|done|].
    apply renderUpNext_returns; [|intros _ _ _|done].
    + exact (engine_ok_NoDup s1 Hok1).
    + change (MAX_NEXT ≤ length (shuffledOrder s1)). rewrite Hlen1. exact Hbig.
Qed.

(** X7. On a consistent queue over at least [MAX_NEXT] tracks, all of which
    [loadTrackByIndex] accepts, with shuffle on and the cursor not on the
    last slot: a step forward followed by a step back returns (with more
    than [MAX_NEXT] tests for the up-next loop), puts the cursor where it
    was and makes the track of that slot current; when the cursor's slot
    held the current track, the state is the same again. *)
Theorem skipTrack_forward_then_back (fuel : nat) (rnd rnd' : nat -> unit_sample)
    (s : State) (a : nat) :
  engine_ok s -> MAX_NEXT ≤ length (tracks s) -> MAX_NEXT < fuel ->
  shuffleEnabled s = true ->
  Forall (fun t => has_source t = true) (tracks s) ->
  orderIndex s + 1 < length (shuffledOrder s) ->
  shuffledOrder s !! orderIndex s = Some a ->
  (skipTrack upNextList fuel rnd 1 s
     ≫= skipTrack upNextList fuel rnd' (-1))
  = Some (set_currentTrackIndex (Some a) s)
  /\ (currentTrackIndex s = Some a ->
      (skipTrack upNextList fuel rnd 1 s
         ≫= skipTrack upNextList fuel rnd' (-1)) = Some s).
Proof.
  intros Hok Hbig Hfuel Hsh Hall Hnext Ha.
  pose proof (engine_ok_length s Hok) as Hlen.
  assert (Hplayable : forall i, i ∈ shuffledOrder s ->
            exists t, tracks s !! i = Some t /\ has_source t = true).
  { intros i Hi. apply (engine_ok_elem s i Hok) in Hi.
    destruct (lookup_lt_is_Some_2 (tracks s) i Hi) as [t Ht].
    exists t. split; [done|]. rewrite Forall_forall in Hall.
    apply Hall. by eapply list_elem_of_lookup_2. }
  destruct (lookup_lt_is_Some_2 (shuffledOrder s) (orderIndex s + 1) Hnext)
    as [b Hb].
  destruct (Hplayable a) as (ta & Hta & Hsa); [by eapply list_elem_of_lookup_2|].
  destruct (Hplayable b) as (tb & Htb & Hsb); [by eapply list_elem_of_lookup_2|].
  assert (Hstep1 :
    skipTrack upNextList fuel rnd 1 s
    = Some (set_currentTrackIndex (Some b) (set_orderIndex (orderIndex s + 1) s))).
  { rewrite (skipTrack_shuffled_interior fuel rnd 1 s b tb); try done.
    - by replace (Z.to_nat (Z.of_nat (orderIndex s) + 1)) with (orderIndex s + 1)
        by lia.
    - lia.
    - by replace (Z.to_nat (Z.of_nat (orderIndex s) + 1)) with (orderIndex s + 1)
        by lia. }
  set (s1 := set_currentTrackIndex (Some b) (set_orderIndex (orderIndex s + 1) s)).
  assert (Hok1 : engine_ok s1).
  { destruct Hok as (Hp & Hoi & Hcur). split; [done|]. split.
    - simpl. rewrite <- Hlen. lia.
    - intros c [= <-]. by apply lookup_lt_Some in Htb. }
  assert (Hstep2 :
    skipTrack upNextList fuel rnd' (-1) s1
    = Some (set_currentTrackIndex (Some a) s)).
  { rewrite (skipTrack_shuffled_interior fuel rnd' (-1) s1 a ta); try done.
    - simpl. replace (Z.to_nat (Z.of_nat (orderIndex s + 1) + -1))
        with (orderIndex s) by lia.
      by destruct s.
    - simpl. lia.
    - simpl. by replace (Z.to_nat (Z.of_nat (orderIndex s + 1) + -1))
        with (orderIndex s) by lia. }
  assert (Hboth :
    (skipTrack upNextList fuel rnd 1 s ≫= skipTrack upNextList fuel rnd' (-1))
    = Some (set_currentTrackIndex (Some a) s)).
  { rewrite Hstep1. simpl. exact Hstep2. }
  split; [exact Hboth|].
  intros Hcur. rewrite Hboth. f_equal. rewrite <- Hcur. by destruct s.
Qed.

(** X8. [toggleRepeat] switches between the two modes and back, touching
    nothing else; after it has turned repeat on, the end of a track leaves
    the state as it is, whatever the catalog; after it has turned repeat off,
    the end of a track is a step forward. *)
Theorem toggleRepeat_and_track_end (fuel : nat) (rnd : nat -> unit_sample)
    (s : State) :
  toggleRepeat (toggleRepeat s) = s
  /\ repeatMode (toggleRepeat s) <> repeatMode s
  /\ (repeatMode s = RepeatOff ->
      handleTrackEnded upNextList fuel rnd (toggleRepeat s)
      = Some (toggleRepeat s))
  /\ (repeatMode s = RepeatOne ->
      handleTrackEnded upNextList fuel rnd (toggleRepeat s)
      = skipTrack upNextList fuel rnd 1 (toggleRepeat s)).
Proof.
  unfold toggleRepeat, handleTrackEnded.
  destruct s as [? ? ? ? ? [] ? ? ? ?]; simpl; repeat split; done.
Qed.

(** X9. The playback controls leave the catalog, the playlists, the active
    playlist and the repeat mode alone: a state returned by [skipTrack],
    [playTrackFromIndex], [toggleShuffle] or [handleTrackEnded] differs from
    the one given in the order, the cursor, the current index and the
    shuffle flag at most. *)
Theorem playback_controls_leave_library (fuel : nat) (rnd : nat -> unit_sample)
    (direction : Z) (index : nat) (s s' : State) :
  skipTrack upNextList fuel rnd direction s = Some s'
  \/ playTrackFromIndex upNextList fuel rnd index s = Some s'
  \/ toggleShuffle upNextList fuel rnd s = Some s'
  \/ handleTrackEnded upNextList fuel rnd s = Some s' ->
  same_library s s'.
Proof.
  assert (Hrefl : forall x, same_library x x) by (intros x; by repeat split).
  assert (Hload : forall i s1 s2,
    same_library s s1 -> loadTrackByIndex upNextList fuel i s1 = Some s2 ->
    same_library s s2).
  { intros i s1 s2 H1 H. apply loadTrackByIndex_cases in H as [->|[-> _]]; done. }
  assert (Hskip : forall d,
    skipTrack upNextList fuel rnd d s = Some s' -> same_library s s').
  { intros d. unfold skipTrack.
    destruct (length (tracks s) =? 0); [by intros [= <-]|].
    destruct (shuffleEnabled s && _).
    - destruct (_ || _).
      + destruct (_ !! _); [by apply Hload|by intros [= <-]].
      + destruct (_ !! _); [by apply Hload|by intros [= <-]].
    - by apply Hload. }
  intros [H|[H|[H|H]]].
  - by apply (Hskip direction).
  - revert H. unfold playTrackFromIndex.
    destruct (tracks s !! index); [|by intros [= <-]].
    apply Hload.
    destruct (JS.includes _ _); simpl; by destruct (JS.indexOf _ _).
  - revert H. unfold toggleShuffle.
    destruct (renderUpNext _ _ _); [|discriminate]. intros [= <-].
    by destruct (shuffleEnabled s).
  - revert H. unfold handleTrackEnded.
    destruct (repeatMode s); [apply Hskip|by intros [= <-]].
Qed.

End StepFacts.

(** *** The theorems on the queue at concrete states *)

Lemma demo_shuffled_state_ok : engine_ok demo_shuffled_state.
Proof.
  split; [|split].
  - apply (bool_decide_unpack _). reflexivity.
  - simpl. lia.
  - intros c [= <-]. simpl. lia.
Qed.

Lemma demo_catalog_playable (n : nat) :
  Forall (fun t => has_source t = true) (demo_catalog n).
Proof. unfold demo_catalog. apply Forall_replicate. reflexivity. Qed.

Lemma playback_controls_keep_queue_consistent_witness :
  engine_ok demo_shuffled_state
  /\ engine_ok (set_currentTrackIndex (Some 2) (set_orderIndex 3 demo_shuffled_state)).
Proof.
  split; [exact demo_shuffled_state_ok|].
  destruct (playback_controls_keep_queue_consistent true 7 high_source 1 0
              demo_shuffled_state demo_shuffled_state_ok) as (Hskip & _).
  apply Hskip. reflexivity.
Defined.

Lemma playback_controls_return_witness :
  is_Some (skipTrack true 7 high_source (-1) demo_shuffled_state)
  /\ is_Some (toggleShuffle true 7 high_source demo_shuffled_state).
Proof.
  destruct (playback_controls_return true 7 high_source (-1) 0
              demo_shuffled_state demo_shuffled_state_ok)
    as (H1 & _ & H3 & _).
  - right. simpl. unfold MAX_NEXT. lia.
  - unfold MAX_NEXT. lia.
  - split; [exact H1|exact H3].
Defined.

Lemma fetchTracks_small_catalog_never_returns_witness :
  fetchTracks true 1000 high_source demo_raw_three state0 = None.
Proof.
  apply fetchTracks_small_catalog_never_returns.
  - reflexivity.
  - simpl. lia.
  - simpl. unfold MAX_NEXT. lia.
Defined.

Lemma toggleShuffle_small_catalog_never_returns_witness :
  toggleShuffle true 1000 high_source
    (demo_state (demo_catalog 3) false [0; 1; 2] 0 (Some 0)) = None.
Proof.
  apply toggleShuffle_small_catalog_never_returns.
  - reflexivity.
  - simpl. lia.
  - simpl. unfold MAX_NEXT. lia.
Defined.

Lemma playTrackFromIndex_points_cursor_witness :
  playTrackFromIndex true 7 high_source 9 demo_shuffled_state
  = Some demo_shuffled_state
  /\ (forall s',
        playTrackFromIndex true 7 high_source 5 demo_shuffled_state = Some s' ->
        currentTrackIndex s' = Some 5 /\ orderIndex s' = 6).
Proof.
  destruct (playTrackFromIndex_points_cursor true 7 high_source 9
              demo_shuffled_state) as [Hout _].
  split; [apply Hout; simpl; lia|].
  intros s' Hs'.
  destruct (playTrackFromIndex_points_cursor true 7 high_source 5
              demo_shuffled_state) as [_ Hin].
  destruct (Hin (demo_track "http://x/a.mp3") s' eq_refl eq_refl Hs')
    as (Hcur & _).
  split; [exact Hcur|].
  vm_compute in Hs'. by injection Hs' as <-.
Defined.

Lemma skipTrack_shuffled_witness :
  skipTrack true 7 high_source 1 demo_shuffled_state
  = Some (set_currentTrackIndex (Some 2) (set_orderIndex 3 demo_shuffled_state)).
Proof.
  destruct (skipTrack_shuffled true 7 high_source 1 demo_shuffled_state)
    as [Hin _].
  - exact demo_shuffled_state_ok.
  - simpl. unfold MAX_NEXT. lia.
  - unfold MAX_NEXT. lia.
  - reflexivity.
  - apply demo_catalog_playable.
  - destruct Hin as (idx & Hidx & Hskip); [simpl; lia|].
    rewrite Hskip. simpl in Hidx. by injection Hidx as <-.
Defined.

Lemma skipTrack_forward_then_back_witness :
  (skipTrack true 7 high_source 1 demo_shuffled_state
     ≫= skipTrack true 7 high_source (-1)) = Some demo_shuffled_state.
Proof.
  destruct (skipTrack_forward_then_back true 7 high_source high_source
              demo_shuffled_state 0) as [_ H].
  - exact demo_shuffled_state_ok.
  - simpl. unfold MAX_NEXT. lia.
  - unfold MAX_NEXT. lia.
  - reflexivity.
  - apply demo_catalog_playable.
  - simpl. lia.
  - reflexivity.
  - apply H. reflexivity.
Defined.

Lemma playback_controls_leave_library_witness :
  same_library demo_shuffled_state
    (set_currentTrackIndex (Some 2) (set_orderIndex 3 demo_shuffled_state)).
Proof.
  apply (playback_controls_leave_library true 7 high_source 1 0).
  left. reflexivity.
Defined.

(** ** More on the normalizer *)

Lemma trimStart_trimEnd (s : string) :
  JS.trimStart (JS.trimEnd (JS.trimStart s)) = JS.trimEnd (JS.trimStart s).
Proof.
  induction s as [|c s IH]; simpl; [done|].
  destruct (JS.is_space c) eqn:Hc; [exact IH|].
  simpl. rewrite Hc. simpl. by rewrite Hc.
Qed.

Lemma trimEnd_trimEnd (s : string) : JS.trimEnd (JS.trimEnd s) = JS.trimEnd s.
Proof.
  induction s as [|c s IH]; simpl; [done|].
  destruct (JS.is_space c && String.eqb (JS.trimEnd s) "") eqn:Hc; simpl; [done|].
  by rewrite IH, Hc.
Qed.

(** Trimming a trimmed text changes nothing. *)
Lemma trim_trim (s : string) : JS.trim (JS.trim s) = JS.trim s.
Proof.
  unfold JS.trim. by rewrite trimStart_trimEnd, trimEnd_trimEnd.
Qed.

Lemma normalize_from_prefix (raw : list RawTrack) :
  forall idx normalized skipped,
    (normalize_from raw idx normalized skipped).1
    = normalized ++ (normalize_from raw idx [] 0).1.
Proof.
  induction raw as [|t raw IH]; intros idx normalized skipped; simpl.
  - by rewrite app_nil_r.
  - destruct (normalizeRecord t idx) as [tr|].
    + rewrite (IH (S idx) (normalized ++ [tr]) skipped), (IH (S idx) [tr] 0).
      by rewrite <- app_assoc.
    + by rewrite (IH (S idx) normalized (S skipped)), (IH (S idx) [] 1).
Qed.

Lemma normalize_from_lookup (raw : list RawTrack) :
  forall idx i t tr,
    raw !! i = Some t ->
    normalizeRecord t (idx + i) = Some tr ->
    (normalize_from raw idx [] 0).1
      !! length (filter (fun u => u <> "") (rawSource <$> take i raw))
    = Some tr.
Proof.
  induction raw as [|t0 raw IH]; intros idx i t tr Hi Hrec; [done|].
  destruct i as [|i].
  - injection Hi as ->. rewrite Nat.add_0_r in Hrec.
    cbn [normalize_from]. rewrite Hrec, normalize_from_prefix. done.
  - cbn [normalize_from take]. rewrite fmap_cons.
    simpl in Hi. replace (idx + S i) with (S idx + i) in Hrec by lia.
    destruct (normalizeRecord t0 idx) as [tr0|] eqn:Hrec0.
    + apply normalizeRecord_pushes in Hrec0 as (_ & _ & _ & Hne).
      rewrite filter_cons_True by done.
      rewrite normalize_from_prefix. cbn [length app lookup list_lookup].
      by apply (IH (S idx) i t tr).
    + apply normalizeRecord_skips in Hrec0.
      rewrite filter_cons_False by (intros Hne; by apply Hne).
      rewrite normalize_from_prefix. simpl.
      by apply (IH (S idx) i t tr).
Qed.

(** X10. A record with a source is in the catalog at the position given by
    the number of records with a source before it; its [id] is its own when
    it has one, and otherwise [t] followed by its position, counted from 1,
    among all the records of the input, skipped ones included; a missing
    title and artist become [Untitled] and [Unknown artist]. *)
Theorem normalizeTracks_position_and_defaults (raw : list RawTrack) (i : nat)
    (t : RawTrack) :
  raw !! i = Some t ->
  rawSource t <> "" ->
  exists tr,
    (normalizeTracks raw).1
      !! length (filter (fun u => u <> "") (rawSource <$> take i raw))
    = Some tr
    /\ src tr = rawSource t
    /\ id tr = JS.or_default (raw_id t) ("t" +:+ pretty (i + 1))
    /\ title tr = JS.or_default (raw_title t) "Untitled"
    /\ artist tr = JS.or_default (raw_artist t) "Unknown artist"
    /\ album tr = JS.or_default (raw_album t) ""
    /\ cover tr = JS.trim (JS.or_default (raw_cover t) "").
Proof.
  intros Hi Hsrc.
  destruct (normalizeRecord t i) as [tr|] eqn:Hrec;
    [|by apply normalizeRecord_skips in Hrec].
  exists tr. split.
  - unfold normalizeTracks. by apply (normalize_from_lookup raw 0 i t tr).
  - apply normalizeRecord_pushes in Hrec as Hp. destruct Hp as (Hs & _).
    split; [exact Hs|].
    unfold normalizeRecord in Hrec.
    destruct (negb _); [discriminate|]. injection Hrec as <-. simpl.
    repeat split; try done.
    unfold JS.or_default at 1. by destruct (JS.truthy _) eqn:E;
      [|apply truthy_false in E].
Qed.

(** X11. Every track of a normalized catalog has one and the same text as
    [src], [url] and [link]; the text is not empty and has no white space at
    either end; and [loadTrackByIndex] accepts the track unless that text is
    [undefined]. *)
Theorem normalized_tracks_are_trimmed (raw : list RawTrack) (tr : Track) :
  tr ∈ (normalizeTracks raw).1 ->
  url tr = src tr /\ link tr = src tr
  /\ src tr <> ""
  /\ JS.trim (src tr) = src tr
  /\ (has_source tr = true <-> src tr <> "undefined").
Proof.
  intros Hin.
  destruct (normalize_from_spec raw 0 [] 0) as (Hsrcs & _ & Hall).
  fold (normalizeTracks raw) in Hsrcs, Hall.
  specialize (Hall (Forall_nil_2 _)). rewrite Forall_forall in Hall.
  destruct (Hall tr Hin) as (Hne & Hu & Hl).
  assert (Htrim : JS.trim (src tr) = src tr).
  { assert (Hs : src tr ∈ src <$> (normalizeTracks raw).1)
      by (apply list_elem_of_fmap; eauto).
    rewrite Hsrcs in Hs. simpl in Hs.
    apply list_elem_of_filter in Hs as [_ Hs].
    apply list_elem_of_fmap in Hs as (t & -> & _).
    apply trim_trim. }
  split; [done|]. split; [done|]. split; [done|]. split; [done|].
  unfold has_source.
  assert (Htruthy : JS.truthy (src tr) = true).
  { destruct (JS.truthy (src tr)) eqn:E; [done|]. by apply truthy_false in E. }
  rewrite Htruthy, Htrim, Htruthy. simpl.
  rewrite negb_true_iff. split.
  - intros H E. rewrite E in H. discriminate.
  - intros H. by apply String.eqb_neq.
Qed.

(** A record list with a skipped record in the middle and a record that
    brings its own id. *)
Lemma normalizeTracks_position_and_defaults_witness :
  exists tr,
    (normalizeTracks
       [raw_titled "A" (Some "http://x/a.mp3"); raw_titled "B" None;
        raw_titled "C" (Some " http://x/c.mp3 ")]).1 !! 1 = Some tr
    /\ src tr = "http://x/c.mp3" /\ id tr = "t3".
Proof.
  destruct (normalizeTracks_position_and_defaults
              [raw_titled "A" (Some "http://x/a.mp3"); raw_titled "B" None;
               raw_titled "C" (Some " http://x/c.mp3 ")]
              2 (raw_titled "C" (Some " http://x/c.mp3 ")) eq_refl)
    as (tr & Hpos & Hsrc & Hid & _).
  - vm_compute. discriminate.
  - exists tr. split; [exact Hpos|]. split; [exact Hsrc|exact Hid].
Defined.

Lemma normalized_tracks_are_trimmed_witness :
  has_source (demo_track "http://x/a.mp3") = true
  <-> src (demo_track "http://x/a.mp3") <> "undefined".
Proof.
  apply (normalized_tracks_are_trimmed
           [raw_titled "Untitled" (Some "http://x/a.mp3")]).
  vm_compute. left.
Defined.

(** ** The shuffle of any array *)

(** X12. [shuffleArray], which also orders the cards of a playlist view,
    returns a rearrangement of the array it is given, whatever the array
    holds and whatever [Math.random] returns: the same entries, each as often
    as before. Every draw names a slot at or below the one it is exchanged
    with, and an array of at most one entry is returned as it is. *)
Theorem shuffleArray_rearranges (rnd : nat -> unit_sample) (arr : list nat) :
  shuffleArray rnd arr ≡ₚ arr
  /\ length (shuffleArray rnd arr) = length arr
  /\ (forall x, x ∈ shuffleArray rnd arr <-> x ∈ arr)
  /\ (NoDup arr -> NoDup (shuffleArray rnd arr))
  /\ (forall k i, floor_scaled (rnd k) i ≤ i)
  /\ (length arr ≤ 1 -> shuffleArray rnd arr = arr).
Proof.
  pose proof (shuffleArray_perm rnd arr) as Hp.
  split; [exact Hp|]. split; [by rewrite Hp|].
  split; [intros x; by rewrite Hp|]. split; [by rewrite Hp|].
  split; [intros k i; apply floor_scaled_le|].
  intros Hlen. unfold shuffleArray.
  by replace (length arr - 1) with 0 by lia.
Qed.

(** ** More on the playlist store *)

Lemma array_index_pretty (k : string) (n : N) :
  Obj.array_index k = Some n -> k = pretty n.
Proof.
  unfold Obj.array_index. destruct k as [|c k]; [discriminate|].
  destruct (Obj.parse_dec _ _) as [m|]; [|discriminate].
  destruct (_ <? _)%N; simpl; [|discriminate].
  destruct (String.eqb _ _) eqn:E; [|discriminate].
  intros [= <-]. apply String.eqb_eq in E. done.
Qed.

#[local] Instance index_le_trans : Transitive Obj.index_le.
Proof. intros x y z. unfold Obj.index_le. lia. Qed.

#[local] Instance index_le_total : Total Obj.index_le.
Proof. intros x y. unfold Obj.index_le. lia. Qed.

(** Sorting the keys a second time changes nothing. *)
Lemma key_order_twice (ks : list string) :
  Obj.key_order (Obj.key_order ks) = Obj.key_order ks.
Proof.
  unfold Obj.key_order.
  set (f := fun k => (fun n => (n, k)) <$> Obj.array_index k).
  set (sorted := merge_sort Obj.index_le (omap f ks)).
  set (others := filter (fun k => Obj.array_index k = None) ks).
  assert (Hvalid : forall e, e ∈ sorted -> Obj.array_index e.2 = Some e.1).
  { intros [n k] He. unfold sorted in He. rewrite merge_sort_Permutation in He.
    apply list_elem_of_omap in He as (k0 & _ & Hk0). unfold f in Hk0.
    destruct (Obj.array_index k0) eqn:E; simpl in Hk0; [|discriminate].
    by injection Hk0 as <- <-. }
  assert (H1 : omap f (sorted.*2) = sorted).
  { clear -Hvalid. induction sorted as [|[n k] l IH]; [done|].
    assert (E : Obj.array_index k = Some n) by (apply (Hvalid (n, k)); left).
    simpl. unfold f at 1. rewrite E. simpl.
    f_equal. apply IH. intros e He. apply Hvalid. by right. }
  assert (H2 : omap f others = []).
  { unfold others. clear. induction ks as [|k ks IH]; [done|].
    destruct (decide (Obj.array_index k = None)) as [E|E].
    - rewrite filter_cons_True by done. simpl. unfold f at 1. by rewrite E.
    - by rewrite filter_cons_False. }
  assert (H3 : filter (fun k => Obj.array_index k = None) (sorted.*2) = []).
  { clear -Hvalid. induction sorted as [|[n k] l IH]; [done|].
    assert (E : Obj.array_index k = Some n) by (apply (Hvalid (n, k)); left).
    simpl. rewrite filter_cons_False.
    - apply IH. intros e He. apply Hvalid. by right.
    - by rewrite E. }
  assert (H4 : filter (fun k => Obj.array_index k = None) others = others).
  { unfold others. clear. induction ks as [|k ks IH]; [done|].
    destruct (decide (Obj.array_index k = None)) as [E|E].
    - rewrite filter_cons_True by done. rewrite filter_cons_True by done.
      by f_equal.
    - by rewrite filter_cons_False. }
  rewrite omap_app, H1, H2, app_nil_r, filter_app, H3, H4. simpl. f_equal.
  f_equal.
  apply (Sorted_unique_strong Obj.index_le).
  - intros [n1 k1] [n2 k2] He1 He2 Hle1 Hle2.
    rewrite merge_sort_Permutation in He1.
    pose proof (Hvalid _ He1) as E1. pose proof (Hvalid _ He2) as E2.
    simpl in *. unfold Obj.index_le in *. simpl in *.
    assert (n1 = n2) by lia. subst.
    apply array_index_pretty in E1, E2. by subst.
  - apply Sorted_merge_sort; apply _.
  - unfold sorted. apply Sorted_merge_sort; apply _.
  - apply merge_sort_Permutation.
Qed.

Lemma reparsed_keys {V} (o : list (string * V)) :
  (Obj.reparsed o).*1 = Obj.keys o.
Proof.
  unfold Obj.reparsed.
  assert (H : forall ks, (forall k, k ∈ ks -> is_Some (Obj.get k o)) ->
    (omap (fun k => (fun v => (k, v)) <$> Obj.get k o) ks).*1 = ks).
  { induction ks as [|k ks IH]; intros Hks; [done|].
    simpl. destruct (Hks k) as [v Hv]; [left|]. rewrite Hv. simpl.
    f_equal. apply IH. intros k' Hk'. apply Hks. by right. }
  apply H. intros k. apply keys_elem.
Qed.

(** [Object.keys] is the same before and after [JSON.stringify] and
    [JSON.parse]. *)
Lemma keys_reparsed {V} (o : list (string * V)) :
  Obj.keys (Obj.reparsed o) = Obj.keys o.
Proof.
  unfold Obj.keys at 1. rewrite reparsed_keys. unfold Obj.keys.
  apply key_order_twice.
Qed.

Section MoreStoreFacts.
Variable setItemThrows : bool.

(** X13. What [savePlaylistsToStorage] writes, [loadPlaylistsFromStorage]
    reads back in a new session: with an active id that counts as set, the
    state after loading has the same active id, the same playlist under
    every key and the same order of keys, whatever the state of the new
    session was before; loading writes nothing and touches no field of the
    playback queue. *)
Theorem save_then_load_restores (newId a : string) (s fresh : State)
    (item : StoredItem) :
  activePlaylistId s = Some a -> JS.truthy a = true ->
  let stored := (savePlaylistsToStorage false (s, item)).2 in
  let w' := loadPlaylistsFromStorage newId (fresh, stored) in
  activePlaylistId w'.1 = activePlaylistId s
  /\ (forall k, Obj.get k (playlists w'.1) = Obj.get k (playlists s))
  /\ Obj.keys (playlists w'.1) = Obj.keys (playlists s)
  /\ w'.2 = stored
  /\ same_playback fresh w'.1.
Proof.
  intros Ha Htr. simpl. rewrite Ha. simpl. rewrite Htr.
  split; [done|]. split; [intros k; apply get_reparsed|].
  split; [apply keys_reparsed|]. split; [done|]. by repeat split.
Qed.

(** X14. [createNewPlaylist] does nothing when the dialog is dismissed or
    left empty. With any other name it stores under the generated id a
    playlist without tracks whose name is the trimmed input (a name of
    blanks only gives the empty name), replacing whatever playlist that id
    keyed before, makes it active and leaves every other playlist as it is;
    unless the write throws, the stored item then reads back that
    collection. *)
Theorem createNewPlaylist_adds_empty_playlist (newId : string)
    (name : option string) (w : World) :
  (name = None \/ name = Some "" ->
   createNewPlaylist setItemThrows newId name w = w)
  /\ (forall nm, name = Some nm -> nm <> "" ->
      let w' := createNewPlaylist setItemThrows newId name w in
      Obj.get newId (playlists w'.1)
      = Some {| pl_id := newId; pl_name := JS.trim nm; trackIds := [] |}
      /\ activePlaylistId w'.1 = Some newId
      /\ (forall k, k <> newId ->
            Obj.get k (playlists w'.1) = Obj.get k (playlists w.1))
      /\ (setItemThrows = false ->
          exists p, w'.2 = Parsed p
            /\ stored_activePlaylistId p = Some newId
            /\ forall k, Obj.get k (default [] (stored_playlists p))
                         = Obj.get k (playlists w'.1))).
Proof.
  destruct w as [s item]. split.
  - intros [->| ->]; reflexivity.
  - intros nm -> Hnm. unfold createNewPlaylist.
    assert (Htr : JS.truthy nm = true).
    { destruct (JS.truthy nm) eqn:E; [done|]. by apply truthy_false in E. }
    rewrite Htr. cbn [negb]. cbv zeta. rewrite save_state. cbn [fst].
    split; [apply get_set_eq|]. split; [done|].
    split; [intros k Hk; by apply get_set_ne|].
    intros ->. simpl. eexists. split; [reflexivity|]. split; [done|].
    intros k. simpl. apply get_reparsed.
Qed.

(** X15. On a collection as the program builds it, in which every playlist
    has its [trackIds] array, [handleAddTrackToPlaylist] throws exactly when
    the active id counts as set and keys no playlist; in every other such
    state it returns. (A collection taken from a stored text of another
    shape is not such a state.) *)
Theorem handleAddTrackToPlaylist_throws_iff (newId : string) (t : nat)
    (w : World) :
  handleAddTrackToPlaylist setItemThrows newId t w = None
  <-> exists a, activePlaylistId w.1 = Some a /\ JS.truthy a = true
                /\ Obj.get a (playlists w.1) = None.
Proof.
  destruct w as [s item]. cbn [fst].
  assert (Hfallback :
    forall r,
      r = match Obj.keys (playlists s) with
          | [] =>
              (newId,
               set_playlists (Obj.set newId (favorites newId) (playlists s))
                 (Some newId) s)
          | id0 :: _ => (id0, set_playlists (playlists s) (Some id0) s)
          end ->
      is_Some (Obj.get r.1 (playlists r.2))).
  { intros r ->. destruct (Obj.keys (playlists s)) as [|id0 ids] eqn:Hkeys; simpl.
    - rewrite get_set_eq. eauto.
    - apply keys_elem. rewrite Hkeys. left. }
  unfold handleAddTrackToPlaylist, resolveTarget.
  destruct (activePlaylistId s) as [a|] eqn:Ha.
  - destruct (JS.truthy a) eqn:Htr.
    + destruct (Obj.get a (playlists s)) as [pl|] eqn:Hget.
      * split; [discriminate|]. intros (a' & [= <-] & _ & H). congruence.
      * split; [eauto|done].
    + destruct (Hfallback _ eq_refl) as [pl Hpl].
      destruct (match Obj.keys (playlists s) with [] => _ | _ => _ end)
        as [tid s1].
      simpl in Hpl. rewrite Hpl.
      split; [discriminate|]. intros (a' & [= <-] & Htr' & _). congruence.
  - destruct (Hfallback _ eq_refl) as [pl Hpl].
    destruct (match Obj.keys (playlists s) with [] => _ | _ => _ end)
      as [tid s1].
    simpl in Hpl. rewrite Hpl.
    split; [discriminate|]. intros (a' & [=] & _).
Qed.

(** X16. Without an active id (none, or the empty text):
    [handleAddTrackToPlaylist] on a collection without playlists creates
    Favorites under the generated id, with the track as its only entry,
    and makes it active; on a collection with playlists it adds the track to
    the playlist whose key comes first in [Object.keys] and makes that one
    active. *)
Theorem handleAddTrackToPlaylist_without_active (newId : string) (t : nat)
    (s : State) (item : StoredItem) :
  activePlaylistId s = None \/ activePlaylistId s = Some "" ->
  (playlists s = [] ->
   handleAddTrackToPlaylist setItemThrows newId t (s, item)
   = Some (savePlaylistsToStorage setItemThrows
             (set_playlists
                [(newId, {| pl_id := newId; pl_name := "Favorites";
                            trackIds := [t] |})]
                (Some newId) s, item)))
  /\ (forall id0 rest, Obj.keys (playlists s) = id0 :: rest ->
      exists pl,
        Obj.get id0 (playlists s) = Some pl
        /\ handleAddTrackToPlaylist setItemThrows newId t (s, item)
           = Some (savePlaylistsToStorage setItemThrows
                     (set_playlists
                        (Obj.set id0 (addIfAbsent t pl) (playlists s))
                        (Some id0) s, item))).
Proof.
  intros Hact.
  assert (Hres : resolveTarget newId s
    = match Obj.keys (playlists s) with
      | [] =>
          (newId,
           set_playlists (Obj.set newId (favorites newId) (playlists s))
             (Some newId) s)
      | id0 :: _ => (id0, set_playlists (playlists s) (Some id0) s)
      end).
  { unfold resolveTarget. by destruct Hact as [-> | ->]. }
  split.
  - intros Hempty. unfold handleAddTrackToPlaylist. rewrite Hres, Hempty.
    simpl. by rewrite String.eqb_refl.
  - intros id0 rest Hkeys.
    assert (Hsome : is_Some (Obj.get id0 (playlists s))).
    { apply keys_elem. rewrite Hkeys. left. }
    destruct Hsome as [pl Hpl]. exists pl. split; [done|].
    unfold handleAddTrackToPlaylist. rewrite Hres, Hkeys. simpl.
    by rewrite Hpl.
Qed.

(** X17. Selecting a playlist and then adding a track puts the track into
    the selected playlist: when playlists are stored under their own ids and
    the key is not the empty text, the call returns, the selected key is the
    active id, its playlist holds the track, and no other playlist has
    changed. *)
Theorem selectPlaylist_then_add (newId key : string) (t : nat) (w : World)
    (pl : Playlist) :
  ids_match_keys (playlists w.1) ->
  Obj.get key (playlists w.1) = Some pl ->
  key <> "" ->
  exists w',
    handleAddTrackToPlaylist setItemThrows newId t
      (selectPlaylist setItemThrows key w) = Some w'
    /\ activePlaylistId w'.1 = Some key
    /\ Obj.get key (playlists w'.1) = Some (addIfAbsent t pl)
    /\ t ∈ trackIds (addIfAbsent t pl)
    /\ (forall k, k <> key ->
          Obj.get k (playlists w'.1) = Obj.get k (playlists w.1)).
Proof.
  destruct w as [s item]. cbn [fst]. intros Hids Hget Hkey.
  assert (Hid : pl_id pl = key).
  { apply get_Some_elem in Hget. unfold ids_match_keys in Hids.
    rewrite Forall_forall in Hids. exact (Hids _ Hget). }
  assert (Htr : JS.truthy key = true).
  { destruct (JS.truthy key) eqn:E; [done|]. by apply truthy_false in E. }
  unfold selectPlaylist. rewrite Hget, Hid.
  destruct (savePlaylistsToStorage setItemThrows
              (set_playlists (playlists s) (Some key) s, item))
    as [s1 item1] eqn:Hsave.
  assert (Hs1 : s1 = set_playlists (playlists s) (Some key) s).
  { pose proof (save_state setItemThrows
                  (set_playlists (playlists s) (Some key) s, item)) as E.
    by rewrite Hsave in E. }
  subst s1.
  unfold handleAddTrackToPlaylist, resolveTarget. cbn [activePlaylistId set_playlists].
  rewrite Htr. cbn [playlists set_playlists]. rewrite Hget.
  eexists. split; [reflexivity|]. rewrite save_state. cbn [fst].
  split; [done|]. split; [apply get_set_eq|].
  split; [apply addIfAbsent_holds|].
  intros k Hk. by apply get_set_ne.
Qed.

(** X18. The playlist store leaves the playback queue alone: the states
    that loading, saving, creating a playlist, adding a track and selecting
    a playlist return differ from the one given in the playlists and the
    active id at most. *)
Theorem playlist_store_leaves_playback (newId key : string)
    (name : option string) (t : nat) (w : World) :
  same_playback w.1 (loadPlaylistsFromStorage newId w).1
  /\ same_playback w.1 (savePlaylistsToStorage setItemThrows w).1
  /\ same_playback w.1 (createNewPlaylist setItemThrows newId name w).1
  /\ (forall w', handleAddTrackToPlaylist setItemThrows newId t w = Some w' ->
        same_playback w.1 w'.1)
  /\ same_playback w.1 (selectPlaylist setItemThrows key w).1.
Proof.
  assert (Hrefl : forall x, same_playback x x) by (intros x; by repeat split).
  assert (Hset : forall x p a, same_playback x (set_playlists p a x))
    by (intros x p a; by repeat split).
  destruct w as [s item]. cbn [fst].
  split; [|split; [|split; [|split]]].
  - unfold loadPlaylistsFromStorage. destruct item as [| |p]; simpl; done.
  - by rewrite save_state.
  - unfold createNewPlaylist. destruct name as [nm|]; [|done].
    destruct (negb _); [done|]. by rewrite save_state.
  - intros w' H. apply handleAddTrackToPlaylist_unfold in H as (pl & _ & ->).
    rewrite save_state. cbn [fst].
    destruct (resolveTarget_spec newId s) as (_ & _ & _ & _ & H1 & H2 & H3 & H4).
    unfold same_playback. simpl. rewrite H1, H2, H3, H4.
    unfold resolveTarget.
    destruct (activePlaylistId s) as [a|];
      [destruct (JS.truthy a)|]; try destruct (Obj.keys _); by repeat split.
  - unfold selectPlaylist. destruct (Obj.get _ _); [|done].
    by rewrite save_state.
Qed.

End MoreStoreFacts.

Lemma save_then_load_restores_witness :
  let stored := (savePlaylistsToStorage false demo_world).2 in
  activePlaylistId (loadPlaylistsFromStorage "m4p7w1c" (state0, stored)).1
  = Some "k3x9q2a".
Proof.
  apply (save_then_load_restores "m4p7w1c" "k3x9q2a" demo_world.1 state0
           demo_world.2); reflexivity.
Defined.

Lemma handleAddTrackToPlaylist_without_active_witness :
  handleAddTrackToPlaylist false "k3x9q2a" 4 (state0, NoItem)
  = Some (savePlaylistsToStorage false
            (set_playlists
               [("k3x9q2a", {| pl_id := "k3x9q2a"; pl_name := "Favorites";
                               trackIds := [4] |})]
               (Some "k3x9q2a") state0, NoItem)).
Proof.
  destruct (handleAddTrackToPlaylist_without_active false "k3x9q2a" 4
              state0 NoItem) as [H _].
  - by left.
  - apply H. reflexivity.
Defined.

Lemma selectPlaylist_then_add_witness :
  exists w',
    handleAddTrackToPlaylist false "m4p7w1c" 2
      (selectPlaylist false "k3x9q2a" demo_world) = Some w'
    /\ activePlaylistId w'.1 = Some "k3x9q2a".
Proof.
  destruct (selectPlaylist_then_add false "m4p7w1c" "k3x9q2a" 2 demo_world
              (favorites "k3x9q2a")) as (w' & H1 & H2 & _).
  - repeat constructor.
  - reflexivity.
  - discriminate.
  - exists w'. by split.
Defined.

(** ** Time labels *)

Lemma string_length_app (a b : string) :
  String.length (a +:+ b) = String.length a + String.length b.
Proof. induction a as [|c a IH]; simpl; [done|]. by rewrite IH. Qed.

(** Two texts with suffixes of one length are equal part by part. *)
Lemma string_app_inj_suffix (s1 s2 t1 t2 : string) :
  String.length t1 = String.length t2 ->
  s1 +:+ t1 = s2 +:+ t2 -> s1 = s2 /\ t1 = t2.
Proof.
  revert s2. induction s1 as [|c s1 IH]; intros s2 Hlen Heq.
  - destruct s2 as [|c2 s2]; [done|].
    apply (f_equal String.length) in Heq.
    rewrite !string_length_app in Heq. simpl in Heq. lia.
  - destruct s2 as [|c2 s2]; simpl in Heq.
    + apply (f_equal String.length) in Heq.
      rewrite !string_length_app in Heq. simpl in Heq. lia.
    + injection Heq as -> Heq. destruct (IH s2 Hlen Heq) as [-> ->]. done.
Qed.

(** The labels of the sixty seconds of a minute have two characters each
    and differ from one another. *)
Lemma seconds_labels (a b : Z) :
  (0 <= a < 60)%Z -> (0 <= b < 60)%Z ->
  String.length (padStart2 (pretty a)) = 2
  /\ (padStart2 (pretty a) = padStart2 (pretty b) -> a = b).
Proof.
  intros Ha Hb.
  assert (Hall :
    forallb (fun x =>
      (String.length (padStart2 (pretty (Z.of_nat x))) =? 2)
      && forallb (fun y =>
           implb (String.eqb (padStart2 (pretty (Z.of_nat x)))
                    (padStart2 (pretty (Z.of_nat y))))
                 (x =? y))
           (seq 0 60))
      (seq 0 60) = true) by (vm_compute; reflexivity).
  rewrite forallb_forall in Hall.
  specialize (Hall (Z.to_nat a)).
  rewrite Z2Nat.id in Hall by lia.
  destruct (andb_prop _ _ (Hall ltac:(apply in_seq; lia))) as [H1 H2].
  apply Nat.eqb_eq in H1. split; [exact H1|].
  intros Heq. rewrite forallb_forall in H2.
  specialize (H2 (Z.to_nat b) ltac:(apply in_seq; lia)).
  rewrite Z2Nat.id in H2 by lia.
  rewrite Heq, String.eqb_refl in H2. simpl in H2.
  apply Nat.eqb_eq in H2. lia.
Qed.

(** Below [2^53] seconds the quotient by 60, rounded to a double, has the
    integer part of the exact quotient. *)
Lemma minutes_exact (z : Z) :
  (0 <= z < 2 ^ 53)%Z ->
  Qfloor (Double.round64 (inject_Z z / 60)) = (z / 60)%Z.
Proof.
  intros Hz.
  pose proof (Z.div_mod z 60 ltac:(lia)) as Hdm.
  pose proof (Z.mod_pos_bound z 60 ltac:(lia)) as Hb.
  set (a := (z / 60)%Z) in *. set (b := (z mod 60)%Z) in *.
  assert (Ez : (inject_Z z == 60 * inject_Z a + inject_Z b)%Q).
  { rewrite Hdm at 1. rewrite inject_Z_plus, inject_Z_mult. reflexivity. }
  assert (Hz0 : (0 <= inject_Z z)%Q).
  { replace 0%Q with (inject_Z 0) by done. rewrite <- Zle_Qle. lia. }
  assert (Hz53 : (inject_Z z <= 2 ^ 53 - 1)%Q).
  { assert (z <= 2 ^ 53 - 1)%Z as H by lia. rewrite Zle_Qle in H.
    eapply Qle_trans; [exact H|]. by vm_compute. }
  assert (Hb0 : (0 <= inject_Z b)%Q).
  { replace 0%Q with (inject_Z 0) by done. rewrite <- Zle_Qle. lia. }
  assert (Hb59 : (inject_Z b <= 59)%Q).
  { assert (b <= 59)%Z as H by lia. by rewrite Zle_Qle in H. }
  set (x := (inject_Z z / 60)%Q).
  assert (Ex : (60 * x == inject_Z z)%Q).
  { unfold x. field. }
  assert (Hx0 : (0 <= x)%Q) by lra.
  assert (Hx53 : (x < 2 ^ 53)%Q) by lra.
  pose proof (round64_upper x Hx0) as Hup.
  assert (Hlo : (inject_Z a <= Double.round64 x)%Q).
  { apply round64_ge_int; [done|done|lra]. }
  apply Qfloor_spec. split; [exact Hlo|].
  rewrite inject_Z_plus. change (inject_Z 1) with 1%Q. lra.
Qed.

(** X19. For finite times that are not negative and below [2^53] seconds,
    [formatTime] gives two times the same label exactly when they lie in
    the same whole second; the label is the number of whole minutes, a
    colon and two characters for the seconds. For the infinite duration
    of a stream the label is [Infinity:NaN]. *)
Theorem formatTime_labels (largeText : Z -> string) (q1 q2 : Q) :
  (0 <= q1)%Q -> (q1 < 2 ^ 53)%Q -> (0 <= q2)%Q -> (q2 < 2 ^ 53)%Q ->
  (formatTime largeText (Finite q1) = formatTime largeText (Finite q2)
   <-> Qfloor q1 = Qfloor q2)
  /\ (exists ss,
        formatTime largeText (Finite q1)
        = pretty (Qfloor q1 / 60)%Z +:+ ":" +:+ ss
        /\ String.length ss = 2)
  /\ formatTime largeText (Infinity false) = "Infinity:NaN".
Proof.
  intros H1 H1' H2 H2'.
  assert (Hfl : forall q, (0 <= q)%Q -> (q < 2 ^ 53)%Q ->
            (0 <= Qfloor q < 2 ^ 53)%Z).
  { intros q Hq Hq'. split.
    - rewrite <- (Qfloor_Z 0). by apply Qfloor_resp_le.
    - rewrite Zlt_Qlt. eapply Qle_lt_trans; [apply Qfloor_le|].
      eapply Qlt_le_trans; [exact Hq'|]. by vm_compute. }
  pose proof (Hfl q1 H1 H1') as Hz1. pose proof (Hfl q2 H2 H2') as Hz2.
  assert (Hlabel : forall z, (0 <= z < 2 ^ 53)%Z ->
            integerText largeText (Qfloor (Double.round64 (inject_Z z / 60)))
            = pretty (z / 60)%Z).
  { intros z Hz. rewrite minutes_exact by done. unfold integerText.
    assert (0 <= z / 60 < 2 ^ 53)%Z.
    { split; [apply Z.div_pos; lia|].
      apply Z.div_lt_upper_bound; lia. }
    rewrite Z.abs_eq by lia.
    by rewrite (proj2 (Z.ltb_lt _ _)) by lia. }
  unfold formatTime.
  set (z1 := Qfloor q1) in *. set (z2 := Qfloor q2) in *.
  rewrite !Hlabel by done.
  assert (Hr1 : (0 <= Z.rem z1 60 < 60)%Z).
  { rewrite Z.rem_mod_nonneg by lia. apply Z.mod_pos_bound. lia. }
  assert (Hr2 : (0 <= Z.rem z2 60 < 60)%Z).
  { rewrite Z.rem_mod_nonneg by lia. apply Z.mod_pos_bound. lia. }
  destruct (seconds_labels _ _ Hr1 Hr2) as [Hl1 Hinj].
  destruct (seconds_labels _ _ Hr2 Hr1) as [Hl2 _].
  split; [|split; [eauto|reflexivity]].
  split; [|by intros ->].
  intros Heq.
  apply string_app_inj_suffix in Heq as [Hm Hs].
  - apply (inj pretty) in Hm.
    injection Hs as Hs. apply Hinj in Hs.
    rewrite !Z.rem_mod_nonneg in Hs by lia.
    rewrite (Z.div_mod z1 60), (Z.div_mod z2 60) by lia. congruence.
  - by rewrite !string_length_app, Hl1, Hl2.
Qed.

Lemma formatTime_labels_witness :
  formatTime (fun _ => "") (Finite (125 # 2)) = "1:02"
  /\ formatTime (fun _ => "") (Finite (125 # 2))
     = formatTime (fun _ => "") (Finite 62).
Proof.
  split; [vm_compute; reflexivity|].
  apply (formatTime_labels (fun _ => "") (125 # 2) 62);
    [done|by vm_compute|done|by vm_compute|reflexivity].
Defined.

(** ** Theme *)

(** X20. When the write of the preference does not throw, [toggleTheme]
    leaves the body attribute and the stored preference equal, at [light] if
    the attribute was [dark], empty or missing and at [dark] in every other
    case; two further calls lead back to that same state. When the write
    throws, the call is left with the attribute changed and the stored
    preference as it was. *)
Theorem toggleTheme_switches (w : ThemeWorld) :
  (exists w1,
     toggleTheme false w = Returned w1
     /\ bodyTheme w1 = storedTheme w1
     /\ (bodyTheme w = Some "dark" \/ bodyTheme w = Some "" \/ bodyTheme w = None ->
         bodyTheme w1 = Some "light")
     /\ (bodyTheme w <> Some "dark" -> bodyTheme w <> Some "" ->
         bodyTheme w <> None -> bodyTheme w1 = Some "dark")
     /\ and_then (toggleTheme false w1) (toggleTheme false) = Returned w1)
  /\ (exists w1,
        toggleTheme true w = Threw w1
        /\ storedTheme w1 = storedTheme w
        /\ bodyTheme w1 <> bodyTheme w).
Proof.
  destruct w as [[b|] st]; unfold toggleTheme, setTheme; simpl.
  - destruct (JS.truthy b) eqn:Htr.
    + destruct (String.eqb b "dark") eqn:Hd.
      * apply String.eqb_eq in Hd. subst b. split.
        -- eexists. split; [reflexivity|]. simpl. split; [done|].
           split; [done|]. split; [done|done].
        -- eexists. split; [reflexivity|]. split; [done|]. simpl. discriminate.
      * apply String.eqb_neq in Hd. split.
        -- eexists. split; [reflexivity|]. simpl. split; [done|]. split.
           ++ intros [[= ->]|[[= ->]|[=]]]; [done|discriminate].
           ++ split; [done|done].
        -- eexists. split; [reflexivity|]. split; [done|]. simpl.
           intros [= <-]. done.
    + apply truthy_false in Htr. subst b. simpl. split.
      * eexists. split; [reflexivity|]. simpl. split; [done|].
        split; [done|]. split; [done|done].
      * eexists. split; [reflexivity|]. split; [done|]. simpl. discriminate.
  - split.
    + eexists. split; [reflexivity|]. simpl. split; [done|].
      split; [done|]. split; [done|done].
    + eexists. split; [reflexivity|]. split; [done|]. simpl. discriminate.
Qed.

(** X21. [initTheme] applies the stored preference when there is one that
    is not empty, whatever it says, and otherwise [light] or [dark] as the
    system prefers; either way (when the write does not throw) the body
    attribute and the stored preference are that value afterwards, so that a
    second [initTheme] changes nothing, whatever the system then prefers. *)
Theorem initTheme_prefers_stored (prefersLight prefersLight' : bool)
    (w : ThemeWorld) :
  let chosen :=
    match storedTheme w with
    | Some x => if String.eqb x "" then (if prefersLight then "light" else "dark")
                else x
    | None => if prefersLight then "light" else "dark"
    end in
  initTheme false prefersLight w
  = Returned {| bodyTheme := Some chosen; storedTheme := Some chosen |}
  /\ and_then (initTheme false prefersLight w) (initTheme false prefersLight')
     = initTheme false prefersLight w.
Proof.
  destruct w as [b [x|]]; unfold initTheme, setTheme; simpl.
  - unfold JS.truthy. destruct (String.eqb x "") eqn:E; simpl.
    + split; [done|].
      destruct prefersLight; simpl; done.
    + split; [done|]. unfold JS.truthy. by rewrite E.
  - split; [done|]. destruct prefersLight; simpl; done.
Qed.

(** ** The visualizer's frame loop *)

Lemma vis_run_snoc (es : list VisEvent) (e : VisEvent) (v : Visualizer) :
  vis_run (es ++ [e]) v = vis_step (vis_run es v) e.
Proof. unfold vis_run. by rewrite foldl_app. Qed.

Lemma filter_other_single (h : nat) : filter (fun x => x <> h) [h] = [].
Proof. by rewrite filter_cons_False by (intros H; by apply H). Qed.

Lemma render_ok (v : Visualizer) :
  vis_ready v = true -> pending v = [] -> vis_ok (render v).
Proof.
  intros Hready Hp. unfold vis_ok, render. simpl. rewrite Hp. simpl.
  split; [done|]. split; [intros h [= <-]; lia|]. congruence.
Qed.

Lemma vis_step_ok (v : Visualizer) (e : VisEvent) :
  vis_ok v -> vis_ok (vis_step v e).
Proof.
  intros Hok. pose proof Hok as (Hp & Hh & Hr).
  assert (Hset : forall h, rafId v = Some h -> handle_set (Some h) = true).
  { intros h Hraf. simpl. apply negb_true_iff, Nat.eqb_neq.
    specialize (Hh h Hraf). lia. }
  destruct e as [supported| | |h]; simpl.
  - unfold initVisualizer. destruct (vis_ready v) eqn:Hready; [exact Hok|].
    destruct supported; [|exact Hok]. unfold vis_ok. simpl.
    rewrite (Hr eq_refl) in *. done.
  - unfold startVisualizerLoop. destruct (vis_ready v) eqn:Hready; simpl;
      [|exact Hok].
    destruct (rafId v) as [h|] eqn:Hraf.
    + rewrite (Hset h eq_refl). apply render_ok; [done|]. simpl.
      rewrite Hp. apply filter_other_single.
    + by apply render_ok.
  - unfold stopVisualizerLoop. destruct (rafId v) as [h|] eqn:Hraf; [|exact Hok].
    rewrite (Hset h eq_refl). unfold vis_ok. simpl.
    rewrite Hp, filter_other_single. done.
  - unfold runFrame. destruct (bool_decide (h ∈ pending v)) eqn:Hin; [|exact Hok].
    apply bool_decide_eq_true in Hin. rewrite Hp in Hin.
    destruct (rafId v) as [h0|] eqn:Hraf; [|by apply elem_of_nil in Hin].
    apply list_elem_of_singleton in Hin. subst h0.
    destruct (vis_ready v) eqn:Hready; [|by specialize (Hr eq_refl)].
    apply render_ok; [done|]. simpl. rewrite Hp. apply filter_other_single.
Qed.

Lemma vis_run_ok (es : list VisEvent) : vis_ok (vis_run es visualizer0).
Proof.
  induction es as [|e es IH] using rev_ind.
  - unfold vis_ok. simpl. done.
  - rewrite vis_run_snoc. by apply vis_step_ok.
Qed.

(** X22. Whatever the program and the browser do to the visualizer, in any
    order (initialize, start the loop, stop it, run a frame), the browser
    holds at most one frame callback of the loop, the one of [rafId], and
    none before the visualizer is initialized; starting the loop leaves
    exactly one when the visualizer is initialized; stopping it leaves none,
    and a frame that comes afterwards does nothing. *)
Theorem visualizer_has_one_frame_callback (es : list VisEvent) :
  let v := vis_run es visualizer0 in
  length (pending v) ≤ 1
  /\ pending v = match rafId v with Some h => [h] | None => [] end
  /\ (vis_ready v = false -> pending v = [])
  /\ (vis_ready v = true -> length (pending (startVisualizerLoop v)) = 1)
  /\ pending (stopVisualizerLoop v) = []
  /\ (forall h, runFrame h (stopVisualizerLoop v) = stopVisualizerLoop v).
Proof.
  intros v.
  pose proof (vis_run_ok es) as Hok. fold v in Hok.
  pose proof (vis_step_ok v EvStart Hok) as Hstart.
  pose proof (vis_step_ok v EvStop Hok) as Hstop.
  destruct Hok as (Hp & Hh & Hr).
  assert (Hstopped : pending (stopVisualizerLoop v) = []).
  { unfold stopVisualizerLoop. destruct (rafId v) as [h|] eqn:Hraf; [|done].
    assert (Hset : handle_set (Some h) = true).
    { simpl. apply negb_true_iff, Nat.eqb_neq. specialize (Hh h eq_refl). lia. }
    rewrite Hset. simpl. rewrite Hp. apply filter_other_single. }
  split; [rewrite Hp; destruct (rafId v); simpl; lia|].
  split; [exact Hp|].
  split; [intros Hready; by rewrite Hp, (Hr Hready)|].
  split.
  - intros Hready. simpl in Hstart. destruct Hstart as (Hp' & _).
    rewrite Hp'. unfold startVisualizerLoop. rewrite Hready. simpl. done.
  - split; [exact Hstopped|].
    intros h. unfold runFrame. rewrite Hstopped.
    by rewrite bool_decide_eq_false_2 by apply not_elem_of_nil.
Qed.

(** ** Loading the catalog *)

(** X23. In a session that has no order and no current track yet,
    [fetchTracks] over records of which none or at least [MAX_NEXT] have a
    source returns, with the normalized records as catalog and a consistent
    queue. When no record has a source, nothing but the catalog is assigned;
    otherwise the cursor is on the first slot of the new order and the track
    there is current if [loadTrackByIndex] accepts it. *)
Theorem fetchTracks_builds_queue (upNextList : bool) (fuel : nat)
    (rnd : nat -> unit_sample) (raw : list RawTrack) (s : State) :
  shuffledOrder s = [] -> currentTrackIndex s = None ->
  length (normalizeTracks raw).1 = 0 \/ MAX_NEXT ≤ length (normalizeTracks raw).1 ->
  MAX_NEXT < fuel ->
  exists s',
    fetchTracks upNextList fuel rnd raw s = Some s'
    /\ tracks s' = (normalizeTracks raw).1
    /\ engine_ok s'
    /\ (length (normalizeTracks raw).1 = 0 ->
        s' = set_tracks (normalizeTracks raw).1 s)
    /\ (0 < length (normalizeTracks raw).1 ->
        orderIndex s' = 0
        /\ shuffledOrder s'
           = shuffleArray rnd (JS.range (length (normalizeTracks raw).1))
        /\ forall idx t,
             shuffledOrder s' !! 0 = Some idx -> tracks s' !! idx = Some t ->
             has_source t = true -> currentTrackIndex s' = Some idx).
Proof.
  intros Horder Hcur Hsize Hfuel. unfold fetchTracks.
  set (cat := (normalizeTracks raw).1) in *.
  set (s1 := set_tracks cat s).
  change (length (tracks s1)) with (length cat).
  destruct (length cat =? 0) eqn:Hn.
  - apply Nat.eqb_eq in Hn. exists s1.
    split; [done|]. split; [done|]. split.
    + split; [|split].
      * simpl. rewrite Horder, Hn. done.
      * simpl. lia.
      * simpl. rewrite Hcur. discriminate.
    + split; [done|]. lia.
  - apply Nat.eqb_neq in Hn.
    set (s2 := buildInitialShuffleOrder rnd s1).
    assert (Hok2 : engine_ok s2).
    { apply build_engine_ok. simpl. rewrite Hcur. discriminate. }
    pose proof (engine_ok_length s2 Hok2) as Hlen2.
    change (length (tracks s2)) with (length cat) in Hlen2.
    rewrite renderUpNext_returns; [| |intros _ _ _|done].
    + destruct (lookup_lt_is_Some_2 (shuffledOrder s2) 0) as [idx Hidx]; [lia|].
      rewrite Hidx.
      destruct (loadTrackByIndex upNextList fuel idx s2) as [s'|] eqn:Hload.
      * exists s'. split; [done|].
        pose proof (loadTrackByIndex_engine_ok _ _ _ _ _ Hok2 Hload) as Hok'.
        apply loadTrackByIndex_cases in Hload as Hcases.
        assert (Hfields : tracks s' = cat /\ orderIndex s' = 0
                          /\ shuffledOrder s' = shuffledOrder s2).
        { destruct Hcases as [->|[-> _]]; done. }
        destruct Hfields as (Ht & Hoi & Hso).
        split; [done|]. split; [done|]. split; [lia|]. intros _.
        split; [done|]. split; [by rewrite Hso|].
        intros idx' t Hidx' Ht' Hsrc.
        rewrite Hso, Hidx in Hidx'. injection Hidx' as <-.
        rewrite Ht in Ht'.
        rewrite (loadTrackByIndex_loads _ _ _ _ t) in Hload; try done.
        -- by injection Hload as <-.
        -- apply renderUpNext_returns; [|intros _ _ _|done].
           ++ exact (engine_ok_NoDup s2 Hok2).
           ++ change (MAX_NEXT ≤ length (shuffledOrder s2)). lia.
      * exfalso.
        destruct (loadTrackByIndex_returns upNextList fuel idx s2) as [x Hx];
          [by apply engine_ok_NoDup|intros _ _ _; lia|done|congruence].
    + by apply engine_ok_NoDup.
    + lia.
Qed.

Lemma fetchTracks_builds_queue_witness :
  exists s',
    fetchTracks true 7 high_source (demo_raw_three ++ demo_raw_three) state0
    = Some s'
    /\ length (tracks s') = 6 /\ engine_ok s'.
Proof.
  destruct (fetchTracks_builds_queue true 7 high_source
              (demo_raw_three ++ demo_raw_three) state0)
    as (s' & H1 & H2 & H3 & _).
  - reflexivity.
  - reflexivity.
  - right. simpl. unfold MAX_NEXT. lia.
  - unfold MAX_NEXT. lia.
  - exists s'. split; [exact H1|]. split; [by rewrite H2|exact H3].
Defined.

Lemma createNewPlaylist_adds_empty_playlist_witness :
  Obj.get "m4p7w1c"
    (playlists (createNewPlaylist false "m4p7w1c" (Some "  Road trip ") demo_world).1)
  = Some {| pl_id := "m4p7w1c"; pl_name := "Road trip"; trackIds := [] |}.
Proof.
  destruct (createNewPlaylist_adds_empty_playlist false "m4p7w1c"
              (Some "  Road trip ") demo_world) as [_ H].
  destruct (H "  Road trip " eq_refl) as [Hget _]; [discriminate|].
  exact Hget.
Defined.

(** ** More on the earlier revision *)

(** X24. In the earlier revision [fetchTracks] keeps every record at its
    place: the track at a position comes from the record at that position,
    its source is the [link] field as it is (missing, empty or blank
    included), and a [url] field is not looked at. *)
Theorem appjs_normalizeTracks_keeps_positions (raw : list RawTrack) (i : nat) :
  length (AppJs.normalizeTracks raw) = length raw
  /\ (AppJs.src <$> AppJs.normalizeTracks raw !! i) = (raw_link <$> raw !! i)
  /\ (AppJs.id <$> AppJs.normalizeTracks raw !! i)
     = ((fun t => JS.or_default (raw_id t) ("t" +:+ pretty (i + 1))) <$> raw !! i)
  /\ (AppJs.title <$> AppJs.normalizeTracks raw !! i)
     = ((fun t => JS.or_default (raw_title t) "Untitled") <$> raw !! i).
Proof.
  unfold AppJs.normalizeTracks. split; [apply length_imap|].
  rewrite list_lookup_imap. by destruct (raw !! i).
Qed.

(** The walk of the earlier revision at five tracks with track 3 current. *)
Lemma appjs_skipTrack_sequential_walk_witness :
  AppJs.skipTrack true 7 high_source 1 demo_sequential_state
  = Some (set_currentTrackIndex (Some 4) demo_sequential_state).
Proof.
  apply (appjs_skipTrack_sequential_walk true 7 high_source 1
           demo_sequential_state);
    [reflexivity | by left | simpl; lia | simpl; unfold MAX_NEXT; lia].
Defined.
